(** * BirchEngine ECS: entities, components, groups and the Manager

    A shallow embedding of [ECS/ECS.h] and [ECS/TransformComponent.h].

    - Heap objects ([Entity], [Component]) live in finite maps indexed by
      their address; raw pointers ([Entity*], [Component*]) and owning
      pointers ([std::unique_ptr]) are addresses into these maps, and
      [new] returns an address that is not in use.
    - The function-local statics of [getNewComponentTypeID] and
      [getComponentTypeID<T>] are fields of the world.
    - An operation whose C++ behaviour is undefined (dereferencing a
      dangling pointer, indexing a [std::array] or [std::bitset] out of
      range, reading an unwritten slot, converting a [float] that is not
      an [int]) yields [None].
    - [float] is binary32 as specified by [SpecFloat].
    - Calls of the virtual methods are recorded in a trace, so that the
      order of the passes can be stated. *)

From Stdlib Require Import ZArith NArith QArith Qpower Qfield Lia.
From Stdlib Require Import SpecFloat.
From stdpp Require Import gmap strings list fin_maps.

Open Scope N_scope.

(** ** Constants and identifiers of [ECS.h] *)

(** [using ComponentID = std::size_t; using Group = std::size_t;] *)
Abbreviation ComponentID := N (only parsing).
Abbreviation Group := N (only parsing).
(** Addresses of heap objects. *)
Abbreviation addr := N (only parsing).

Definition size_t_modulus : N := 2 ^ 64.
Definition maxComponents : N := 32.
Definition maxGroups : N := 32.

(** ** The [Component] capability set

    [init], [update] and [draw] are virtual; a concrete component class
    overrides them on its own fields, as [TransformComponent] does, and
    [None] stands for undefined behaviour inside the method.
    [type_name] identifies the class: each instantiation of
    [getComponentTypeID<T>] has its own static. *)
Class ComponentClass (T : Type) := {
  type_name : string;
  init : T → option T;
  update : T → option T;
  draw : T → option T
}.

(** The defaults of the base class: [virtual void init() {}] and so on. *)
Definition Component_base : ComponentClass unit :=
  {| type_name := "Component"; init := Some; update := Some; draw := Some |}.

(** A component object on the heap: its dynamic class, its fields and the
    back pointer [Entity* entity] (not initialised by the constructor). *)
Record Component := mkComponent {
  dyn_type : Type;
  dyn_class : ComponentClass dyn_type;
  self : dyn_type;
  entity : option addr
}.

(** [class Entity]: [componentArray] is a [std::array<Component*, 32>]
    whose slots are indeterminate until written, the two bit sets are
    [std::bitset<32>]. *)
Record Entity := mkEntity {
  active : bool;
  components : list addr;
  componentArray : gmap ComponentID addr;
  componentBitSet : N;
  groupBitSet : N
}.

(** [class Manager]: the primary collection and the 32 group indices. *)
Record Manager := mkManager {
  entities : list addr;
  groupedEntities : gmap Group (list addr)
}.

(** Calls observed during a run, oldest first. *)
Inductive Event :=
  | EvEntityUpdate (e : addr)
  | EvEntityDraw (e : addr)
  | EvInit (c : addr)
  | EvUpdate (c : addr)
  | EvDraw (c : addr).

Record World := mkWorld {
  lastID : ComponentID;               (* static in getNewComponentTypeID *)
  typeIDs : gmap string ComponentID;  (* static typeID of getComponentTypeID<T> *)
  entity_heap : gmap addr Entity;
  component_heap : gmap addr Component;
  manager : Manager;
  trace : list Event
}.

Definition empty_world : World :=
  mkWorld 0 ∅ ∅ ∅ (mkManager [] ∅) [].

(** ** State and undefined behaviour *)

Definition M (A : Type) : Type := World → option (A * World).

Definition ret {A} (a : A) : M A := λ w, Some (a, w).
Definition bind {A B} (c : M A) (k : A → M B) : M B :=
  λ w, match c w with Some (a, w') => k a w' | None => None end.
Definition undefined {A} : M A := λ _, None.
Definition get : M World := λ w, Some (w, w).

#[global] Instance M_ret : MRet M := @ret.
#[global] Instance M_bind : MBind M := λ A B k c, bind c k.

Definition lift {A} (o : option A) : M A :=
  match o with Some a => ret a | None => undefined end.

Definition guard_ub (b : bool) : M unit :=
  if b then ret tt else undefined.

Fixpoint for_each {A} (f : A → M unit) (l : list A) : M unit :=
  match l with
  | [] => ret tt
  | x :: r => f x;; for_each f r
  end.

Definition with_lastID (n : ComponentID) (w : World) : World :=
  mkWorld n (typeIDs w) (entity_heap w) (component_heap w) (manager w)
          (trace w).
Definition with_typeIDs (m : gmap string ComponentID) (w : World) : World :=
  mkWorld (lastID w) m (entity_heap w) (component_heap w) (manager w)
          (trace w).
Definition with_entity_heap (h : gmap addr Entity) (w : World) : World :=
  mkWorld (lastID w) (typeIDs w) h (component_heap w) (manager w) (trace w).
Definition with_component_heap (h : gmap addr Component) (w : World)
    : World :=
  mkWorld (lastID w) (typeIDs w) (entity_heap w) h (manager w) (trace w).
Definition with_manager (m : Manager) (w : World) : World :=
  mkWorld (lastID w) (typeIDs w) (entity_heap w) (component_heap w) m
          (trace w).
Definition with_trace (t : list Event) (w : World) : World :=
  mkWorld (lastID w) (typeIDs w) (entity_heap w) (component_heap w)
          (manager w) t.

Definition modify (f : World → World) : M unit := λ w, Some (tt, f w).

Definition log (ev : Event) : M unit :=
  modify (λ w, with_trace (trace w ++ [ev]) w).
Definition set_entity_heap (h : gmap addr Entity) : M unit :=
  modify (with_entity_heap h).
Definition set_component_heap (h : gmap addr Component) : M unit :=
  modify (with_component_heap h).
Definition set_manager (m : Manager) : M unit :=
  modify (with_manager m).

(** Dereferencing: a pointer to no live object is undefined behaviour. *)
Definition deref_entity (p : addr) : M Entity :=
  w ← get; lift (entity_heap w !! p).
Definition deref_component (p : addr) : M Component :=
  w ← get; lift (component_heap w !! p).
Definition store_entity (p : addr) (e : Entity) : M unit :=
  w ← get; set_entity_heap (<[p := e]> (entity_heap w)).
Definition store_component (p : addr) (c : Component) : M unit :=
  w ← get; set_component_heap (<[p := c]> (component_heap w)).

(** [new]: an address at which no object of that kind is live. *)
Definition new_entity (e : Entity) : M addr :=
  w ← get;
  let p := fresh (dom (entity_heap w)) in
  store_entity p e;; ret p.
Definition new_component (c : Component) : M addr :=
  w ← get;
  let p := fresh (dom (component_heap w)) in
  store_component p c;; ret p.

(** ** Component type identifiers *)

(** [static ComponentID lastID = 0u; return lastID++;] on [std::size_t]. *)
Definition getNewComponentTypeID : M ComponentID :=
  w ← get;
  modify (with_lastID ((lastID w + 1) mod size_t_modulus));;
  ret (lastID w).

Definition set_typeID (T : string) (id : ComponentID) : M unit :=
  modify (λ w, with_typeIDs (<[T := id]> (typeIDs w)) w).

(** [static ComponentID typeID = getNewComponentTypeID(); return typeID;]:
    the static of the instantiation at [T] is initialised by its first
    call. *)
Definition getComponentTypeID (T : string) : M ComponentID :=
  w ← get;
  match typeIDs w !! T with
  | Some id => ret id
  | None => id ← getNewComponentTypeID; set_typeID T id;; ret id
  end.

(** ** [class Entity] *)

Definition Entity_new : Entity := mkEntity true [] ∅ 0 0.

Definition virtual_call (method : ∀ T, ComponentClass T → T → option T)
    (c : addr) : M unit :=
  obj ← deref_component c;
  match obj with
  | mkComponent T cls s ent =>
      s' ← lift (method T cls s);
      store_component c (mkComponent T cls s' ent)
  end.

(** [for (auto& c : components) c->update();] *)
Definition Entity_update (this : addr) : M unit :=
  e ← deref_entity this;
  for_each (λ c, log (EvUpdate c);; virtual_call (@update) c) (components e).

(** [for (auto& c : components) c->draw();] *)
Definition Entity_draw (this : addr) : M unit :=
  e ← deref_entity this;
  for_each (λ c, log (EvDraw c);; virtual_call (@draw) c) (components e).

Definition isActive (this : addr) : M bool :=
  e ← deref_entity this; ret (active e).

(** [void destroy() { active = false; }] *)
Definition destroy (this : addr) : M unit :=
  e ← deref_entity this;
  store_entity this
    (mkEntity false (components e) (componentArray e)
              (componentBitSet e) (groupBitSet e)).

(** [return groupBitSet[mGroup];] *)
Definition hasGroup (this : addr) (mGroup : Group) : M bool :=
  e ← deref_entity this;
  guard_ub (mGroup <? maxGroups);;
  ret (N.testbit (groupBitSet e) mGroup).

(** [groupBitSet[mGroup] = false;] *)
Definition delGroup (this : addr) (mGroup : Group) : M unit :=
  e ← deref_entity this;
  guard_ub (mGroup <? maxGroups);;
  store_entity this
    (mkEntity (active e) (components e) (componentArray e)
              (componentBitSet e) (N.clearbit (groupBitSet e) mGroup)).

(** [return componentBitSet[getComponentTypeID<T>()];] *)
Definition hasComponent (T : string) (this : addr) : M bool :=
  e ← deref_entity this;
  id ← getComponentTypeID T;
  guard_ub (id <? maxComponents);;
  ret (N.testbit (componentBitSet e) id).

(** [addComponent<T>(mArgs...)]; [v] is the object that [T]'s constructor
    builds from the arguments. *)
Definition addComponent {T : Type} `{cls : ComponentClass T} (v : T)
    (this : addr) : M addr :=
  (* T* c(new T(std::forward<TArgs>(mArgs)...)); *)
  c ← new_component (mkComponent T cls v None);
  (* c->entity = this; *)
  store_component c (mkComponent T cls v (Some this));;
  (* components.emplace_back(std::move(uPtr)); *)
  e ← deref_entity this;
  store_entity this
    (mkEntity (active e) (components e ++ [c]) (componentArray e)
              (componentBitSet e) (groupBitSet e));;
  (* componentArray[getComponentTypeID<T>()] = c; *)
  id ← getComponentTypeID type_name;
  guard_ub (id <? maxComponents);;
  e ← deref_entity this;
  store_entity this
    (mkEntity (active e) (components e) (<[id := c]> (componentArray e))
              (componentBitSet e) (groupBitSet e));;
  (* componentBitSet[getComponentTypeID<T>()] = true; *)
  id ← getComponentTypeID type_name;
  guard_ub (id <? maxComponents);;
  e ← deref_entity this;
  store_entity this
    (mkEntity (active e) (components e) (componentArray e)
              (N.setbit (componentBitSet e) id) (groupBitSet e));;
  (* c->init(); return *c; *)
  log (EvInit c);;
  virtual_call (@init) c;;
  ret c.

(** [auto ptr(componentArray[getComponentTypeID<T>()]);
     return *static_cast<T*>(ptr);] *)
Definition getComponent (T : string) (this : addr) : M addr :=
  e ← deref_entity this;
  id ← getComponentTypeID T;
  guard_ub (id <? maxComponents);;
  lift (componentArray e !! id).

(** ** [class Manager] *)

Definition getGroupIndex (m : Manager) (g : Group) : list addr :=
  default [] (groupedEntities m !! g).

(** [for (auto& e : entities) e->update();] *)
Definition Manager_update : M unit :=
  w ← get;
  for_each (λ e, log (EvEntityUpdate e);; Entity_update e)
           (entities (manager w)).

(** [for (auto& e : entities) e->draw();] *)
Definition Manager_draw : M unit :=
  w ← get;
  for_each (λ e, log (EvEntityDraw e);; Entity_draw e)
           (entities (manager w)).

(** [v.erase(std::remove_if(begin(v), end(v), pred), end(v))]: the
    predicate is applied to each element once, front to back; the result
    is the pair of the elements kept and the elements erased. *)
Fixpoint erase_remove_if {A} (pred : A → M bool) (v : list A)
    : M (list A * list A) :=
  match v with
  | [] => ret ([], [])
  | x :: r =>
      b ← pred x;
      kr ← erase_remove_if pred r;
      ret (if b : bool then (kr.1, x :: kr.2) else (x :: kr.1, kr.2))
  end.

(** [return !mEntity->isActive() || !mEntity->hasGroup(i);] *)
Definition stale_in_group (i : Group) (mEntity : addr) : M bool :=
  a ← isActive mEntity;
  if negb a then ret true
  else g ← hasGroup mEntity i; ret (negb g).

Definition set_group (i : Group) (v : list addr) : M unit :=
  w ← get;
  set_manager (mkManager (entities (manager w))
                         (<[i := v]> (groupedEntities (manager w)))).

Definition set_entities (v : list addr) : M unit :=
  w ← get;
  set_manager (mkManager v (groupedEntities (manager w))).

Definition refresh_group (i : Group) : M unit :=
  w ← get;
  kr ← erase_remove_if (stale_in_group i) (getGroupIndex (manager w) i);
  set_group i kr.1.

(** The indices [0 .. maxGroups - 1] of the loop in [refresh]. *)
Definition group_range : list Group :=
  map N.of_nat (seq 0 (N.to_nat maxGroups)).

(** [~Entity]: the owned components go with the entity. *)
Definition delete_entity (p : addr) : M unit :=
  e ← deref_entity p;
  w ← get;
  set_component_heap
    (foldr (λ c h, delete c h) (component_heap w) (components e));;
  w ← get;
  set_entity_heap (delete p (entity_heap w)).

Definition refresh : M unit :=
  for_each refresh_group group_range;;
  w ← get;
  kr ← erase_remove_if (λ mEntity, a ← isActive mEntity; ret (negb a))
                       (entities (manager w));
  set_entities kr.1;;
  for_each delete_entity kr.2.

(** [groupedEntities[mGroup].emplace_back(mEntity);] *)
Definition addToGroup (mEntity : addr) (mGroup : Group) : M unit :=
  guard_ub (mGroup <? maxGroups);;
  w ← get;
  set_group mGroup (getGroupIndex (manager w) mGroup ++ [mEntity]).

(** [return groupedEntities[mGroup];] *)
Definition getGroup (mGroup : Group) : M (list addr) :=
  guard_ub (mGroup <? maxGroups);;
  w ← get;
  ret (getGroupIndex (manager w) mGroup).

(** [addEntity]: a new [Entity] bound to this manager is appended to
    [entities] and returned by reference. *)
Definition addEntity : M addr :=
  e ← new_entity Entity_new;
  w ← get;
  set_entities (entities (manager w) ++ [e]);;
  ret e.

(** Modelled from the spec: [Entity::addGroup] is declared in [ECS.h] and
    defined in a source file that is not available.  It sets the group's
    bit in the membership set and notifies the owning Manager, which
    appends this entity to that group's index. *)
Definition addGroup (this : addr) (mGroup : Group) : M unit :=
  e ← deref_entity this;
  guard_ub (mGroup <? maxGroups);;
  store_entity this
    (mkEntity (active e) (components e) (componentArray e)
              (componentBitSet e) (N.setbit (groupBitSet e) mGroup));;
  addToGroup this mGroup.

(** ** Single-precision arithmetic

    [float] is IEEE 754 binary32: 24 bits of precision, infinities at
    exponent 128, rounding to nearest with ties to even. *)
Module Float32.

Abbreviation float := spec_float (only parsing).

Definition prec : Z := 24.
Definition emax : Z := 128.

Definition add : float → float → float := SFadd prec emax.
Definition mul : float → float → float := SFmul prec emax.
Definition div : float → float → float := SFdiv prec emax.
Definition sqrt : float → float := SFsqrt prec emax.

(** [a != b]: true as soon as an operand is a NaN. *)
Definition neq (a b : float) : bool := negb (SFeqb a b).

(** Conversion of an [int] to [float]. *)
Definition of_int (i : Z) : float := binary_normalize prec emax i 0 false.

Definition int_min : Z := - 2 ^ 31.
Definition int_max : Z := 2 ^ 31 - 1.

(** [static_cast<int>(f)]: truncation toward zero, undefined when the
    truncated value is not an [int] (also for infinities and NaN). *)
Definition to_int (f : float) : option Z :=
  match f with
  | S754_zero _ => Some 0%Z
  | S754_finite s m e =>
      let z := cond_Zopp s (Z.shiftl (Zpos m) e) in
      if ((int_min <=? z) && (z <=? int_max))%Z then Some z else None
  | _ => None
  end.

(** The real number a finite [float] stands for. *)
Definition value (f : float) : option Q :=
  match f with
  | S754_zero _ => Some 0%Q
  | S754_finite s m e =>
      Some (inject_Z (cond_Zopp s (Zpos m)) * Qpower 2 e)%Q
  | _ => None
  end.

(** The finite [float] [f] stands for the integer [z]. *)
Definition represents (f : float) (z : Z) : Prop :=
  match value f with
  | Some q => (q == inject_Z z)%Q
  | None => False
  end.

(** [a] and [b] are the same number; the two zeros are. *)
Definition same_number (a b : float) : Prop :=
  a = b ∨ (∃ s s', a = S754_zero s ∧ b = S754_zero s').

Definition is_finite (f : float) : bool :=
  match f with
  | S754_zero _ | S754_finite _ _ _ => true
  | _ => false
  end.

(** The canonical binary32 form of [± p], for [p] below [2 ^ 24]: the
    mantissa is [p] shifted left to 24 bits. *)
Definition canon (s : bool) (p : positive) : float :=
  S754_finite s
    (Nat.iter (Z.to_nat (24 - Zpos (digits2_pos p))) xO p)
    (Zpos (digits2_pos p) - 24).

End Float32.

(** ** [Vector2D] *)

Record Vector2D := mkVector2D { x : spec_float; y : spec_float }.

(** Modelled from the spec: [Vector2D::Zero], whose header [Vector2D.h]
    is not among the sources, sets both coordinates to zero. *)
Definition Zero (v : Vector2D) : Vector2D :=
  mkVector2D (Float32.of_int 0) (Float32.of_int 0).

(** Modelled from the spec: [Vector2D::Norm], of the same header, is the
    Euclidean length, [sqrt(x^2 + y^2)] as quoted beside its call in
    [TransformComponent::update]; here in single precision. *)
Definition Norm (v : Vector2D) : spec_float :=
  Float32.sqrt (Float32.add (Float32.mul (x v) (x v))
                            (Float32.mul (y v) (y v))).

(** ** [class TransformComponent : public Component] *)

Record TransformComponent := mkTransform {
  position : Vector2D;
  velocity : Vector2D;
  facing : Vector2D;
  height : Z;
  width : Z;
  scale : spec_float;
  speed : spec_float;
  speedLo : spec_float;
  speedHi : spec_float
}.

Definition set_position (p : Vector2D) (t : TransformComponent) :=
  mkTransform p (velocity t) (facing t) (height t) (width t)
              (scale t) (speed t) (speedLo t) (speedHi t).

(** [void init() override { velocity.Zero(); }] *)
Definition TransformComponent_init (t : TransformComponent) :=
  mkTransform (position t) (Zero (velocity t)) (facing t) (height t)
              (width t) (scale t) (speed t) (speedLo t) (speedHi t).

(** One coordinate of [update]:
    [(norm != 0) ? static_cast<int>((v * speed) / norm)
                 : static_cast<int>(v * speed)]. *)
Definition step_of (norm v sp : spec_float) : option Z :=
  if Float32.neq norm (Float32.of_int 0)
  then Float32.to_int (Float32.div (Float32.mul v sp) norm)
  else Float32.to_int (Float32.mul v sp).

(** [void update() override]: [position.x += ...; position.y += ...;] *)
Definition TransformComponent_update (t : TransformComponent)
    : option TransformComponent :=
  let norm := Norm (velocity t) in
  dx ← step_of norm (x (velocity t)) (speed t);
  let px := Float32.add (x (position t)) (Float32.of_int dx) in
  dy ← step_of norm (y (velocity t)) (speed t);
  let py := Float32.add (y (position t)) (Float32.of_int dy) in
  Some (set_position (mkVector2D px py) t).

#[global] Instance TransformComponent_class
    : ComponentClass TransformComponent :=
  {| type_name := "TransformComponent";
     init := λ t, Some (TransformComponent_init t);
     update := TransformComponent_update;
     draw := Some |}.

Section Constructors.

(** [Constants.h] and [Vector2D.h] are not among the sources:
    [TILE_SIZE] and the value of a default-constructed [Vector2D] are
    left open. *)
Variable TILE_SIZE : Z.
Variable Vector2D_default : Vector2D.

(** The default member initialisers. *)
Definition Transform_members : TransformComponent :=
  mkTransform Vector2D_default Vector2D_default Vector2D_default
              TILE_SIZE TILE_SIZE
              (Float32.of_int 1) (Float32.of_int 3)
              (Float32.of_int 0) (Float32.of_int 0).

(** The five constructor overloads with their arguments. *)
Inductive TransformArgs :=
  | Args0
  | Args_sc (sc : spec_float)
  | Args_xy (x y : spec_float)
  | Args_xyhws (x y : spec_float) (h w : Z) (sc : spec_float)
  | Args_xydhws (x y : spec_float) (direction : Vector2D) (h w : Z)
                (sc : spec_float).

Definition TransformComponent_new (a : TransformArgs)
    : TransformComponent :=
  let d := Transform_members in
  match a with
  | Args0 =>
      mkTransform (Zero (position d)) (velocity d) (facing d) (height d)
                  (width d) (scale d) (speed d) (speedLo d) (speedHi d)
  | Args_sc sc =>
      mkTransform (Zero (position d)) (velocity d) (facing d) (height d)
                  (width d) sc (speed d) (speedLo d) (speedHi d)
  | Args_xy px py =>
      mkTransform (mkVector2D px py) (velocity d) (facing d) (height d)
                  (width d) (scale d) (speed d) (speedLo d) (speedHi d)
  | Args_xyhws px py h w sc =>
      mkTransform (mkVector2D px py) (velocity d) (facing d) h w sc
                  (speed d) (speedLo d) (speedHi d)
  | Args_xydhws px py direction h w sc =>
      mkTransform (mkVector2D px py) (velocity d)
                  (mkVector2D (x direction) (y direction))
                  h w sc (speed d) (speedLo d) (speedHi d)
  end.

End Constructors.

Close Scope Q_scope.

(** ** Specification-level readers *)

(** The identifier [getComponentTypeID<T>] returns in [w], and the statics
    after that call. *)
Definition typeID_of (T : string) (w : World) : ComponentID :=
  default (lastID w) (typeIDs w !! T).

Definition register_type (T : string) (w : World) : World :=
  match typeIDs w !! T with
  | Some _ => w
  | None => with_typeIDs (<[T := lastID w]> (typeIDs w))
              (with_lastID ((lastID w + 1) mod size_t_modulus) w)
  end.

(** The world after [addComponent<T>] attached the object at [c], in the
    slot [id], to the entity [E] whose fields were [e]; [v'] is the
    object after [init]. *)
Definition attached {T} `{cls : ComponentClass T} (v' : T) (E c : addr)
    (id : ComponentID) (e : Entity) (w : World) : World :=
  let w1 := register_type type_name w in
  mkWorld (lastID w1) (typeIDs w1)
    (<[E := mkEntity (active e) (components e ++ [c])
                     (<[id := c]> (componentArray e))
                     (N.setbit (componentBitSet e) id) (groupBitSet e)]>
       (entity_heap w))
    (<[c := mkComponent T cls v' (Some E)]> (component_heap w))
    (manager w) (trace w ++ [EvInit c]).

(** The active flag of the entity at [p], if there is one. *)
Definition activity (w : World) (p : addr) : option bool :=
  active <$> entity_heap w !! p.

(** The predicate of the group pass of [refresh], read off the heap. *)
Definition stale (w : World) (i : Group) (p : addr) : bool :=
  match entity_heap w !! p with
  | Some e => negb (active e) || negb (N.testbit (groupBitSet e) i)
  | None => true
  end.

Definition dead (w : World) (p : addr) : bool :=
  match entity_heap w !! p with
  | Some e => negb (active e)
  | None => true
  end.

Definition live (w : World) (p : addr) : bool :=
  match entity_heap w !! p with Some _ => true | None => false end.

(** The group pass of [refresh] on the table of indices, for the loop
    indices [idx]: [None] when a reference to no live entity is met. *)
Fixpoint refresh_groups (w : World) (idx : list Group)
    (gs : gmap Group (list addr)) : option (gmap Group (list addr)) :=
  match idx with
  | [] => Some gs
  | i :: rest =>
      let v := default [] (gs !! i) in
      if forallb (live w) v
      then refresh_groups w rest
             (<[i := List.filter (λ p, negb (stale w i p)) v]> gs)
      else None
  end.

(** Every pointer the Manager holds refers to a live entity, and the
    owning pointers of the primary collection are pairwise distinct. *)
Record manager_ok (w : World) : Prop := {
  entities_live : ∀ p, p ∈ entities (manager w) → is_Some (entity_heap w !! p);
  entities_nodup : NoDup (entities (manager w));
  groups_live : ∀ g p, g < maxGroups → p ∈ getGroupIndex (manager w) g →
                       is_Some (entity_heap w !! p)
}.

(** [manager_ok] as a check. *)
Definition manager_okb (w : World) : bool :=
  forallb (live w) (entities (manager w))
  && bool_decide (NoDup (entities (manager w)))
  && forallb (λ g, forallb (live w) (getGroupIndex (manager w) g))
             group_range.

(** The entities and the Manager's collections are those of [w]. *)
Definition same_entities (w w' : World) : Prop :=
  manager w' = manager w ∧ entity_heap w' = entity_heap w.

(** No entity left the primary collection and no active flag was
    cleared, except perhaps that of [skip]. *)
Definition keeps (skip : option addr) (w w' : World) : Prop :=
  (∀ p, p ∈ entities (manager w) → p ∈ entities (manager w')) ∧
  (∀ p, skip ≠ Some p → activity w p = Some true →
        activity w' p = Some true).

(** The calls of [Entity::update] made by the Manager, in order. *)
Definition entity_updates (tr : list Event) : list addr :=
  omap (λ ev, match ev with EvEntityUpdate e => Some e | _ => None end) tr.


(** The components owned by the entity at [p]. *)
Definition components_of (w : World) (p : addr) : list addr :=
  match entity_heap w !! p with Some e => components e | None => [] end.






(** ** Runs of the public interface *)

Inductive Op :=
  | OpEntityUpdate (e : addr)
  | OpEntityDraw (e : addr)
  | OpIsActive (e : addr)
  | OpDestroy (e : addr)
  | OpHasGroup (e : addr) (g : Group)
  | OpAddGroup (e : addr) (g : Group)
  | OpDelGroup (e : addr) (g : Group)
  | OpHasComponent (T : string) (e : addr)
  | OpAddComponent (T : Type) (cls : ComponentClass T) (v : T) (e : addr)
  | OpGetComponent (T : string) (e : addr)
  | OpManagerUpdate
  | OpManagerDraw
  | OpRefresh
  | OpAddToGroup (e : addr) (g : Group)
  | OpGetGroup (g : Group)
  | OpAddEntity.

Definition exec {A} (c : M A) (w : World) : option World := snd <$> c w.
Definition result {A} (c : M A) (w : World) : option A := fst <$> c w.

Definition run_op (op : Op) : World → option World :=
  match op with
  | OpEntityUpdate e => exec (Entity_update e)
  | OpEntityDraw e => exec (Entity_draw e)
  | OpIsActive e => exec (isActive e)
  | OpDestroy e => exec (destroy e)
  | OpHasGroup e g => exec (hasGroup e g)
  | OpAddGroup e g => exec (addGroup e g)
  | OpDelGroup e g => exec (delGroup e g)
  | OpHasComponent T e => exec (hasComponent T e)
  | OpAddComponent T cls v e => exec (addComponent (cls := cls) v e)
  | OpGetComponent T e => exec (getComponent T e)
  | OpManagerUpdate => exec Manager_update
  | OpManagerDraw => exec Manager_draw
  | OpRefresh => exec refresh
  | OpAddToGroup e g => exec (addToGroup e g)
  | OpGetGroup g => exec (getGroup g)
  | OpAddEntity => exec addEntity
  end.

Fixpoint run_ops (ops : list Op) (w : World) : option World :=
  match ops with
  | [] => Some w
  | op :: rest => w' ← run_op op w; run_ops rest w'
  end.

(** ** Sample worlds *)

(** One fresh entity at address 0, no component. *)
Definition world_one_entity : World :=
  mkWorld 0 ∅ {[ 0 := Entity_new ]} ∅ (mkManager [0] ∅) [].

(** Three entities at addresses 0, 1 and 2.  All three joined group 3
    and entity 1 also group 5; entity 2 then left group 3 and entity 1
    was destroyed.  No compaction has run yet. *)
Definition three_entities : M unit :=
  e0 ← addEntity; e1 ← addEntity; e2 ← addEntity;
  addGroup e0 3;; addGroup e1 3;; addGroup e2 3;; addGroup e1 5;;
  delGroup e2 3;; destroy e1.

Definition world_three : World :=
  default empty_world (exec three_entities empty_world).

(** Two entities: entity 0 owns a [TransformComponent] built from
    [(5, 7)] and a plain [Component]; entity 1 owns a plain [Component]
    and was destroyed.  No compaction has run yet. *)
Definition two_entities : M unit :=
  e0 ← addEntity; e1 ← addEntity;
  addComponent
    (TransformComponent_new 32 (mkVector2D (Float32.of_int 0)
                                           (Float32.of_int 0))
       (Args_xy (Float32.of_int 5) (Float32.of_int 7))) e0;;
  addComponent (cls := Component_base) tt e0;;
  addComponent (cls := Component_base) tt e1;;
  destroy e1.

Definition world_two : World :=
  default empty_world (exec two_entities empty_world).

(** Two [TransformComponent] objects built by the same constructor from
    different arguments. *)
Definition transform_a : TransformComponent :=
  TransformComponent_new 32 (mkVector2D (Float32.of_int 0) (Float32.of_int 0))
    (Args_xy (Float32.of_int 1) (Float32.of_int 2)).

Definition transform_b : TransformComponent :=
  TransformComponent_new 32 (mkVector2D (Float32.of_int 0) (Float32.of_int 0))
    (Args_xy (Float32.of_int 3) (Float32.of_int 4)).

(** A [TransformComponent] at [(px, 0)] moving along the x axis: velocity
    [(1, 0)], speed 3, the other members as the constructors leave them
    with [TILE_SIZE] 32. *)
Definition transform_at (px : Z) : TransformComponent :=
  mkTransform (mkVector2D (Float32.of_int px) (Float32.of_int 0))
              (mkVector2D (Float32.of_int 1) (Float32.of_int 0))
              (mkVector2D (Float32.of_int 0) (Float32.of_int 0))
              32 32 (Float32.of_int 1) (Float32.of_int 3)
              (Float32.of_int 0) (Float32.of_int 0).

(** ** Further readers, used for the properties beyond the data model *)


(** [c] points to a component on whose present fields [method] is
    defined. *)
Definition can_call (method : ∀ T, ComponentClass T → T → option T)
    (w : World) (c : addr) : bool :=
  match component_heap w !! c with
  | Some (mkComponent T cls s _) =>
      match method T cls s with Some _ => true | None => false end
  | None => false
  end.











(** ** Component type identifiers over a run *)

Definition same_statics (w w' : World) : Prop :=
  lastID w' = lastID w ∧ typeIDs w' = typeIDs w.

(** One operation registers at most one new component type, under the
    next identifier. *)
Definition statics_step (w w' : World) : Prop :=
  (lastID w' = lastID w ∧ typeIDs w' = typeIDs w) ∨
  (∃ T, typeIDs w !! T = None ∧
        lastID w' = (lastID w + 1) mod size_t_modulus ∧
        typeIDs w' = <[T := lastID w]> (typeIDs w)).

(** The registered identifiers are below the counter and pairwise
    distinct, and there are as many as the counter says. *)
Record types_ok (w : World) : Prop := {
  ids_below : ∀ T id, typeIDs w !! T = Some id → id < lastID w;
  ids_inj : ∀ T1 T2 id, typeIDs w !! T1 = Some id →
                        typeIDs w !! T2 = Some id → T1 = T2;
  ids_count : N.of_nat (size (typeIDs w)) = lastID w
}.

(** [n] objects of one class attached to the same entity, one call of
    [addComponent<T>] after the other. *)
Fixpoint attach_n {T : Type} `{cls : ComponentClass T} (v : T) (E : addr)
    (n : nat) : M (list addr) :=
  match n with
  | O => mret []
  | S k => c ← addComponent v E; cs ← attach_n v E k; mret (c :: cs)
  end.

(** A short run from the empty world that uses three component types. *)
Definition three_types : list Op :=
  [OpAddEntity;
   OpAddComponent TransformComponent TransformComponent_class transform_a 0;
   OpHasComponent "SpriteComponent" 0;
   OpAddComponent unit Component_base tt 0;
   OpAddComponent TransformComponent TransformComponent_class transform_b 0].

Definition world_three_types : World :=
  default empty_world (run_ops three_types empty_world).

(** Thirty-two component types asked about, none attached. *)
Definition thirty_two_queries : list Op :=
  OpAddEntity :: map (λ n, OpHasComponent (String (Ascii.ascii_of_nat (65 + n)) EmptyString) 0) (seq 0 32).

Definition world_types_used_up : World :=
  default empty_world (run_ops thirty_two_queries empty_world).

(** ** The shape of the worlds the interface builds *)

(** The name of the class of a component object. *)
Definition class_name (o : Component) : string :=
  @type_name (dyn_type o) (dyn_class o).

(** Class and owner of the component at [c], if there is one. *)
Definition comp_info (w : World) (c : addr) : option (string * option addr) :=
  (λ o, (class_name o, entity o)) <$> component_heap w !! c.

(** [c] is a live component whose back pointer is [p] and whose class is
    registered under [id]. *)
Definition typed_at (w : World) (p c : addr) (id : ComponentID) : Prop :=
  ∃ T, comp_info w c = Some (T, Some p) ∧ typeIDs w !! T = Some id.

(** The entity [e] at [p]: it owns distinct live components that point
    back to it, each of a registered class whose bit is set; a written
    slot of the typed index holds the last owned component of the class
    with that identifier; the presence bits are the written slots; and
    the entity is in the index of every group it claims. *)
Record entity_ok (w : World) (p : addr) (e : Entity) : Prop := {
  comps_nodup : NoDup (components e);
  comps_typed : ∀ c, c ∈ components e →
    ∃ id, typed_at w p c id ∧ id < maxComponents ∧
          N.testbit (componentBitSet e) id = true;
  slots_latest : ∀ id c, componentArray e !! id = Some c →
    ∃ l1 l2, components e = l1 ++ c :: l2 ∧ typed_at w p c id ∧
             ∀ c', c' ∈ l2 → ∃ id', typed_at w p c' id' ∧ id' ≠ id;
  bits_slots : ∀ id, N.testbit (componentBitSet e) id = true ↔
                     is_Some (componentArray e !! id);
  groups_indexed : ∀ g, N.testbit (groupBitSet e) g = true →
                        g < maxGroups ∧ p ∈ getGroupIndex (manager w) g
}.

(** The worlds built through the interface. *)
Record world_ok (w : World) : Prop := {
  ok_manager : manager_ok w;
  ok_types : types_ok w;
  ok_capacity : lastID w <= maxComponents;
  ok_owned : ∀ p, is_Some (entity_heap w !! p) → p ∈ entities (manager w);
  ok_entities : ∀ p e, entity_heap w !! p = Some e → entity_ok w p e
}.

Definition same_info (w w' : World) : Prop :=
  ∀ c, comp_info w' c = comp_info w c.

(** A run that reaches the group indices through [Entity::addGroup]
    only, never through a bare [Manager::addToGroup]. *)
Definition entity_ops (ops : list Op) : bool :=
  forallb (λ op, match op with OpAddToGroup _ _ => false | _ => true end) ops.

(** Every live component is owned by the live entity it points back
    to. *)
Definition no_leak (w : World) : Prop :=
  ∀ c o, component_heap w !! c = Some o →
         ∃ p e, entity o = Some p ∧ entity_heap w !! p = Some e ∧
                c ∈ components e.

(** Two entities, the first with a [TransformComponent] and a base
    component, the second with a [TransformComponent]; both joined
    group 3 and the first also group 5; the second was then destroyed
    and the first left group 5. *)
Definition frame_ops : list Op :=
  [OpAddEntity; OpAddEntity;
   OpAddComponent TransformComponent TransformComponent_class transform_a 0;
   OpAddComponent TransformComponent TransformComponent_class transform_b 1;
   OpAddComponent unit Component_base tt 0;
   OpAddGroup 0 3; OpAddGroup 1 3; OpAddGroup 0 5;
   OpDestroy 1; OpDelGroup 0 5].

Definition world_frame : World :=
  default empty_world (run_ops frame_ops empty_world).

(** A pass, a query for a type not yet seen, a compaction and a new
    entity. *)
Definition later_ops : list Op :=
  [OpManagerUpdate; OpHasComponent "SpriteComponent" 0; OpRefresh;
   OpAddEntity].

Definition world_after_types : World :=
  default empty_world
    (run_ops later_ops
       (default world_two
          (exec (getComponentTypeID "TransformComponent") world_two))).


(** ** [TransformComponent] over several frames *)

(** [n] calls of [TransformComponent::update], one per frame. *)
Fixpoint update_frames (n : nat) (t : TransformComponent)
    : option TransformComponent :=
  match n with
  | O => Some t
  | S k => t' ← TransformComponent_update t; update_frames k t'
  end.

(** A component whose horizontal velocity is not a number. *)
Definition transform_nan : TransformComponent :=
  mkTransform (position transform_a) (mkVector2D S754_nan (Float32.of_int 0))
              (facing transform_a) (height transform_a) (width transform_a)
              (scale transform_a) (speed transform_a) (speedLo transform_a)
              (speedHi transform_a).

(** * Properties *)

Ltac mrun :=
  unfold mbind, M_bind, bind, mret, M_ret, ret, get, modify, lift, undefined,
    guard_ub; simpl.

Lemma bind_unfold {A B} (c : M A) (k : A → M B) w :
  (c ≫= k) w = match c w with Some (a, w') => k a w' | None => None end.
Proof. reflexivity. Qed.

(** ** Component type identifiers *)

Lemma getComponentTypeID_eq T w :
  getComponentTypeID T w = Some (typeID_of T w, register_type T w).
Proof.
  unfold getComponentTypeID, typeID_of, register_type,
    getNewComponentTypeID, set_typeID.
  mrun. destruct (typeIDs w !! T); reflexivity.
Qed.

Lemma register_type_lookup T w :
  typeIDs (register_type T w) !! T = Some (typeID_of T w).
Proof.
  unfold register_type, typeID_of.
  destruct (typeIDs w !! T) eqn:H; simpl; [done|]. by rewrite lookup_insert_eq.
Qed.

Lemma register_type_known T w id :
  typeIDs w !! T = Some id → register_type T w = w ∧ typeID_of T w = id.
Proof. intros H. unfold register_type, typeID_of. by rewrite H. Qed.

Ltac mstep :=
  repeat first
    [ rewrite getComponentTypeID_eq | rewrite lookup_insert_eq
    | progress simpl | progress unfold typeID_of, register_type, ret ].

(** ** Attaching and finding components *)

Lemma addComponent_eq {T} `{cls : ComponentClass T} (v : T) E w :
  addComponent v E w =
  match entity_heap w !! E with
  | None => None
  | Some e =>
      let c := fresh (dom (component_heap w)) in
      let id := typeID_of type_name w in
      if id <? maxComponents then
        match init v with
        | Some v' => Some (c, attached v' E c id e w)
        | None => None
        end
      else None
  end.
Proof.
  destruct w as [lid tids eh ch mg tr].
  unfold attached, typeID_of, register_type.
  unfold addComponent, new_component, store_component, store_entity,
    deref_entity, set_component_heap, set_entity_heap, log, virtual_call,
    deref_component.
  mrun.
  destruct (eh !! E) as [e|] eqn:HE; simpl; [|done].
  destruct (tids !! type_name) as [id|] eqn:Hid; simpl.
  - destruct (id <? maxComponents) eqn:Hlt; simpl;
      repeat first [ rewrite Hid | rewrite Hlt | progress mstep ]; [|done].
    destruct (init v) as [v'|]; simpl; [|done].
    rewrite !insert_insert_eq. reflexivity.
  - destruct (lid <? maxComponents) eqn:Hlt; simpl;
      repeat first [ rewrite Hid | rewrite Hlt | progress mstep ]; [|done].
    destruct (init v) as [v'|]; simpl; [|done].
    rewrite !insert_insert_eq. reflexivity.
Qed.

Lemma hasComponent_eq T E w :
  hasComponent T E w =
  match entity_heap w !! E with
  | None => None
  | Some e =>
      let id := typeID_of T w in
      if id <? maxComponents
      then Some (N.testbit (componentBitSet e) id, register_type T w)
      else None
  end.
Proof.
  unfold hasComponent, deref_entity. mrun.
  destruct (entity_heap w !! E) as [e|]; simpl; [|done].
  rewrite getComponentTypeID_eq. by destruct (typeID_of T w <? maxComponents).
Qed.

Lemma getComponent_eq T E w :
  getComponent T E w =
  match entity_heap w !! E with
  | None => None
  | Some e =>
      let id := typeID_of T w in
      if id <? maxComponents
      then (λ c, (c, register_type T w)) <$> componentArray e !! id
      else None
  end.
Proof.
  unfold getComponent, deref_entity. mrun.
  destruct (entity_heap w !! E) as [e|]; simpl; [|done].
  rewrite getComponentTypeID_eq.
  destruct (typeID_of T w <? maxComponents); simpl; [|done].
  by destruct (componentArray e !! typeID_of T w).
Qed.

Lemma attached_typeID {T} `{cls : ComponentClass T} (v' : T) E c id e w :
  typeIDs (attached v' E c id e w) !! type_name
  = Some (typeID_of type_name w).
Proof. unfold attached. simpl. apply register_type_lookup. Qed.

Lemma fresh_component_unused w :
  component_heap w !! fresh (dom (component_heap w)) = None.
Proof. apply not_elem_of_dom, is_fresh. Qed.


Lemma addComponent_returns {T} `{cls : ComponentClass T} (v v' : T) E e w :
  entity_heap w !! E = Some e →
  typeID_of type_name w < maxComponents →
  init v = Some v' →
  addComponent v E w
  = Some (fresh (dom (component_heap w)),
          attached v' E (fresh (dom (component_heap w)))
                   (typeID_of type_name w) e w).
Proof.
  intros HE Hid Hinit. apply N.ltb_lt in Hid.
  rewrite addComponent_eq, HE. simpl. by rewrite Hid, Hinit.
Qed.

Lemma attached_known {T} `{cls : ComponentClass T} (v' : T) E c e w :
  let w' := attached v' E c (typeID_of type_name w) e w in
  register_type type_name w' = w' ∧
  typeID_of type_name w' = typeID_of type_name w.
Proof. intros w'. apply register_type_known, attached_typeID. Qed.

Lemma attached_getComponent {T} `{cls : ComponentClass T} (v' : T) E c e w :
  typeID_of type_name w < maxComponents →
  let w' := attached v' E c (typeID_of type_name w) e w in
  getComponent type_name E w' = Some (c, w').
Proof.
  intros Hid w'. apply N.ltb_lt in Hid.
  destruct (attached_known v' E c e w) as [Hreg Hsame].
  rewrite getComponent_eq. fold w' in Hreg, Hsame. rewrite Hreg, Hsame.
  unfold w', attached at 1. simpl.
  rewrite lookup_insert_eq. simpl. by rewrite Hid, lookup_insert_eq.
Qed.

Lemma attached_hasComponent {T} `{cls : ComponentClass T} (v' : T) E c e w :
  typeID_of type_name w < maxComponents →
  let w' := attached v' E c (typeID_of type_name w) e w in
  hasComponent type_name E w' = Some (true, w').
Proof.
  intros Hid w'. apply N.ltb_lt in Hid.
  destruct (attached_known v' E c e w) as [Hreg Hsame].
  rewrite hasComponent_eq. fold w' in Hreg, Hsame. rewrite Hreg, Hsame.
  unfold w', attached at 1. simpl.
  rewrite lookup_insert_eq. simpl. by rewrite Hid, N.setbit_eq.
Qed.

(** C1. After [E.addComponent<T>(args)] returns, [E.hasComponent<T>()] is
    true and [E.getComponent<T>()] returns the address [c] of the object
    that this call allocated, linked to [E], initialised and appended to
    the components [E] owns.  The call returns whenever [E] is a live
    entity, the identifier of [T] is below [maxComponents] and [T]'s
    [init] returns. *)
Theorem addComponent_has_get {T} `{cls : ComponentClass T} (v v' : T)
    (E : addr) (e : Entity) (w : World) :
  entity_heap w !! E = Some e →
  typeID_of type_name w < maxComponents →
  init v = Some v' →
  ∃ c w',
    addComponent v E w = Some (c, w') ∧
    hasComponent type_name E w' = Some (true, w') ∧
    getComponent type_name E w' = Some (c, w') ∧
    component_heap w !! c = None ∧
    component_heap w' !! c = Some (mkComponent T cls v' (Some E)) ∧
    ∃ e', entity_heap w' !! E = Some e' ∧
          components e' = components e ++ [c].
Proof.
  intros HE Hid Hinit.
  eexists _, _. split; [by apply addComponent_returns|].
  split; [by apply attached_hasComponent|].
  split; [by apply attached_getComponent|].
  split; [apply fresh_component_unused|].
  unfold attached; simpl. rewrite !lookup_insert_eq. eauto.
Qed.

Lemma addComponent_has_get_witness :
  ∃ c w',
    addComponent (cls := Component_base) tt 0 world_one_entity
      = Some (c, w') ∧
    hasComponent "Component" 0 w' = Some (true, w') ∧
    getComponent "Component" 0 w' = Some (c, w') ∧
    component_heap world_one_entity !! c = None ∧
    component_heap w' !! c
      = Some (mkComponent unit Component_base tt (Some 0)) ∧
    ∃ e', entity_heap w' !! 0 = Some e' ∧
          components e' = components Entity_new ++ [c].
Proof.
  apply (addComponent_has_get (cls := Component_base) tt tt 0 Entity_new
           world_one_entity); reflexivity.
Defined.

(** C3. A second [addComponent<T>] on the same entity, with other
    constructor arguments, allocates a second object: both objects stay
    in the owned collection, in attachment order, each with its own
    state, and [getComponent<T>()] returns the second one.  No slot of
    the typed index written by the two calls refers to the first. *)
Theorem addComponent_twice {T} `{cls : ComponentClass T} (v1 v1' v2 v2' : T)
    (E : addr) (e : Entity) (w : World) :
  entity_heap w !! E = Some e →
  typeID_of type_name w < maxComponents →
  init v1 = Some v1' →
  init v2 = Some v2' →
  ∃ c1 w1 c2 w2 e2,
    addComponent v1 E w = Some (c1, w1) ∧
    addComponent v2 E w1 = Some (c2, w2) ∧
    c1 ≠ c2 ∧
    component_heap w2 !! c1 = Some (mkComponent T cls v1' (Some E)) ∧
    component_heap w2 !! c2 = Some (mkComponent T cls v2' (Some E)) ∧
    entity_heap w2 !! E = Some e2 ∧
    components e2 = components e ++ [c1; c2] ∧
    getComponent type_name E w2 = Some (c2, w2) ∧
    ∀ id, componentArray e2 !! id = Some c1 →
          componentArray e !! id = Some c1.
Proof.
  intros HE Hid Hinit1 Hinit2.
  set (id := typeID_of type_name w) in *.
  set (c1 := fresh (dom (component_heap w))).
  set (w1 := attached v1' E c1 id e w).
  destruct (attached_known v1' E c1 e w) as [_ Hsame]. fold id w1 in Hsame.
  assert (HE1 : ∃ e1, entity_heap w1 !! E = Some e1 ∧
                      components e1 = components e ++ [c1] ∧
                      componentArray e1 = <[id := c1]> (componentArray e)).
  { eexists. unfold w1, attached. simpl. rewrite lookup_insert_eq. done. }
  destruct HE1 as (e1 & HE1 & Hcs1 & Harr1).
  set (c2 := fresh (dom (component_heap w1))).
  assert (Hc12 : c1 ≠ c2).
  { intros Heq. pose proof (fresh_component_unused w1) as Hf.
    fold c2 in Hf. rewrite <- Heq in Hf. unfold w1, attached in Hf.
    simpl in Hf. by rewrite lookup_insert_eq in Hf. }
  exists c1, w1, c2, (attached v2' E c2 (typeID_of type_name w1) e1 w1).
  eexists.
  split; [by apply addComponent_returns|].
  split; [apply addComponent_returns; [done| by rewrite Hsame |done]|].
  split; [done|].
  split.
  { unfold attached; simpl. rewrite lookup_insert_ne by done.
    by rewrite lookup_insert_eq. }
  split; [unfold attached; simpl; by rewrite lookup_insert_eq|].
  split; [unfold attached at 1; simpl; by rewrite lookup_insert_eq|].
  simpl. split; [by rewrite Hcs1, <- app_assoc|].
  split; [apply attached_getComponent; by rewrite Hsame|].
  intros j Hj. rewrite Hsame, Harr1 in Hj.
  destruct (decide (j = id)) as [->|Hne].
  - rewrite lookup_insert_eq in Hj. congruence.
  - by rewrite !lookup_insert_ne in Hj.
Qed.

Lemma addComponent_twice_witness :
  ∃ c1 w1 c2 w2 e2,
    addComponent transform_a 0 world_one_entity = Some (c1, w1) ∧
    addComponent transform_b 0 w1 = Some (c2, w2) ∧
    c1 ≠ c2 ∧
    component_heap w2 !! c1
      = Some (mkComponent TransformComponent TransformComponent_class
                          (TransformComponent_init transform_a) (Some 0)) ∧
    component_heap w2 !! c2
      = Some (mkComponent TransformComponent TransformComponent_class
                          (TransformComponent_init transform_b) (Some 0)) ∧
    entity_heap w2 !! 0 = Some e2 ∧
    components e2 = components Entity_new ++ [c1; c2] ∧
    getComponent "TransformComponent" 0 w2 = Some (c2, w2) ∧
    ∀ id, componentArray e2 !! id = Some c1 →
          componentArray Entity_new !! id = Some c1.
Proof.
  apply (addComponent_twice (cls := TransformComponent_class)
           transform_a (TransformComponent_init transform_a)
           transform_b (TransformComponent_init transform_b) 0 Entity_new
           world_one_entity); reflexivity.
Defined.

(** ** Group indices *)

Lemma getGroupIndex_insert en gs i v :
  getGroupIndex (mkManager en (<[i := v]> gs)) i = v.
Proof. unfold getGroupIndex. simpl. by rewrite lookup_insert_eq. Qed.

Lemma getGroupIndex_insert_ne en gs i j v :
  i ≠ j →
  getGroupIndex (mkManager en (<[i := v]> gs)) j
  = getGroupIndex (mkManager en gs) j.
Proof.
  intros Hne. unfold getGroupIndex. simpl. by rewrite lookup_insert_ne.
Qed.

Lemma addToGroup_eq E g w :
  g < maxGroups →
  addToGroup E g w
  = Some (tt, with_manager
                (mkManager (entities (manager w))
                   (<[g := getGroupIndex (manager w) g ++ [E]]>
                      (groupedEntities (manager w)))) w).
Proof.
  intros Hg. apply N.ltb_lt in Hg.
  unfold addToGroup, set_group, set_manager. mrun. by rewrite Hg.
Qed.

Lemma getGroup_eq g w :
  g < maxGroups → getGroup g w = Some (getGroupIndex (manager w) g, w).
Proof.
  intros Hg. apply N.ltb_lt in Hg. unfold getGroup. mrun. by rewrite Hg.
Qed.

(** C5. [addToGroup] appends without looking for an earlier reference:
    each call makes the index of group [g] one longer, and two calls for
    the same entity leave two more references to it at the end of the
    index. *)
Theorem addToGroup_no_dedup (E : addr) (g : Group) (w : World) :
  g < maxGroups →
  ∃ w1 w2 l,
    getGroup g w = Some (l, w) ∧
    addToGroup E g w = Some (tt, w1) ∧
    addToGroup E g w1 = Some (tt, w2) ∧
    getGroup g w1 = Some (l ++ [E], w1) ∧
    getGroup g w2 = Some (l ++ [E; E], w2) ∧
    length (getGroupIndex (manager w1) g) = S (length l) ∧
    length (getGroupIndex (manager w2) g) = S (S (length l)) ∧
    count_occ N.eq_dec (getGroupIndex (manager w2) g) E
    = S (S (count_occ N.eq_dec l E)).
Proof.
  intros Hg. eexists _, _, _.
  split; [by apply getGroup_eq|].
  split; [by apply addToGroup_eq|].
  split; [by apply addToGroup_eq|].
  rewrite !getGroup_eq by done. simpl.
  rewrite !getGroupIndex_insert. rewrite <- app_assoc. simpl.
  repeat split.
  - rewrite length_app. simpl. lia.
  - rewrite length_app. simpl. lia.
  - rewrite count_occ_app. simpl. destruct (N.eq_dec E E); [lia|done].
Qed.

Lemma addToGroup_no_dedup_witness :
  ∃ w1 w2 l,
    getGroup 3 world_one_entity = Some (l, world_one_entity) ∧
    addToGroup 0 3 world_one_entity = Some (tt, w1) ∧
    addToGroup 0 3 w1 = Some (tt, w2) ∧
    getGroup 3 w1 = Some (l ++ [0], w1) ∧
    getGroup 3 w2 = Some (l ++ [0; 0], w2) ∧
    length (getGroupIndex (manager w1) 3) = S (length l) ∧
    length (getGroupIndex (manager w2) 3) = S (S (length l)) ∧
    count_occ N.eq_dec (getGroupIndex (manager w2) 3) 0
    = S (S (count_occ N.eq_dec l 0)).
Proof.
  apply (addToGroup_no_dedup 0 3 world_one_entity). reflexivity.
Defined.

(** ** Compaction *)

Lemma isActive_eq p w :
  isActive p w = (λ e, (active e, w)) <$> entity_heap w !! p.
Proof.
  unfold isActive, deref_entity. mrun. by destruct (entity_heap w !! p).
Qed.

Lemma hasGroup_eq p g w :
  hasGroup p g w =
  match entity_heap w !! p with
  | Some e => if g <? maxGroups
              then Some (N.testbit (groupBitSet e) g, w) else None
  | None => None
  end.
Proof.
  unfold hasGroup, deref_entity. mrun.
  destruct (entity_heap w !! p); simpl; [|done].
  by destruct (g <? maxGroups).
Qed.

Lemma stale_in_group_eq i p w :
  i < maxGroups →
  stale_in_group i p w = if live w p then Some (stale w i p, w) else None.
Proof.
  intros Hi. apply N.ltb_lt in Hi.
  unfold stale_in_group, live, stale. unfold mbind, M_bind, bind.
  rewrite isActive_eq.
  destruct (entity_heap w !! p) as [e|] eqn:He; simpl; [|done].
  destruct (active e); simpl; [|done].
  rewrite hasGroup_eq, He, Hi. done.
Qed.

Lemma dead_pred_eq p w :
  (a ← isActive p; mret (negb a)) w
  = if live w p then Some (dead w p, w) else None.
Proof.
  unfold live, dead. unfold mbind, M_bind, bind. rewrite isActive_eq.
  by destruct (entity_heap w !! p).
Qed.

(** [erase_remove_if] with a predicate that only reads the world is a
    stable partition. *)
Lemma erase_remove_if_reader {A} (pred : A → M bool) (ok f : A → bool)
    (w : World) (v : list A) :
  (∀ x, pred x w = if ok x then Some (f x, w) else None) →
  erase_remove_if pred v w
  = if forallb ok v
    then Some ((List.filter (λ x, negb (f x)) v, List.filter f v), w)
    else None.
Proof.
  intros Hpred. induction v as [|x r IH]; simpl; [done|].
  unfold mbind, M_bind, bind in *. rewrite Hpred.
  destruct (ok x); simpl; [|done].
  rewrite IH. destruct (forallb ok r); simpl; [|done].
  by destruct (f x).
Qed.

Lemma refresh_group_eq i w :
  i < maxGroups →
  refresh_group i w
  = let v := getGroupIndex (manager w) i in
    if forallb (live w) v
    then Some (tt, with_manager
                     (mkManager (entities (manager w))
                        (<[i := List.filter (λ p, negb (stale w i p)) v]>
                           (groupedEntities (manager w)))) w)
    else None.
Proof.
  intros Hi. unfold refresh_group, set_group, set_manager.
  unfold mbind, M_bind, bind, get, modify. simpl.
  rewrite (erase_remove_if_reader _ (live w) (stale w i))
    by (intros; by apply stale_in_group_eq).
  by destruct (forallb (live w) (getGroupIndex (manager w) i)).
Qed.

Lemma refresh_groups_heap w1 w2 idx : ∀ gs,
  entity_heap w1 = entity_heap w2 →
  refresh_groups w1 idx gs = refresh_groups w2 idx gs.
Proof.
  intros gs Hh. revert gs.
  induction idx as [|i rest IH]; intros gs; simpl; [done|].
  unfold live, stale. rewrite Hh.
  destruct (forallb _ _); [|done]. apply IH.
Qed.

Lemma refresh_groups_loop idx : ∀ w,
  Forall (λ i, i < maxGroups) idx →
  for_each refresh_group idx w
  = (λ gs, (tt, with_manager (mkManager (entities (manager w)) gs) w))
    <$> refresh_groups w idx (groupedEntities (manager w)).
Proof.
  induction idx as [|i rest IH]; intros w His.
  - simpl. unfold ret. destruct w as [? ? ? ? [? ?] ?]. done.
  - inversion His as [|? ? Hi Hrest]; subst. simpl.
    unfold mbind, M_bind, bind. rewrite refresh_group_eq by done. simpl.
    fold (getGroupIndex (manager w) i).
    destruct (forallb (live w) (getGroupIndex (manager w) i)); [|done].
    rewrite IH by done. simpl.
    rewrite (refresh_groups_heap _ w) by done.
    by destruct (refresh_groups _ _ _).
Qed.

Lemma group_range_elem i : i ∈ group_range ↔ i < maxGroups.
Proof.
  unfold group_range, maxGroups. rewrite list_elem_of_fmap. split.
  - intros (n & -> & Hn). apply elem_of_seq in Hn. simpl in Hn. lia.
  - intros Hi. exists (N.to_nat i). split; [by rewrite N2Nat.id|].
    apply elem_of_seq. simpl. lia.
Qed.

Lemma group_range_NoDup : NoDup group_range.
Proof.
  unfold group_range. apply NoDup_fmap_2; [|apply NoDup_seq].
  intros a b Hab. by apply Nat2N.inj.
Qed.

Lemma group_range_bounded : Forall (λ i, i < maxGroups) group_range.
Proof. apply Forall_forall. intros i. apply group_range_elem. Qed.

Lemma refresh_groups_lookup w idx : ∀ gs gs',
  NoDup idx →
  refresh_groups w idx gs = Some gs' →
  ∀ j, default [] (gs' !! j)
       = if decide (j ∈ idx)
         then List.filter (λ p, negb (stale w j p)) (default [] (gs !! j))
         else default [] (gs !! j).
Proof.
  induction idx as [|i rest IH]; intros gs gs' Hnd Hrun j; simpl in Hrun.
  - injection Hrun as <-. rewrite decide_False; [done|]. by intros ?%elem_of_nil.
  - apply NoDup_cons in Hnd as [Hi Hnd].
    destruct (forallb _ _); [|done].
    rewrite (IH _ _ Hnd Hrun j).
    destruct (decide (j = i)) as [->|Hne].
    + rewrite (decide_False (P := i ∈ rest)) by done.
      rewrite (decide_True (P := i ∈ i :: rest)) by apply list_elem_of_here.
      by rewrite lookup_insert_eq.
    + rewrite lookup_insert_ne by done.
      destruct (decide (j ∈ rest)) as [Hin|Hnin].
      * rewrite decide_True; [done|]. by apply list_elem_of_further.
      * rewrite decide_False; [done|].
        intros [?|?]%elem_of_cons; done.
Qed.

Lemma forallb_live w (v : list addr) :
  forallb (live w) v = true ↔ ∀ p, p ∈ v → is_Some (entity_heap w !! p).
Proof.
  rewrite forallb_forall. unfold live. split; intros H p Hp.
  - apply list_elem_of_In, H in Hp.
    destruct (entity_heap w !! p); [eauto|done].
  - apply list_elem_of_In, H in Hp. by destruct Hp as [? ->].
Qed.

Lemma refresh_groups_total w idx : ∀ gs,
  NoDup idx →
  (∀ i p, i ∈ idx → p ∈ default [] (gs !! i) →
          is_Some (entity_heap w !! p)) →
  is_Some (refresh_groups w idx gs).
Proof.
  induction idx as [|i rest IH]; intros gs Hnd Hlive; simpl; [eauto|].
  apply NoDup_cons in Hnd as [Hi Hnd].
  assert (Hall : forallb (live w) (default [] (gs !! i)) = true).
  { apply forallb_live. intros p Hp. apply (Hlive i); [|done].
    apply list_elem_of_here. }
  rewrite Hall. apply IH; [done|].
  intros j p Hj Hp. apply (Hlive j); [by apply list_elem_of_further|].
  rewrite lookup_insert_ne in Hp; [done|]. by intros ->.
Qed.

Lemma delete_entity_eq p w :
  delete_entity p w =
  match entity_heap w !! p with
  | Some e =>
      Some (tt, with_entity_heap (delete p (entity_heap w))
                  (with_component_heap
                     (foldr (λ c h, delete c h) (component_heap w)
                            (components e)) w))
  | None => None
  end.
Proof.
  unfold delete_entity, deref_entity, set_component_heap, set_entity_heap.
  mrun. by destruct (entity_heap w !! p).
Qed.

Lemma delete_entities_frame ds : ∀ w w',
  for_each delete_entity ds w = Some (tt, w') →
  manager w' = manager w ∧ trace w' = trace w ∧
  ∀ p, p ∉ ds → entity_heap w' !! p = entity_heap w !! p.
Proof.
  induction ds as [|d r IH]; intros w w' Hrun; simpl in Hrun.
  - injection Hrun as <-. done.
  - unfold mbind, M_bind, bind in Hrun. rewrite delete_entity_eq in Hrun.
    destruct (entity_heap w !! d) as [e|] eqn:Hd; [|done].
    apply IH in Hrun as (Hm & Ht & Hh). simpl in *.
    split; [done|]. split; [done|].
    intros p Hp. apply not_elem_of_cons in Hp as [Hpd Hpr].
    rewrite Hh by done. by rewrite lookup_delete_ne.
Qed.

Lemma delete_entities_total ds : ∀ w,
  NoDup ds →
  (∀ p, p ∈ ds → is_Some (entity_heap w !! p)) →
  ∃ w', for_each delete_entity ds w = Some (tt, w') ∧
        ∀ p, p ∈ ds → entity_heap w' !! p = None.
Proof.
  induction ds as [|d r IH]; intros w Hnd Hlive; simpl.
  - eexists. split; [done|]. by intros p ?%elem_of_nil.
  - apply NoDup_cons in Hnd as [Hd Hnd].
    unfold mbind, M_bind, bind. rewrite delete_entity_eq.
    destruct (Hlive d) as [e He]; [apply list_elem_of_here|]. rewrite He.
    edestruct (IH (with_entity_heap (delete d (entity_heap w))
                     (with_component_heap
                        (foldr (λ c h, delete c h) (component_heap w)
                               (components e)) w)))
      as (w' & Hrun & Hgone); [done| |].
    { intros p Hp. simpl. rewrite lookup_delete_ne; [|by intros ->].
      apply Hlive. by apply list_elem_of_further. }
    exists w'. split; [done|].
    intros p [->|Hp]%elem_of_cons; [|by apply Hgone].
    apply delete_entities_frame in Hrun as (_ & _ & Hh).
    rewrite Hh by done. simpl. by rewrite lookup_delete_eq.
Qed.

(** [refresh], pass by pass. *)
Lemma refresh_unfold w :
  refresh w =
  match refresh_groups w group_range (groupedEntities (manager w)) with
  | Some gs =>
      let ents := entities (manager w) in
      if forallb (live w) ents
      then for_each delete_entity (List.filter (dead w) ents)
             (with_manager
                (mkManager (List.filter (λ p, negb (dead w p)) ents) gs) w)
      else None
  | None => None
  end.
Proof.
  unfold refresh. rewrite bind_unfold.
  rewrite refresh_groups_loop by apply group_range_bounded.
  destruct (refresh_groups _ _ _) as [gs|]; simpl; [|done].
  rewrite bind_unfold. unfold get at 1. rewrite bind_unfold. simpl.
  rewrite (erase_remove_if_reader _ (live w) (dead w)).
  2:{ intros p. rewrite dead_pred_eq. done. }
  destruct (forallb (live w) (entities (manager w))); simpl; [|done].
  rewrite bind_unfold. unfold set_entities, set_manager. mrun. done.
Qed.

Lemma filter_elem_of {A} (f : A → bool) (l : list A) (a : A) :
  a ∈ List.filter f l ↔ a ∈ l ∧ f a = true.
Proof. rewrite !list_elem_of_In. apply filter_In. Qed.

Lemma filter_NoDup {A} (f : A → bool) (l : list A) :
  NoDup l → NoDup (List.filter f l).
Proof.
  induction 1 as [|a l Ha Hl IH]; simpl; [constructor|].
  destruct (f a); [|done]. constructor; [|done].
  rewrite filter_elem_of. tauto.
Qed.

Lemma manager_okb_ok w : manager_okb w = true → manager_ok w.
Proof.
  unfold manager_okb. rewrite !andb_true_iff.
  intros [[Hents Hnd] Hgroups]. split.
  - by apply forallb_live.
  - by apply bool_decide_eq_true in Hnd.
  - intros g p Hg Hp. rewrite forallb_forall in Hgroups.
    apply group_range_elem, list_elem_of_In, Hgroups in Hg.
    by apply (forallb_live w (getGroupIndex (manager w) g)).
Qed.

Lemma refresh_spec w :
  manager_ok w →
  ∃ w',
    refresh w = Some (tt, w') ∧
    entities (manager w')
    = List.filter (λ p, negb (dead w p)) (entities (manager w)) ∧
    (∀ g, g < maxGroups →
          getGroupIndex (manager w') g
          = List.filter (λ p, negb (stale w g p))
                        (getGroupIndex (manager w) g)) ∧
    (∀ p, p ∈ entities (manager w) → dead w p = true →
          entity_heap w' !! p = None) ∧
    (∀ p, ¬ (p ∈ entities (manager w) ∧ dead w p = true) →
          entity_heap w' !! p = entity_heap w !! p) ∧
    trace w' = trace w.
Proof.
  intros [Hlive Hnd Hgroups].
  rewrite refresh_unfold.
  destruct (refresh_groups_total w group_range (groupedEntities (manager w))
              group_range_NoDup) as [gs Hgs].
  { intros i p Hi Hp. apply (Hgroups i); [by apply group_range_elem|done]. }
  rewrite Hgs. simpl.
  assert (Hall : forallb (live w) (entities (manager w)) = true)
    by by apply forallb_live.
  rewrite Hall.
  set (w1 := with_manager _ w).
  destruct (delete_entities_total
              (List.filter (dead w) (entities (manager w))) w1)
    as (w' & Hrun & Hgone).
  { by apply filter_NoDup. }
  { intros p [Hp _]%filter_elem_of. by apply Hlive. }
  exists w'. split; [done|].
  destruct (delete_entities_frame _ _ _ Hrun) as (Hm & Ht & Hh).
  rewrite Hm. simpl.
  split; [done|]. split.
  { intros g Hg. unfold getGroupIndex at 1. simpl.
    rewrite (refresh_groups_lookup _ _ _ _ group_range_NoDup Hgs g).
    rewrite decide_True by by apply group_range_elem. done. }
  split.
  { intros p Hp Hdead. apply Hgone. by apply filter_elem_of. }
  split; [|done].
  intros p Hp. rewrite Hh; [done|].
  rewrite filter_elem_of. done.
Qed.

Lemma stale_queries w g p e :
  g < maxGroups →
  entity_heap w !! p = Some e →
  isActive p w = Some (active e, w) ∧
  hasGroup p g w = Some (N.testbit (groupBitSet e) g, w) ∧
  stale w g p = negb (active e) || negb (N.testbit (groupBitSet e) g).
Proof.
  intros Hg%N.ltb_lt He.
  rewrite isActive_eq, hasGroup_eq. unfold stale. rewrite He, Hg. done.
Qed.

(** C7. The group pass of [refresh] is a filter: in every group [g] the
    references kept are those whose entity is active and still has [g] in
    its membership set, in their earlier order; the references removed
    are those for which [isActive()] or [hasGroup(g)] is false. *)
Theorem refresh_group_pass_is_filter (w : World) :
  manager_ok w →
  ∃ w',
    refresh w = Some (tt, w') ∧
    ∀ g, g < maxGroups →
      getGroup g w'
      = Some (List.filter (λ p, negb (stale w g p))
                          (getGroupIndex (manager w) g), w') ∧
      ∀ p, p ∈ getGroupIndex (manager w) g →
        ∃ a m, isActive p w = Some (a, w) ∧ hasGroup p g w = Some (m, w) ∧
               stale w g p = negb a || negb m.
Proof.
  intros Hok. destruct (refresh_spec w Hok) as (w' & Hrun & _ & Hg & _).
  exists w'. split; [done|]. intros g Hlt.
  split; [rewrite getGroup_eq by done; by rewrite Hg|].
  intros p Hp. destruct (groups_live w Hok g p Hlt Hp) as [e He].
  destruct (stale_queries w g p e Hlt He) as (? & ? & ?). eauto.
Qed.

Lemma refresh_group_pass_is_filter_witness :
  ∃ w',
    refresh world_three = Some (tt, w') ∧
    ∀ g, g < maxGroups →
      getGroup g w'
      = Some (List.filter (λ p, negb (stale world_three g p))
                          (getGroupIndex (manager world_three) g), w') ∧
      ∀ p, p ∈ getGroupIndex (manager world_three) g →
        ∃ a m, isActive p world_three = Some (a, world_three) ∧
               hasGroup p g world_three = Some (m, world_three) ∧
               stale world_three g p = negb a || negb m.
Proof.
  apply (refresh_group_pass_is_filter world_three).
  apply manager_okb_ok. vm_compute. reflexivity.
Defined.

(** ** Destroying and joining groups *)

Lemma destroy_eq E w :
  destroy E w =
  match entity_heap w !! E with
  | Some e =>
      Some (tt, with_entity_heap
                  (<[E := mkEntity false (components e) (componentArray e)
                                   (componentBitSet e) (groupBitSet e)]>
                     (entity_heap w)) w)
  | None => None
  end.
Proof.
  unfold destroy, deref_entity, store_entity, set_entity_heap. mrun.
  by destruct (entity_heap w !! E).
Qed.

Lemma delGroup_eq E g w :
  delGroup E g w =
  match entity_heap w !! E with
  | Some e =>
      if g <? maxGroups then
        Some (tt, with_entity_heap
                    (<[E := mkEntity (active e) (components e)
                                     (componentArray e) (componentBitSet e)
                                     (N.clearbit (groupBitSet e) g)]>
                       (entity_heap w)) w)
      else None
  | None => None
  end.
Proof.
  unfold delGroup, deref_entity, store_entity, set_entity_heap. mrun.
  destruct (entity_heap w !! E); simpl; [|done].
  by destruct (g <? maxGroups).
Qed.

Lemma addGroup_eq E g w :
  addGroup E g w =
  match entity_heap w !! E with
  | Some e =>
      if g <? maxGroups then
        Some (tt, with_manager
                    (mkManager (entities (manager w))
                       (<[g := getGroupIndex (manager w) g ++ [E]]>
                          (groupedEntities (manager w))))
                    (with_entity_heap
                       (<[E := mkEntity (active e) (components e)
                                        (componentArray e)
                                        (componentBitSet e)
                                        (N.setbit (groupBitSet e) g)]>
                          (entity_heap w)) w))
      else None
  | None => None
  end.
Proof.
  unfold addGroup, deref_entity, store_entity, set_entity_heap, addToGroup,
    set_group, set_manager.
  mrun.
  destruct (entity_heap w !! E); simpl; [|done].
  by destruct (g <? maxGroups).
Qed.

Lemma manager_ok_store w E e' :
  is_Some (entity_heap w !! E) →
  manager_ok w →
  manager_ok (with_entity_heap (<[E := e']> (entity_heap w)) w).
Proof.
  intros HE [Hlive Hnd Hgroups]. split; simpl; [|done|].
  - intros p Hp. rewrite lookup_insert.
    destruct (decide (E = p)); [eauto|by apply Hlive].
  - intros g p Hg Hp. rewrite lookup_insert.
    destruct (decide (E = p)); [eauto|by apply (Hgroups g)].
Qed.

Lemma refresh_removes_inactive w E :
  manager_ok w →
  activity w E = Some false →
  ∃ w',
    refresh w = Some (tt, w') ∧
    (E ∉ entities (manager w')) ∧
    (∀ g, g < maxGroups →
          ∃ l, getGroup g w' = Some (l, w') ∧ E ∉ l) ∧
    (E ∈ entities (manager w) → entity_heap w' !! E = None).
Proof.
  intros Hok Hact. unfold activity in Hact.
  destruct (entity_heap w !! E) as [e|] eqn:HE; [|done].
  injection Hact as Hact.
  destruct (refresh_spec w Hok) as (w' & Hrun & Hents & Hgs & Hgone & _).
  exists w'. split; [done|].
  split; [|split].
  - rewrite Hents, filter_elem_of. unfold dead. rewrite HE, Hact.
    simpl. intros [_ ?]. done.
  - intros g Hg. eexists. split; [by apply getGroup_eq|].
    rewrite Hgs, filter_elem_of by done. unfold stale. rewrite HE, Hact.
    simpl. intros [_ ?]. done.
  - intros Hin. apply Hgone; [done|]. unfold dead. by rewrite HE, Hact.
Qed.

(** C2. [destroy()] clears the active flag of [E]; whenever [refresh()]
    then runs in a world where that flag is still false, it returns, and
    afterwards [E] is in none of the [maxGroups] group indices and not in
    the primary collection, where its storage is released. *)
Theorem destroy_then_refresh_removes (w : World) (E : addr) :
  manager_ok w →
  is_Some (entity_heap w !! E) →
  ∃ w1,
    destroy E w = Some (tt, w1) ∧
    manager_ok w1 ∧
    isActive E w1 = Some (false, w1) ∧
    ∀ w1', manager_ok w1' → isActive E w1' = Some (false, w1') →
      ∃ w2,
        refresh w1' = Some (tt, w2) ∧
        (E ∉ entities (manager w2)) ∧
        (∀ g, g < maxGroups →
              ∃ l, getGroup g w2 = Some (l, w2) ∧ E ∉ l) ∧
        (E ∈ entities (manager w1') → entity_heap w2 !! E = None).
Proof.
  intros Hok [e HE]. rewrite destroy_eq, HE.
  eexists. split; [done|].
  split; [by apply manager_ok_store|].
  split; [rewrite isActive_eq; simpl; by rewrite lookup_insert_eq|].
  intros w1' Hok' Hflag. apply refresh_removes_inactive; [done|].
  rewrite isActive_eq in Hflag. unfold activity.
  destruct (entity_heap w1' !! E); simpl in *; congruence.
Qed.

Lemma destroy_then_refresh_removes_witness :
  ∃ w1,
    destroy 0 world_three = Some (tt, w1) ∧
    manager_ok w1 ∧
    isActive 0 w1 = Some (false, w1) ∧
    ∀ w1', manager_ok w1' → isActive 0 w1' = Some (false, w1') →
      ∃ w2,
        refresh w1' = Some (tt, w2) ∧
        (0 ∉ entities (manager w2)) ∧
        (∀ g, g < maxGroups →
              ∃ l, getGroup g w2 = Some (l, w2) ∧ 0 ∉ l) ∧
        (0 ∈ entities (manager w1') → entity_heap w2 !! 0 = None).
Proof.
  apply (destroy_then_refresh_removes world_three 0).
  - apply manager_okb_ok. vm_compute. reflexivity.
  - vm_compute. eauto.
Defined.

(** C4. For an active entity [E] that the index of group [g] does not
    refer to yet, one [E.addGroup(g)] followed by [refresh()] leaves
    exactly one reference to [E] in [getGroup(g)]. *)
Theorem addGroup_refresh_once (w : World) (E : addr) (e : Entity)
    (g : Group) :
  manager_ok w →
  entity_heap w !! E = Some e →
  active e = true →
  g < maxGroups →
  E ∉ getGroupIndex (manager w) g →
  ∃ w1 w2 l,
    addGroup E g w = Some (tt, w1) ∧
    refresh w1 = Some (tt, w2) ∧
    getGroup g w2 = Some (l, w2) ∧
    count_occ N.eq_dec l E = 1%nat.
Proof.
  intros Hok HE Hact Hg Hnin.
  rewrite addGroup_eq, HE. apply N.ltb_lt in Hg as Hgb. rewrite Hgb.
  set (e1 := mkEntity _ _ _ _ _).
  set (w1 := with_manager _ _).
  assert (Hok1 : manager_ok w1).
  { destruct (manager_ok_store w E e1 (mk_is_Some _ _ HE) Hok)
      as [Hlive Hnd Hgroups].
    split; simpl; [done|done|].
    intros g' p Hg' Hp. unfold w1 in Hp. simpl in Hp.
    destruct (decide (g = g')) as [<-|Hne].
    - rewrite getGroupIndex_insert in Hp.
      apply elem_of_app in Hp as [Hp|Hp]; [by apply (Hgroups g)|].
      apply list_elem_of_singleton in Hp as ->. rewrite lookup_insert_eq.
      eauto.
    - rewrite getGroupIndex_insert_ne in Hp by done.
      apply (Hgroups g'); [done|]. simpl.
      unfold getGroupIndex in *. simpl in *. done. }
  destruct (refresh_spec w1 Hok1) as (w2 & Hrun & _ & Hgs & _).
  exists w1, w2. eexists. split; [done|]. split; [done|].
  split; [by apply getGroup_eq|].
  rewrite Hgs by done. unfold w1 at 2. simpl.
  rewrite getGroupIndex_insert, List.filter_app, count_occ_app. simpl.
  assert (Hfresh : stale w1 g E = false).
  { unfold stale, w1. simpl. rewrite lookup_insert_eq. simpl.
    by rewrite Hact, N.setbit_eq. }
  rewrite Hfresh. simpl.
  destruct (N.eq_dec E E); [|done].
  rewrite (proj1 (count_occ_not_In N.eq_dec _ E)); [done|].
  rewrite filter_In, <- list_elem_of_In. tauto.
Qed.

Lemma addGroup_refresh_once_witness :
  ∃ w1 w2 l,
    addGroup 2 5 world_three = Some (tt, w1) ∧
    refresh w1 = Some (tt, w2) ∧
    getGroup 5 w2 = Some (l, w2) ∧
    count_occ N.eq_dec l 2 = 1%nat.
Proof.
  apply (addGroup_refresh_once world_three 2 Entity_new 5).
  - apply manager_okb_ok. vm_compute. reflexivity.
  - vm_compute. reflexivity.
  - reflexivity.
  - reflexivity.
  - vm_compute. intros H. inversion H as [|? ? ? H']. inversion H'.
Defined.

(** ** Framing: what the update and draw passes leave alone *)

Lemma same_entities_refl w : same_entities w w.
Proof. by split. Qed.

Lemma same_entities_trans w1 w2 w3 :
  same_entities w1 w2 → same_entities w2 w3 → same_entities w1 w3.
Proof. intros [? ?] [? ?]. split; congruence. Qed.

Lemma for_each_same_entities {A} (f : A → M unit) (l : list A) :
  (∀ x w w', f x w = Some (tt, w') → same_entities w w') →
  ∀ w w', for_each f l w = Some (tt, w') → same_entities w w'.
Proof.
  intros Hf. induction l as [|x r IH]; intros w w' Hrun; simpl in Hrun.
  - injection Hrun as <-. apply same_entities_refl.
  - rewrite bind_unfold in Hrun.
    destruct (f x w) as [[[] w1]|] eqn:Hx; [|done].
    eapply same_entities_trans; [by apply Hf in Hx|by apply IH].
Qed.

Lemma virtual_call_same_entities method c w w' :
  virtual_call method c w = Some (tt, w') → same_entities w w'.
Proof.
  unfold virtual_call, deref_component, store_component, set_component_heap.
  mrun. destruct (component_heap w !! c) as [[T cls s ent]|]; [|done].
  simpl. destruct (method T cls s); simpl; [|done].
  intros [= <-]. by split.
Qed.

Lemma component_pass_same_entities ev method cs w w' :
  for_each (λ c, log (ev c);; virtual_call method c) cs w = Some (tt, w') →
  same_entities w w'.
Proof.
  apply for_each_same_entities. clear. intros c w w' Hrun.
  rewrite bind_unfold in Hrun. simpl in Hrun.
  apply virtual_call_same_entities in Hrun. destruct Hrun. by split.
Qed.

Lemma Entity_update_same_entities p w w' :
  Entity_update p w = Some (tt, w') → same_entities w w'.
Proof.
  unfold Entity_update, deref_entity. rewrite !bind_unfold. simpl.
  destruct (entity_heap w !! p); simpl; [|done].
  apply component_pass_same_entities.
Qed.

Lemma Entity_draw_same_entities p w w' :
  Entity_draw p w = Some (tt, w') → same_entities w w'.
Proof.
  unfold Entity_draw, deref_entity. rewrite !bind_unfold. simpl.
  destruct (entity_heap w !! p); simpl; [|done].
  apply component_pass_same_entities.
Qed.

Lemma Manager_update_same_entities w w' :
  Manager_update w = Some (tt, w') → same_entities w w'.
Proof.
  unfold Manager_update. rewrite bind_unfold. simpl.
  apply for_each_same_entities. clear. intros p w w' Hrun.
  rewrite bind_unfold in Hrun. simpl in Hrun.
  apply Entity_update_same_entities in Hrun. destruct Hrun. by split.
Qed.

Lemma Manager_draw_same_entities w w' :
  Manager_draw w = Some (tt, w') → same_entities w w'.
Proof.
  unfold Manager_draw. rewrite bind_unfold. simpl.
  apply for_each_same_entities. clear. intros p w w' Hrun.
  rewrite bind_unfold in Hrun. simpl in Hrun.
  apply Entity_draw_same_entities in Hrun. destruct Hrun. by split.
Qed.

(** ** The activity state machine *)

Lemma exec_Some {A} (c : M A) w w' :
  exec c w = Some w' ↔ ∃ a, c w = Some (a, w').
Proof.
  unfold exec. destruct (c w) as [[a w1]|]; simpl; split.
  - intros [= <-]. eauto.
  - intros [? [= _ <-]]. done.
  - done.
  - by intros [? ?].
Qed.

Lemma keeps_same_entities skip w w' : same_entities w w' → keeps skip w w'.
Proof.
  intros [Hm Hh]. unfold keeps, activity. rewrite Hm, Hh. done.
Qed.

Lemma keeps_store skip w w' E e e' :
  entity_heap w !! E = Some e →
  entity_heap w' = <[E := e']> (entity_heap w) →
  (∀ p, p ∈ entities (manager w) → p ∈ entities (manager w')) →
  (active e' = active e ∨ skip = Some E) →
  keeps skip w w'.
Proof.
  intros HE Hh Hents Hact. split; [done|].
  intros p Hskip. unfold activity. rewrite Hh, lookup_insert.
  destruct (decide (E = p)) as [<-|]; [|done].
  rewrite HE. simpl. destruct Hact as [->|]; [done|congruence].
Qed.

Lemma addEntity_eq w :
  addEntity w =
  let p := fresh (dom (entity_heap w)) in
  Some (p, with_manager
             (mkManager (entities (manager w) ++ [p])
                        (groupedEntities (manager w)))
             (with_entity_heap (<[p := Entity_new]> (entity_heap w)) w)).
Proof.
  unfold addEntity, new_entity, store_entity, set_entity_heap, set_entities,
    set_manager. mrun. done.
Qed.

Lemma refresh_inv w w' :
  refresh w = Some (tt, w') →
  entities (manager w')
  = List.filter (λ p, negb (dead w p)) (entities (manager w)) ∧
  (∀ p, p ∈ entities (manager w) → is_Some (entity_heap w !! p)) ∧
  (∀ p, dead w p = false → entity_heap w' !! p = entity_heap w !! p).
Proof.
  rewrite refresh_unfold.
  destruct (refresh_groups _ _ _) as [gs|]; [|done]. simpl.
  destruct (forallb (live w) (entities (manager w))) eqn:Hlive; [|done].
  intros (Hm & _ & Hh)%delete_entities_frame.
  rewrite Hm. simpl. split; [done|].
  split; [by apply forallb_live|].
  intros p Hp. rewrite Hh; [done|].
  rewrite filter_elem_of. intros [_ ?]. congruence.
Qed.

Lemma run_op_keeps op w w' :
  run_op op w = Some w' →
  op ≠ OpRefresh →
  keeps (match op with OpDestroy e => Some e | _ => None end) w w'.
Proof.
  intros Hrun Hop.
  destruct op; simpl in Hrun; apply exec_Some in Hrun as [r Hrun];
    try (match goal with u : unit |- _ => destruct u end); try done.
  - apply keeps_same_entities. by eapply Entity_update_same_entities.
  - apply keeps_same_entities. by eapply Entity_draw_same_entities.
  - rewrite isActive_eq in Hrun.
    destruct (entity_heap w !! e); simplify_eq/=.
    apply keeps_same_entities, same_entities_refl.
  - rewrite destroy_eq in Hrun.
    destruct (entity_heap w !! e) as [en|] eqn:He; simplify_eq/=.
    eapply keeps_store; [done|by simpl|by simpl|by right].
  - rewrite hasGroup_eq in Hrun.
    destruct (entity_heap w !! e); [|done].
    destruct (g <? maxGroups); simplify_eq/=.
    apply keeps_same_entities, same_entities_refl.
  - rewrite addGroup_eq in Hrun.
    destruct (entity_heap w !! e) as [en|] eqn:He; [|done].
    destruct (g <? maxGroups); simplify_eq/=.
    eapply keeps_store; [done|by simpl|by simpl|by left].
  - rewrite delGroup_eq in Hrun.
    destruct (entity_heap w !! e) as [en|] eqn:He; [|done].
    destruct (g <? maxGroups); simplify_eq/=.
    eapply keeps_store; [done|by simpl|by simpl|by left].
  - rewrite hasComponent_eq in Hrun.
    destruct (entity_heap w !! e); [|done]. simpl in Hrun.
    destruct (_ <? maxComponents); simplify_eq/=.
    apply keeps_same_entities. unfold register_type.
    destruct (typeIDs w !! T); by split.
  - rewrite addComponent_eq in Hrun.
    destruct (entity_heap w !! e) as [en|] eqn:He; [|done]. simpl in Hrun.
    destruct (_ <? maxComponents); [|done].
    destruct (init v); simplify_eq/=.
    eapply keeps_store; [done|by simpl|by simpl|by left].
  - rewrite getComponent_eq in Hrun.
    destruct (entity_heap w !! e) as [en|]; [|done]. simpl in Hrun.
    destruct (_ <? maxComponents); [|done].
    destruct (componentArray en !! _); simplify_eq/=.
    apply keeps_same_entities. unfold register_type.
    destruct (typeIDs w !! T); by split.
  - apply keeps_same_entities. by eapply Manager_update_same_entities.
  - apply keeps_same_entities. by eapply Manager_draw_same_entities.
  - unfold addToGroup, set_group, set_manager in Hrun. revert Hrun. mrun.
    destruct (g <? maxGroups); simpl; [|done]. intros [= <-].
    split; [done|]. done.
  - unfold getGroup in Hrun. revert Hrun. mrun.
    destruct (g <? maxGroups); simpl; [|done]. intros [= _ <-].
    apply keeps_same_entities, same_entities_refl.
  - rewrite addEntity_eq in Hrun. simplify_eq/=.
    split; simpl.
    + intros p Hp. apply elem_of_app. by left.
    + intros p _. unfold activity. simpl. rewrite lookup_insert.
      destruct (decide (fresh (dom (entity_heap w)) = p)) as [<-|]; [|done].
      pose proof (is_fresh (dom (entity_heap w))) as Hf.
      apply not_elem_of_dom in Hf. by rewrite Hf.
Qed.

Lemma isActive_activity E w b :
  isActive E w = Some (b, w) ↔ activity w E = Some b.
Proof.
  rewrite isActive_eq. unfold activity.
  destruct (entity_heap w !! E); simpl; split; congruence.
Qed.

Lemma refresh_removal w w' E :
  refresh w = Some (tt, w') →
  E ∈ entities (manager w) →
  E ∉ entities (manager w') →
  activity w E = Some false.
Proof.
  intros (Hents & Hlive & _)%refresh_inv Hin Hout.
  rewrite Hents, filter_elem_of in Hout.
  destruct (Hlive E Hin) as [e He]. unfold activity, dead in *.
  rewrite He in *. simpl. destruct (active e); [|done].
  exfalso. apply Hout. done.
Qed.

Lemma refresh_keeps_active w w' E :
  refresh w = Some (tt, w') →
  E ∈ entities (manager w) →
  activity w E = Some true →
  E ∈ entities (manager w') ∧ activity w' E = Some true.
Proof.
  intros (Hents & _ & Hh)%refresh_inv Hin Hact.
  assert (Hd : dead w E = false).
  { unfold activity, dead in *. destruct (entity_heap w !! E); [|done].
    simpl in Hact. injection Hact as ->. done. }
  split.
  - rewrite Hents, filter_elem_of, Hd. done.
  - unfold activity. by rewrite Hh.
Qed.

(** C8. Over every run of the public operations, an entity that was in
    the primary collection and is no longer there left it at a
    [refresh()] that met it with its active flag false; if the entity was
    active at the start of the run, [destroy()] was called on it before
    that [refresh()].  So there is no step from Active to Removed. *)
Theorem removal_passes_through_inactive (ops : list Op) (w w' : World)
    (E : addr) :
  run_ops ops w = Some w' →
  E ∈ entities (manager w) →
  E ∉ entities (manager w') →
  ∃ pre post wi wr,
    ops = pre ++ OpRefresh :: post ∧
    run_ops pre w = Some wi ∧
    E ∈ entities (manager wi) ∧
    isActive E wi = Some (false, wi) ∧
    refresh wi = Some (tt, wr) ∧
    (E ∉ entities (manager wr)) ∧
    (isActive E w = Some (true, w) → In (OpDestroy E) pre).
Proof.
  revert w. induction ops as [|op rest IH]; intros w Hrun Hin Hout.
  - simpl in Hrun. congruence.
  - simpl in Hrun. destruct (run_op op w) as [w1|] eqn:Hop; [|done].
    simpl in Hrun.
    destruct (decide (E ∈ entities (manager w1))) as [Hin1|Hout1].
    + destruct (IH w1 Hrun Hin1 Hout)
        as (pre & post & wi & wr & -> & Hpre & Hi & Hflag & Hr & Ho & Hd).
      exists (op :: pre), post, wi, wr.
      split; [done|]. split; [simpl; by rewrite Hop|].
      do 4 (split; [done|]).
      intros Hact%isActive_activity.
      destruct op; try (right; apply Hd, isActive_activity;
        first [ by eapply (run_op_keeps _ w w1)
              | by eapply refresh_keeps_active, exec_Some in Hop ]).
      * destruct (decide (e = E)) as [->|Hne]; [by left|].
        right. apply Hd, isActive_activity.
        eapply (run_op_keeps _ w w1); [done|done| |done].
        simpl. congruence.
      * right. apply Hd, isActive_activity.
        simpl in Hop. apply exec_Some in Hop as [[] Hop].
        by eapply refresh_keeps_active.
    + destruct op;
        try (exfalso; apply Hout1;
             by eapply (run_op_keeps _ w w1)).
      simpl in Hop. apply exec_Some in Hop as [[] Hop].
      exists [], rest, w, w1.
      split; [done|]. split; [done|]. split; [done|].
      pose proof (refresh_removal _ _ _ Hop Hin Hout1) as Hflag.
      split; [by apply isActive_activity|].
      split; [done|]. split; [done|].
      intros Hact%isActive_activity. congruence.
Qed.

Lemma removal_passes_through_inactive_witness :
  ∃ pre post wi wr,
    [OpDestroy 0; OpManagerUpdate; OpRefresh; OpManagerDraw]
      = pre ++ OpRefresh :: post ∧
    run_ops pre world_one_entity = Some wi ∧
    0 ∈ entities (manager wi) ∧
    isActive 0 wi = Some (false, wi) ∧
    refresh wi = Some (tt, wr) ∧
    (0 ∉ entities (manager wr)) ∧
    (isActive 0 world_one_entity = Some (true, world_one_entity) →
     In (OpDestroy 0) pre).
Proof.
  apply (removal_passes_through_inactive
           [OpDestroy 0; OpManagerUpdate; OpRefresh; OpManagerDraw]
           world_one_entity
           (default empty_world
              (run_ops [OpDestroy 0; OpManagerUpdate; OpRefresh; OpManagerDraw]
                       world_one_entity))
           0).
  - vm_compute. reflexivity.
  - apply list_elem_of_here.
  - vm_compute. intros H. inversion H.
Defined.

(** ** The update pass *)






Lemma entity_updates_app a b :
  entity_updates (a ++ b) = entity_updates a ++ entity_updates b.
Proof. apply omap_app. Qed.




(** Whenever the update pass returns, it has called [Entity::update] on
    the entities of the primary collection, one after the other. *)
Lemma virtual_call_trace method c w w' :
  virtual_call method c w = Some (tt, w') → trace w' = trace w.
Proof.
  unfold virtual_call, deref_component, store_component, set_component_heap.
  mrun. destruct (component_heap w !! c) as [[T cls s ent]|]; [|done].
  simpl. destruct (method T cls s); simpl; [|done]. by intros [= <-].
Qed.

Lemma component_pass_entity_updates cs : ∀ w w',
  for_each (λ c, log (EvUpdate c);; virtual_call (@update) c) cs w
  = Some (tt, w') →
  entity_updates (trace w') = entity_updates (trace w).
Proof.
  induction cs as [|c r IH]; intros w w' Hrun; simpl in Hrun.
  - by injection Hrun as <-.
  - rewrite !bind_unfold in Hrun. simpl in Hrun.
    destruct (virtual_call _ c _) as [[[] w1]|] eqn:Hc; [|done].
    apply IH in Hrun. apply virtual_call_trace in Hc.
    rewrite Hrun, Hc. simpl. rewrite entity_updates_app. simpl.
    by rewrite app_nil_r.
Qed.

Lemma Manager_update_trace w w' :
  Manager_update w = Some (tt, w') →
  entity_updates (trace w')
  = entity_updates (trace w) ++ entities (manager w).
Proof.
  unfold Manager_update. rewrite bind_unfold. simpl.
  generalize (entities (manager w)) as ents. intros ents. revert w.
  induction ents as [|p r IH]; intros w Hrun; simpl in Hrun.
  - injection Hrun as <-. by rewrite app_nil_r.
  - rewrite !bind_unfold in Hrun. simpl in Hrun.
    destruct (Entity_update p _) as [[[] w1]|] eqn:Hp; [|done].
    apply IH in Hrun. rewrite Hrun.
    unfold Entity_update, deref_entity in Hp. rewrite !bind_unfold in Hp.
    simpl in Hp. destruct (entity_heap w !! p); [|done]. simpl in Hp.
    apply component_pass_entity_updates in Hp. rewrite Hp. simpl.
    rewrite entity_updates_app. simpl. by rewrite <- app_assoc.
Qed.



(** ** Single-precision arithmetic on integers *)

Section Float32_integers.

Local Open Scope Z_scope.

(** [p * 2 ^ n] on [positive]. *)
Local Abbreviation shl p n := (Nat.iter n xO p).

Lemma iter_pos_nat {A} (f : A → A) (p : positive) (a : A) :
  SpecFloat.iter_pos f p a = Nat.iter (Pos.to_nat p) f a.
Proof.
  revert a. induction p as [p IH|p IH|]; intros a;
    cbn [SpecFloat.iter_pos].
  - rewrite !IH, Pos2Nat.inj_xI, <- Nat.iter_succ_r, <- Nat.iter_add.
    f_equal. lia.
  - rewrite !IH, Pos2Nat.inj_xO, <- Nat.iter_add. f_equal. lia.
  - reflexivity.
Qed.

Lemma Pos_iter_nat {A} (f : A → A) (p : positive) (a : A) :
  Pos.iter f a p = Nat.iter (Pos.to_nat p) f a.
Proof. apply Pos2Nat.inj_iter. Qed.

Lemma shl_add (p : positive) (a b : nat) :
  shl (shl p b) a = shl p (a + b).
Proof. symmetry. apply Nat.iter_add. Qed.

Lemma Zpos_shl (p : positive) (n : nat) :
  Zpos (shl p n) = Zpos p * 2 ^ Z.of_nat n.
Proof.
  induction n as [|n IH]; [simpl; lia|].
  rewrite Nat2Z.inj_succ, Z.pow_succ_r by lia. simpl Nat.iter.
  rewrite Pos2Z.inj_xO, IH. lia.
Qed.

Lemma digits_shl (p : positive) (n : nat) :
  Zpos (digits2_pos (shl p n)) = Zpos (digits2_pos p) + Z.of_nat n.
Proof.
  induction n as [|n IH]; [simpl; lia|].
  simpl Nat.iter. simpl digits2_pos. lia.
Qed.

Lemma digits_bounds (p : positive) :
  2 ^ (Zpos (digits2_pos p) - 1) <= Zpos p < 2 ^ Zpos (digits2_pos p).
Proof.
  induction p as [p IH|p IH|]; simpl digits2_pos.
  - rewrite Pos2Z.inj_succ, Z.pow_succ_r by lia.
    replace (Z.succ (Zpos (digits2_pos p)) - 1)
      with (Z.succ (Zpos (digits2_pos p) - 1)) by lia.
    rewrite Z.pow_succ_r by lia. lia.
  - rewrite Pos2Z.inj_succ, Z.pow_succ_r by lia.
    replace (Z.succ (Zpos (digits2_pos p)) - 1)
      with (Z.succ (Zpos (digits2_pos p) - 1)) by lia.
    rewrite Z.pow_succ_r by lia. lia.
  - simpl. lia.
Qed.

Lemma digits_le_24 (p : positive) :
  Zpos p < 2 ^ 24 → Zpos (digits2_pos p) <= 24.
Proof.
  intros Hp. destruct (digits_bounds p) as [Hlo _].
  destruct (Z.le_gt_cases (Zpos (digits2_pos p)) 24) as [|Hgt]; [done|].
  assert (2 ^ 24 <= 2 ^ (Zpos (digits2_pos p) - 1))
    by (apply Z.pow_le_mono_r; lia).
  lia.
Qed.

Lemma shr_exact (n : nat) (q : positive) :
  Nat.iter n shr_1 (Build_shr_record (Zpos (shl q n)) false false)
  = Build_shr_record (Zpos q) false false.
Proof.
  induction n as [|n IH]; [done|].
  rewrite Nat.iter_succ_r. simpl. apply IH.
Qed.

Lemma shr_by (mrs : shr_record) (e : Z) (j : nat) :
  shr mrs e (Z.of_nat j) = (Nat.iter j shr_1 mrs, e + Z.of_nat j).
Proof.
  destruct j as [|j]; [simpl; f_equal; lia|].
  change (Z.of_nat (S j)) with (Zpos (Pos.of_succ_nat j)).
  cbn [shr]. by rewrite iter_pos_nat, SuccNat2Pos.id_succ.
Qed.

(** A 24-bit mantissa followed by [j] zero bits rounds to itself. *)
Lemma binary_round_aux_exact (s : bool) (q : positive) (j : nat) (e : Z) :
  Zpos (digits2_pos q) = 24 →
  -149 <= e + Z.of_nat j <= 104 →
  binary_round_aux 24 128 s (Zpos (shl q j)) e loc_Exact
  = S754_finite s q (e + Z.of_nat j).
Proof.
  intros Hq He. unfold binary_round_aux, shr_fexp.
  cbn [Zdigits2 shr_record_of_loc]. rewrite digits_shl, Hq.
  replace (fexp 24 128 (24 + Z.of_nat j + e) - e) with (Z.of_nat j)
    by (unfold fexp, emin; lia).
  rewrite shr_by, shr_exact.
  cbn [shr_m loc_of_shr_record round_nearest_even Zdigits2
       shr_record_of_loc].
  rewrite Hq.
  replace (fexp 24 128 (24 + (e + Z.of_nat j)) - (e + Z.of_nat j)) with 0
    by (unfold fexp, emin; lia).
  cbn [shr shr_m].
  replace (e + Z.of_nat j <=? 128 - 24) with true
    by (symmetry; apply Z.leb_le; lia).
  done.
Qed.

Lemma binary_round_exact (s : bool) (p : positive) (k : nat) :
  let d := Zpos (digits2_pos p) in
  d <= 24 →
  binary_round 24 128 s (shl p k) (- Z.of_nat k)
  = S754_finite s (shl p (Z.to_nat (24 - d))) (d - 24).
Proof.
  intros d Hd. unfold binary_round.
  replace (fexp 24 128 (Zpos (digits2_pos (shl p k)) + - Z.of_nat k))
    with (d - 24) by (rewrite digits_shl; unfold fexp, emin; lia).
  set (a := Z.to_nat (24 - d)).
  assert (Ha : Z.of_nat a = 24 - d) by (unfold a; lia).
  assert (Hq : Zpos (digits2_pos (shl p a)) = 24)
    by (rewrite digits_shl; fold d; lia).
  unfold shl_align.
  destruct (d - 24 - - Z.of_nat k) as [|j|j] eqn:Hj.
  - replace k with a by lia.
    pose proof (binary_round_aux_exact s (shl p a) 0 (- Z.of_nat a) Hq
                  ltac:(lia)) as H.
    cbn [Nat.iter nat_rect] in H. rewrite H. f_equal. lia.
  - replace (shl p k) with (shl (shl p a) (Pos.to_nat j))
      by (rewrite shl_add; f_equal; lia).
    rewrite binary_round_aux_exact by (done || lia). f_equal. lia.
  - rewrite Pos_iter_nat, shl_add.
    replace (Pos.to_nat j + k)%nat with a by lia.
    pose proof (binary_round_aux_exact s (shl p a) 0 (d - 24) Hq
                  ltac:(lia)) as H.
    cbn [Nat.iter nat_rect] in H. rewrite H. f_equal. lia.
Qed.

Lemma of_int_canon (s : bool) (p : positive) :
  Zpos p < 2 ^ 24 →
  Float32.of_int (cond_Zopp s (Zpos p)) = Float32.canon s p.
Proof.
  intros Hp%digits_le_24.
  unfold Float32.of_int, Float32.prec, Float32.emax, Float32.canon.
  destruct s; cbn [cond_Zopp Z.opp binary_normalize];
    exact (binary_round_exact _ p 0 Hp).
Qed.

Lemma normalize_scaled (z : Z) (k : nat) :
  Z.abs z < 2 ^ 24 →
  binary_normalize 24 128 (z * 2 ^ Z.of_nat k) (- Z.of_nat k) false
  = Float32.of_int z.
Proof.
  intros Hz.
  destruct z as [|p|p]; [done| |].
  - change (Z.pos p) with (cond_Zopp false (Z.pos p)) at 2.
    rewrite (of_int_canon false p) by lia.
    rewrite <- Zpos_shl. cbn [binary_normalize].
    apply binary_round_exact, digits_le_24. lia.
  - change (Z.neg p) with (cond_Zopp true (Z.pos p)) at 2.
    rewrite (of_int_canon true p) by lia.
    change (Z.neg p) with (- Zpos p).
    rewrite Z.mul_opp_l, <- Zpos_shl. cbn [binary_normalize Z.opp].
    apply binary_round_exact, digits_le_24. lia.
Qed.

Lemma shl_align_fst (mx : positive) (ex ez : Z) :
  ez <= ex →
  Zpos (fst (shl_align mx ex ez)) = Zpos mx * 2 ^ (ex - ez).
Proof.
  intros Hle. unfold shl_align.
  destruct (ez - ex) as [|j|j] eqn:Hj; cbn [fst].
  - replace (ex - ez) with 0 by lia. lia.
  - lia.
  - rewrite Pos_iter_nat, Zpos_shl. do 2 f_equal. lia.
Qed.

(** Adding 3 to an integer is exact as long as the sum fits in the
    24 bits of the mantissa. *)
Lemma add_three_exact (n : Z) :
  - 2 ^ 24 < n < 2 ^ 24 - 3 →
  Float32.add (Float32.of_int n) (Float32.of_int 3)
  = Float32.of_int (n + 3).
Proof.
  intros Hn.
  destruct (Z.eq_dec n 0) as [->|Hn0]; [done|].
  assert (Hsp : ∃ s p, n = cond_Zopp s (Zpos p) ∧ Zpos p < 2 ^ 24).
  { destruct n as [|p|p]; [done|exists false, p|exists true, p];
      simpl; lia. }
  destruct Hsp as (s & p & -> & Hp).
  rewrite of_int_canon by done.
  change (Float32.of_int 3) with (S754_finite false 12582912 (-22)).
  unfold Float32.canon, Float32.add, SFadd.
  set (d := Zpos (digits2_pos p)).
  assert (Hd : 1 <= d <= 24).
  { split; [unfold d; lia|by apply digits_le_24]. }
  set (mx := shl p (Z.to_nat (24 - d))).
  set (ez := Z.min (d - 24) (-22)).
  assert (Hez : ez = -22 ∨ ez = -23) by lia.
  rewrite !shl_align_fst by lia.
  unfold mx. rewrite Zpos_shl, Z2Nat.id by lia.
  assert (Hsum : Z.abs (cond_Zopp s (Zpos p) + 3) < 2 ^ 24).
  { clear -Hn. destruct s; cbn [cond_Zopp] in *; lia. }
  rewrite <- (normalize_scaled (cond_Zopp s (Zpos p) + 3)
                (Z.to_nat (- ez))) by done.
  rewrite Z2Nat.id by lia. rewrite Z.opp_involutive.
  f_equal.
  rewrite <- Z.mul_assoc, <- Z.pow_add_r by lia.
  replace (24 - d + (d - 24 - ez)) with (- ez) by lia.
  change (Z.pos 12582912) with (3 * 2 ^ 22).
  rewrite <- Z.mul_assoc, <- Z.pow_add_r by lia.
  replace (22 + (-22 - ez)) with (- ez) by lia.
  destruct s; cbn [cond_Zopp]; lia.
Qed.

Lemma represents_of_int (n : Z) :
  Z.abs n < 2 ^ 24 → Float32.represents (Float32.of_int n) n.
Proof.
  intros Hn.
  destruct (Z.eq_dec n 0) as [->|Hn0]; [done|].
  assert (Hsp : ∃ s p, n = cond_Zopp s (Zpos p) ∧ Zpos p < 2 ^ 24).
  { destruct n as [|p|p]; [done|exists false, p|exists true, p];
      simpl; lia. }
  destruct Hsp as (s & p & -> & Hp).
  rewrite of_int_canon by done.
  unfold Float32.represents, Float32.canon, Float32.value.
  set (d := Zpos (digits2_pos p)).
  assert (Hd : 1 <= d <= 24).
  { split; [unfold d; lia|by apply digits_le_24]. }
  set (a := 24 - d).
  rewrite Zpos_shl, Z2Nat.id by lia. fold a.
  replace (d - 24) with (- a) by (unfold a; lia).
  replace (cond_Zopp s (Zpos p * 2 ^ a))
    with (cond_Zopp s (Zpos p) * 2 ^ a) by (destruct s; simpl; lia).
  rewrite inject_Z_mult, Zpower_Qpower, Qpower_opp by lia.
  change (inject_Z 2) with 2%Q.
  assert (Hpow : ¬ (2 ^ a == 0)%Q).
  { apply Qpower_not_0. done. }
  field. done.
Qed.
End Float32_integers.

(** ** [TransformComponent] *)

Lemma add_zero_same (a : spec_float) :
  Float32.same_number (Float32.add a (Float32.of_int 0)) a ∧
  (a ≠ S754_zero true → Float32.add a (Float32.of_int 0) = a).
Proof.
  destruct a as [[|]| | |]; split; try (by left); try done.
  right. eauto.
Qed.

Lemma update_zero_velocity (t : TransformComponent) :
  velocity t = mkVector2D (Float32.of_int 0) (Float32.of_int 0) →
  Float32.is_finite (speed t) = true →
  TransformComponent_update t
  = Some (set_position
            (mkVector2D (Float32.add (x (position t)) (Float32.of_int 0))
                        (Float32.add (y (position t)) (Float32.of_int 0)))
            t).
Proof.
  intros Hv Hs. unfold TransformComponent_update. rewrite Hv.
  assert (Hstep : step_of (Norm (mkVector2D (Float32.of_int 0)
                                            (Float32.of_int 0)))
                          (Float32.of_int 0) (speed t) = Some 0%Z).
  { destruct (speed t) as [[|]| | |[|] m e]; done. }
  cbn [x y]. rewrite Hstep. done.
Qed.

Lemma TransformComponent_new_speed TILE_SIZE dflt a :
  speed (TransformComponent_new TILE_SIZE dflt a) = Float32.of_int 3.
Proof. by destruct a. Qed.

(** C10. Whatever constructor overload and arguments are used, right
    after [addComponent<TransformComponent>(...)] returns the velocity of
    the attached component is (0, 0): no constructor writes it and
    [init()] zeroes it.  The position is the one the constructor set, and
    an [update()] of that component returns and leaves the position the
    same number in both coordinates (a negative zero becomes the positive
    zero); the same holds for any component with velocity (0, 0) and a
    finite speed. *)
Theorem addComponent_Transform_velocity_zero (TILE_SIZE : Z)
    (Vector2D_default : Vector2D) (a : TransformArgs) (E : addr)
    (e : Entity) (w : World) :
  entity_heap w !! E = Some e →
  typeID_of "TransformComponent" w < maxComponents →
  ∃ c w' t t',
    addComponent (TransformComponent_new TILE_SIZE Vector2D_default a) E w
      = Some (c, w') ∧
    component_heap w' !! c
      = Some (mkComponent TransformComponent TransformComponent_class t
                          (Some E)) ∧
    velocity t = mkVector2D (Float32.of_int 0) (Float32.of_int 0) ∧
    position t
      = position (TransformComponent_new TILE_SIZE Vector2D_default a) ∧
    TransformComponent_update t = Some t' ∧
    Float32.same_number (x (position t')) (x (position t)) ∧
    Float32.same_number (y (position t')) (y (position t)) ∧
    (x (position t) ≠ S754_zero true → y (position t) ≠ S754_zero true →
     position t' = position t) ∧
    ∀ t1, velocity t1 = velocity t →
          Float32.is_finite (speed t1) = true →
          ∃ t1', TransformComponent_update t1 = Some t1' ∧
                 Float32.same_number (x (position t1')) (x (position t1)) ∧
                 Float32.same_number (y (position t1')) (y (position t1)).
Proof.
  intros HE Hid.
  set (v := TransformComponent_new TILE_SIZE Vector2D_default a).
  eexists _, _, (TransformComponent_init v), _.
  split; [by apply (addComponent_returns v (TransformComponent_init v))|].
  split; [unfold attached; simpl; by rewrite lookup_insert_eq|].
  split; [done|]. split; [done|].
  split.
  { apply update_zero_velocity; [done|]. simpl.
    unfold v. by rewrite TransformComponent_new_speed. }
  unfold set_position. cbn [position x y TransformComponent_init].
  destruct (add_zero_same (x (position v))) as [Hx Hx'].
  destruct (add_zero_same (y (position v))) as [Hy Hy'].
  split; [done|]. split; [done|]. split.
  { intros Hnx Hny. rewrite Hx', Hy' by done. by destruct (position v). }
  intros t1 Hv Hs. eexists. split; [by apply update_zero_velocity|].
  unfold set_position. cbn [position x y]. split; apply add_zero_same.
Qed.

Lemma addComponent_Transform_velocity_zero_witness :
  ∃ c w' t t',
    addComponent
      (TransformComponent_new 32 (mkVector2D S754_nan S754_nan)
         (Args_xyhws (Float32.of_int 5) (Float32.of_int (-7)) 64 64
                     (Float32.of_int 2)))
      0 world_one_entity
      = Some (c, w') ∧
    component_heap w' !! c
      = Some (mkComponent TransformComponent TransformComponent_class t
                          (Some 0)) ∧
    velocity t = mkVector2D (Float32.of_int 0) (Float32.of_int 0) ∧
    position t
      = position
          (TransformComponent_new 32 (mkVector2D S754_nan S754_nan)
             (Args_xyhws (Float32.of_int 5) (Float32.of_int (-7)) 64 64
                         (Float32.of_int 2))) ∧
    TransformComponent_update t = Some t' ∧
    Float32.same_number (x (position t')) (x (position t)) ∧
    Float32.same_number (y (position t')) (y (position t)) ∧
    (x (position t) ≠ S754_zero true → y (position t) ≠ S754_zero true →
     position t' = position t) ∧
    ∀ t1, velocity t1 = velocity t →
          Float32.is_finite (speed t1) = true →
          ∃ t1', TransformComponent_update t1 = Some t1' ∧
                 Float32.same_number (x (position t1')) (x (position t1)) ∧
                 Float32.same_number (y (position t1')) (y (position t1)).
Proof.
  apply (addComponent_Transform_velocity_zero 32
           (mkVector2D S754_nan S754_nan)
           (Args_xyhws (Float32.of_int 5) (Float32.of_int (-7)) 64 64
                       (Float32.of_int 2))
           0 Entity_new world_one_entity); reflexivity.
Defined.

Lemma step_of_unit_x :
  step_of (Norm (mkVector2D (Float32.of_int 1) (Float32.of_int 0)))
          (Float32.of_int 1) (Float32.of_int 3) = Some 3%Z.
Proof. reflexivity. Qed.

Lemma step_of_unit_y :
  step_of (Norm (mkVector2D (Float32.of_int 1) (Float32.of_int 0)))
          (Float32.of_int 0) (Float32.of_int 3) = Some 0%Z.
Proof. reflexivity. Qed.

(** C9, as the code has it.  With velocity (1, 0) and speed 3, [update()]
    takes the non-zero-norm branch and adds the integer 3 to [position.x]
    and 0 to [position.y], in single precision.  The x-coordinate grows
    by exactly 3 when it is an integer [n] with [-2^24 < n < 2^24 - 3],
    where [n] and [n + 3] are both exact in binary32; the y-coordinate
    stays the same number. *)
Theorem update_unit_velocity_adds_three (t : TransformComponent) :
  velocity t = mkVector2D (Float32.of_int 1) (Float32.of_int 0) →
  speed t = Float32.of_int 3 →
  ∃ t',
    TransformComponent_update t = Some t' ∧
    Float32.neq (Norm (velocity t)) (Float32.of_int 0) = true ∧
    t' = set_position
           (mkVector2D (Float32.add (x (position t)) (Float32.of_int 3))
                       (Float32.add (y (position t)) (Float32.of_int 0)))
           t ∧
    Float32.same_number (y (position t')) (y (position t)) ∧
    ∀ n : Z, (- 2 ^ 24 < n < 2 ^ 24 - 3)%Z →
      x (position t) = Float32.of_int n →
      x (position t') = Float32.of_int (n + 3) ∧
      Float32.represents (x (position t)) n ∧
      Float32.represents (x (position t')) (n + 3).
Proof.
  intros Hv Hs. eexists.
  split.
  { unfold TransformComponent_update. rewrite Hv, Hs. cbn [x y].
    rewrite step_of_unit_x, step_of_unit_y. done. }
  split; [by rewrite Hv|]. split; [done|].
  unfold set_position. cbn [position x y]. split; [apply add_zero_same|].
  intros n Hn Hx. rewrite Hx.
  split; [by apply add_three_exact|].
  split.
  - apply represents_of_int. lia.
  - rewrite add_three_exact by done. apply represents_of_int. lia.
Qed.

Lemma update_unit_velocity_adds_three_witness :
  ∃ t',
    TransformComponent_update (transform_at 100) = Some t' ∧
    Float32.neq (Norm (velocity (transform_at 100))) (Float32.of_int 0)
      = true ∧
    t' = set_position
           (mkVector2D
              (Float32.add (x (position (transform_at 100)))
                           (Float32.of_int 3))
              (Float32.add (y (position (transform_at 100)))
                           (Float32.of_int 0)))
           (transform_at 100) ∧
    Float32.same_number (y (position t')) (y (position (transform_at 100))) ∧
    ∀ n : Z, (- 2 ^ 24 < n < 2 ^ 24 - 3)%Z →
      x (position (transform_at 100)) = Float32.of_int n →
      x (position t') = Float32.of_int (n + 3) ∧
      Float32.represents (x (position (transform_at 100))) n ∧
      Float32.represents (x (position t')) (n + 3).
Proof.
  apply (update_unit_velocity_adds_three (transform_at 100)); reflexivity.
Defined.

(** C9, as stated, fails where the sum is not a binary32 number: from
    [position.x = 16777216] (that is [2^24]) one [update()] with velocity
    (1, 0) and speed 3 gives [16777220], four more and not three. *)
Lemma update_unit_velocity_far_adds_four :
  velocity (transform_at 16777216)
    = mkVector2D (Float32.of_int 1) (Float32.of_int 0) ∧
  speed (transform_at 16777216) = Float32.of_int 3 ∧
  Float32.represents (x (position (transform_at 16777216))) 16777216 ∧
  ∃ t',
    TransformComponent_update (transform_at 16777216) = Some t' ∧
    Float32.represents (x (position t')) 16777220 ∧
    ¬ Float32.represents (x (position t')) (16777216 + 3).
Proof.
  split; [reflexivity|]. split; [reflexivity|].
  split; [vm_compute; reflexivity|].
  eexists. split; [vm_compute; reflexivity|].
  split; [vm_compute; reflexivity|].
  vm_compute. discriminate.
Qed.

(** ** [manager_ok] is an invariant of the public interface *)

Lemma manager_ok_empty : manager_ok empty_world.
Proof.
  split; simpl.
  - by intros p ?%elem_of_nil.
  - constructor.
  - intros g p _ Hp. unfold getGroupIndex in Hp. simpl in Hp.
    rewrite lookup_empty in Hp. by apply elem_of_nil in Hp.
Qed.

Lemma manager_ok_same_entities w w' :
  same_entities w w' → manager_ok w → manager_ok w'.
Proof.
  intros [Hm Hh] [Hlive Hnd Hgroups].
  split; rewrite ?Hm, ?Hh; done.
Qed.

Lemma manager_ok_refresh w w' :
  manager_ok w → refresh w = Some (tt, w') → manager_ok w'.
Proof.
  intros Hok Hrun.
  destruct (refresh_spec w Hok)
    as (w'' & Hrun' & Hents & Hgs & _ & Hkept & _).
  rewrite Hrun in Hrun'. injection Hrun' as <-.
  assert (Hlive' : ∀ p, dead w p = false →
                        is_Some (entity_heap w' !! p)).
  { intros p Hd. rewrite Hkept by (intros [_ ?]; congruence).
    unfold dead in Hd. destruct (entity_heap w !! p); [eauto|done]. }
  split.
  - intros p. rewrite Hents, filter_elem_of. intros [_ Hd].
    apply Hlive'. by destruct (dead w p).
  - rewrite Hents. apply filter_NoDup, Hok.
  - intros g p Hg. rewrite Hgs, filter_elem_of by done. intros [_ Hs].
    apply Hlive'. unfold stale, dead in *.
    destruct (entity_heap w !! p) as [e|]; [|done].
    by destruct (active e).
Qed.

Lemma manager_ok_addToGroup w E g :
  is_Some (entity_heap w !! E) →
  manager_ok w →
  manager_ok
    (with_manager
       (mkManager (entities (manager w))
          (<[g := getGroupIndex (manager w) g ++ [E]]>
             (groupedEntities (manager w)))) w).
Proof.
  intros HE [Hlive Hnd Hgroups]. split; simpl; [done|done|].
  intros g' p Hg' Hp.
  destruct (decide (g = g')) as [<-|Hne].
  - rewrite getGroupIndex_insert in Hp.
    apply elem_of_app in Hp as [Hp|Hp]; [by apply (Hgroups g)|].
    by apply list_elem_of_singleton in Hp as ->.
  - rewrite getGroupIndex_insert_ne in Hp by done.
    apply (Hgroups g'); [done|].
    unfold getGroupIndex in *. simpl in *. done.
Qed.

(** Every world reached from a correct one by the public operations is
    correct, as long as [addToGroup] is given pointers to live
    entities. *)
Lemma run_op_manager_ok (op : Op) (w w' : World) :
  manager_ok w →
  run_op op w = Some w' →
  (∀ e g, op = OpAddToGroup e g → is_Some (entity_heap w !! e)) →
  manager_ok w'.
Proof.
  intros Hok Hrun Harg.
  destruct op; simpl in Hrun; apply exec_Some in Hrun as [r Hrun];
    try (match goal with u : unit |- _ => destruct u end).
  - eapply manager_ok_same_entities; [|done].
    by eapply Entity_update_same_entities.
  - eapply manager_ok_same_entities; [|done].
    by eapply Entity_draw_same_entities.
  - rewrite isActive_eq in Hrun.
    destruct (entity_heap w !! e); simplify_eq/=. done.
  - rewrite destroy_eq in Hrun.
    destruct (entity_heap w !! e) as [en|] eqn:He; simplify_eq/=.
    by apply manager_ok_store.
  - rewrite hasGroup_eq in Hrun.
    destruct (entity_heap w !! e); [|done].
    destruct (g <? maxGroups); simplify_eq/=. done.
  - rewrite addGroup_eq in Hrun.
    destruct (entity_heap w !! e) as [en|] eqn:He; [|done].
    destruct (g <? maxGroups); simplify_eq/=.
    apply (manager_ok_addToGroup
             (with_entity_heap (<[e := _]> (entity_heap w)) w) e g).
    + simpl. rewrite lookup_insert_eq. eauto.
    + by apply manager_ok_store.
  - rewrite delGroup_eq in Hrun.
    destruct (entity_heap w !! e) as [en|] eqn:He; [|done].
    destruct (g <? maxGroups); simplify_eq/=.
    by apply manager_ok_store.
  - rewrite hasComponent_eq in Hrun.
    destruct (entity_heap w !! e); [|done]. simpl in Hrun.
    destruct (_ <? maxComponents); simplify_eq/=.
    eapply manager_ok_same_entities; [|done]. unfold register_type.
    destruct (typeIDs w !! T); by split.
  - rewrite addComponent_eq in Hrun.
    destruct (entity_heap w !! e) as [en|] eqn:He; [|done]. simpl in Hrun.
    destruct (_ <? maxComponents); [|done].
    destruct (init v); simplify_eq/=.
    destruct (manager_ok_store w e
                (mkEntity (active en)
                   (components en ++ [fresh (dom (component_heap w))])
                   (<[typeID_of type_name w :=
                        fresh (dom (component_heap w))]>
                      (componentArray en))
                   (N.setbit (componentBitSet en) (typeID_of type_name w))
                   (groupBitSet en))
                (mk_is_Some _ _ He) Hok) as [? ? ?].
    by split.
  - rewrite getComponent_eq in Hrun.
    destruct (entity_heap w !! e) as [en|]; [|done]. simpl in Hrun.
    destruct (_ <? maxComponents); [|done].
    destruct (componentArray en !! _); simplify_eq/=.
    eapply manager_ok_same_entities; [|done]. unfold register_type.
    destruct (typeIDs w !! T); by split.
  - eapply manager_ok_same_entities; [|done].
    by eapply Manager_update_same_entities.
  - eapply manager_ok_same_entities; [|done].
    by eapply Manager_draw_same_entities.
  - by eapply manager_ok_refresh.
  - unfold addToGroup, set_group, set_manager in Hrun. revert Hrun. mrun.
    destruct (g <? maxGroups); simpl; [|done]. intros [= <-].
    apply manager_ok_addToGroup; [by eapply Harg|done].
  - unfold getGroup in Hrun. revert Hrun. mrun.
    destruct (g <? maxGroups); simpl; [|done]. by intros [= _ <-].
  - rewrite addEntity_eq in Hrun. simplify_eq/=.
    destruct Hok as [Hlive Hnd Hgroups].
    pose proof (is_fresh (dom (entity_heap w))) as Hf.
    set (p := fresh (dom (entity_heap w))) in *.
    split; simpl.
    + intros q [Hq|Hq]%elem_of_app.
      * rewrite lookup_insert_ne; [by apply Hlive|].
        intros <-. apply Hf, elem_of_dom. by apply Hlive.
      * apply list_elem_of_singleton in Hq as ->.
        rewrite lookup_insert_eq. eauto.
    + apply NoDup_app. split; [done|]. split; [|apply NoDup_singleton].
      intros q Hq ->%list_elem_of_singleton.
      apply Hf, elem_of_dom. by apply Hlive.
    + intros g q Hg Hq. rewrite lookup_insert.
      destruct (decide (p = q)); [eauto|].
      apply (Hgroups g); [done|].
      unfold getGroupIndex in *. simpl in *. done.
Qed.

(** In particular every world built from the empty one through the
    entity interface, where [addToGroup] is only called by [addGroup]. *)
Lemma run_ops_manager_ok (ops : list Op) : ∀ w w',
  manager_ok w →
  run_ops ops w = Some w' →
  Forall (λ op, ∀ e g, op ≠ OpAddToGroup e g) ops →
  manager_ok w'.
Proof.
  induction ops as [|op rest IH]; intros w w' Hok Hrun Hops;
    simpl in Hrun.
  - by injection Hrun as <-.
  - destruct (run_op op w) as [w1|] eqn:Hop; [|done]. simpl in Hrun.
    apply Forall_cons in Hops as [Hhead Hrest].
    apply (IH w1 w'); [|done|done].
    eapply run_op_manager_ok; [done|done|].
    intros e g ->. by destruct (Hhead e g).
Qed.

(** ** Scenarios *)

Example world_one_entity_built :
  addEntity empty_world = Some (0, world_one_entity).
Proof. vm_compute. reflexivity. Qed.

(** Typed lookup of a component that was never attached reads an
    indeterminate slot. *)
Example getComponent_unattached :
  getComponent "TransformComponent" 0 world_one_entity = None.
Proof. vm_compute. reflexivity. Qed.

(** Joining the same group twice leaves two references, also after a
    compaction. *)
Example addGroup_twice_duplicates :
  result (addGroup 0 3;; addGroup 0 3;; refresh;; getGroup 3)
         world_one_entity
  = Some [0; 0].
Proof. vm_compute. reflexivity. Qed.

(** Compaction of [world_three]: entity 1 was destroyed and entity 2 left
    group 3. *)
Example refresh_world_three :
  result (refresh;;
          g3 ← getGroup 3; g5 ← getGroup 5; w ← get;
          mret (g3, g5, entities (manager w)))
         world_three
  = Some ([0], [], [0; 2]).
Proof. vm_compute. reflexivity. Qed.

(** The update pass of [world_two] calls [update()] on the destroyed
    entity 1 as well. *)
Example Manager_update_reaches_inactive :
  activity world_two 1 = Some false ∧
  result (Manager_update;; w ← get; mret (entity_updates (trace w)))
         world_two
  = Some [0; 1].
Proof. split; vm_compute; reflexivity. Qed.

(** One step never removes an entity whose active flag is set. *)
Lemma active_entity_survives_step (op : Op) (w w' : World) (E : addr) :
  run_op op w = Some w' →
  E ∈ entities (manager w) →
  activity w E = Some true →
  E ∈ entities (manager w').
Proof.
  intros Hrun Hin Hact.
  destruct (decide (E ∈ entities (manager w'))) as [|Hout]; [done|].
  destruct op; try (by eapply (run_op_keeps _ w w')).
  simpl in Hrun. apply exec_Some in Hrun as [[] Hrun].
  pose proof (refresh_removal _ _ _ Hrun Hin Hout). congruence.
Qed.

(** * Further properties of the code *)

(** ** Passes over components *)






Lemma virtual_call_inv method c w w' :
  virtual_call method c w = Some (tt, w') →
  can_call method w c = true.
Proof.
  unfold can_call, virtual_call, deref_component, store_component,
    set_component_heap.
  mrun. destruct (component_heap w !! c) as [[T cls s ent]|]; [|done].
  simpl. by destruct (method T cls s).
Qed.







(** ** Passes over entities *)












(** ** Component type identifiers *)

Lemma for_each_preserves {A} (R : World → World → Prop) (f : A → M unit)
    (l : list A) :
  (∀ w, R w w) →
  (∀ w1 w2 w3, R w1 w2 → R w2 w3 → R w1 w3) →
  (∀ x w w', f x w = Some (tt, w') → R w w') →
  ∀ w w', for_each f l w = Some (tt, w') → R w w'.
Proof.
  intros Hrefl Htrans Hf. induction l as [|x r IH]; intros w w' Hrun;
    simpl in Hrun.
  - injection Hrun as <-. apply Hrefl.
  - rewrite bind_unfold in Hrun.
    destruct (f x w) as [[[] w1]|] eqn:Hx; [|done].
    eapply Htrans; [by apply Hf in Hx|by apply IH].
Qed.

Lemma same_statics_refl w : same_statics w w.
Proof. by split. Qed.

Lemma same_statics_trans w1 w2 w3 :
  same_statics w1 w2 → same_statics w2 w3 → same_statics w1 w3.
Proof. intros [? ?] [? ?]. split; congruence. Qed.

Lemma virtual_call_statics method c w w' :
  virtual_call method c w = Some (tt, w') → same_statics w w'.
Proof.
  unfold virtual_call, deref_component, store_component, set_component_heap.
  mrun. destruct (component_heap w !! c) as [[T cls s ent]|]; [|done].
  simpl. destruct (method T cls s); simpl; [|done].
  intros [= <-]. by split.
Qed.

Lemma component_loop_statics ev method cs w w' :
  for_each (λ c, log (ev c);; virtual_call method c) cs w = Some (tt, w') →
  same_statics w w'.
Proof.
  apply for_each_preserves;
    [apply same_statics_refl|apply same_statics_trans|].
  clear. intros c w w' Hrun. rewrite bind_unfold in Hrun. simpl in Hrun.
  apply virtual_call_statics in Hrun. destruct Hrun. by split.
Qed.

Lemma Entity_update_statics p w w' :
  Entity_update p w = Some (tt, w') → same_statics w w'.
Proof.
  unfold Entity_update, deref_entity. rewrite !bind_unfold. simpl.
  destruct (entity_heap w !! p); simpl; [|done].
  apply component_loop_statics.
Qed.

Lemma Entity_draw_statics p w w' :
  Entity_draw p w = Some (tt, w') → same_statics w w'.
Proof.
  unfold Entity_draw, deref_entity. rewrite !bind_unfold. simpl.
  destruct (entity_heap w !! p); simpl; [|done].
  apply component_loop_statics.
Qed.

Lemma Manager_update_statics w w' :
  Manager_update w = Some (tt, w') → same_statics w w'.
Proof.
  unfold Manager_update. rewrite bind_unfold. simpl.
  apply for_each_preserves;
    [apply same_statics_refl|apply same_statics_trans|].
  clear. intros p w w' Hrun. rewrite bind_unfold in Hrun. simpl in Hrun.
  apply Entity_update_statics in Hrun. destruct Hrun. by split.
Qed.

Lemma Manager_draw_statics w w' :
  Manager_draw w = Some (tt, w') → same_statics w w'.
Proof.
  unfold Manager_draw. rewrite bind_unfold. simpl.
  apply for_each_preserves;
    [apply same_statics_refl|apply same_statics_trans|].
  clear. intros p w w' Hrun. rewrite bind_unfold in Hrun. simpl in Hrun.
  apply Entity_draw_statics in Hrun. destruct Hrun. by split.
Qed.

Lemma delete_entities_statics ds w w' :
  for_each delete_entity ds w = Some (tt, w') → same_statics w w'.
Proof.
  apply for_each_preserves;
    [apply same_statics_refl|apply same_statics_trans|].
  clear. intros p w w' Hrun. rewrite delete_entity_eq in Hrun.
  destruct (entity_heap w !! p); [|done]. injection Hrun as <-. by split.
Qed.

Lemma refresh_statics w w' :
  refresh w = Some (tt, w') → same_statics w w'.
Proof.
  rewrite refresh_unfold.
  destruct (refresh_groups _ _ _) as [gs|]; [|done]. simpl.
  destruct (forallb (live w) (entities (manager w))); [|done].
  intros Hrun%delete_entities_statics. destruct Hrun. by split.
Qed.

Lemma register_type_step T w :
  statics_step w (register_type T w).
Proof.
  unfold register_type.
  destruct (typeIDs w !! T) eqn:HT; [by left|]. right. by exists T.
Qed.

Lemma statics_step_same w w' : same_statics w w' → statics_step w w'.
Proof. by left. Qed.

Lemma run_op_statics (op : Op) (w w' : World) :
  run_op op w = Some w' → statics_step w w'.
Proof.
  intros Hrun.
  destruct op; simpl in Hrun; apply exec_Some in Hrun as [r Hrun];
    try (match goal with u : unit |- _ => destruct u end).
  - apply statics_step_same. by eapply Entity_update_statics.
  - apply statics_step_same. by eapply Entity_draw_statics.
  - rewrite isActive_eq in Hrun.
    destruct (entity_heap w !! e); simplify_eq/=. by left.
  - rewrite destroy_eq in Hrun.
    destruct (entity_heap w !! e); simplify_eq/=. by left.
  - rewrite hasGroup_eq in Hrun.
    destruct (entity_heap w !! e); [|done].
    destruct (g <? maxGroups); simplify_eq/=. by left.
  - rewrite addGroup_eq in Hrun.
    destruct (entity_heap w !! e); [|done].
    destruct (g <? maxGroups); simplify_eq/=. by left.
  - rewrite delGroup_eq in Hrun.
    destruct (entity_heap w !! e); [|done].
    destruct (g <? maxGroups); simplify_eq/=. by left.
  - rewrite hasComponent_eq in Hrun.
    destruct (entity_heap w !! e); [|done]. simpl in Hrun.
    destruct (_ <? maxComponents); simplify_eq/=.
    apply register_type_step.
  - rewrite addComponent_eq in Hrun.
    destruct (entity_heap w !! e) as [en|]; [|done]. simpl in Hrun.
    destruct (_ <? maxComponents); [|done].
    destruct (init v); simplify_eq/=.
    destruct (register_type_step type_name w) as [[? ?]|(T0 & ? & ? & ?)];
      [by left|right; by exists T0].
  - rewrite getComponent_eq in Hrun.
    destruct (entity_heap w !! e) as [en|]; [|done]. simpl in Hrun.
    destruct (_ <? maxComponents); [|done].
    destruct (componentArray en !! _); simplify_eq/=.
    apply register_type_step.
  - apply statics_step_same. by eapply Manager_update_statics.
  - apply statics_step_same. by eapply Manager_draw_statics.
  - apply statics_step_same. by eapply refresh_statics.
  - unfold addToGroup, set_group, set_manager in Hrun. revert Hrun. mrun.
    destruct (g <? maxGroups); simpl; [|done]. intros [= <-]. by left.
  - unfold getGroup in Hrun. revert Hrun. mrun.
    destruct (g <? maxGroups); simpl; [|done]. intros [= _ <-]. by left.
  - rewrite addEntity_eq in Hrun. simplify_eq/=. by left.
Qed.

Lemma statics_step_lookup w w' T id :
  statics_step w w' →
  typeIDs w !! T = Some id → typeIDs w' !! T = Some id.
Proof.
  intros [[_ ->]|(T0 & HT0 & _ & ->)] HT; [done|].
  rewrite lookup_insert_ne; [done|]. intros ->. congruence.
Qed.

Lemma run_ops_lookup (ops : list Op) : ∀ w w' T id,
  run_ops ops w = Some w' →
  typeIDs w !! T = Some id → typeIDs w' !! T = Some id.
Proof.
  induction ops as [|op rest IH]; intros w w' T id Hrun HT; simpl in Hrun.
  - by injection Hrun as <-.
  - destruct (run_op op w) as [w1|] eqn:Hop; [|done]. simpl in Hrun.
    apply (IH w1 w' T id Hrun).
    eapply statics_step_lookup; [by eapply run_op_statics|done].
Qed.

(** A sample run is read through what it returns. *)
Lemma run_ops_default (ops : list Op) (w : World) :
  bool_decide (is_Some (run_ops ops w)) = true →
  run_ops ops w = Some (default empty_world (run_ops ops w)).
Proof. by intros [w' ->]%bool_decide_eq_true. Qed.

Lemma run_default {A} `{EqDecision A} (m : M A) (a : A) (w : World) :
  bool_decide (result m w = Some a) = true →
  m w = Some (a, default w (exec m w)).
Proof.
  intros Hr%bool_decide_eq_true. unfold result, exec in *.
  destruct (m w) as [[a' w']|]; simplify_eq/=. done.
Qed.

(** X4. A component type keeps its identifier: once [getComponentTypeID<T>]
    has returned [id], it returns [id] after every later run of the
    public operations, and leaves the statics alone. *)
Theorem component_type_id_is_stable (ops : list Op) (w w1 w' : World)
    (T : string) (id : ComponentID) :
  getComponentTypeID T w = Some (id, w1) →
  run_ops ops w1 = Some w' →
  getComponentTypeID T w' = Some (id, w').
Proof.
  rewrite getComponentTypeID_eq. intros [= <- <-] Hrun.
  pose proof (register_type_lookup T w) as HT.
  apply (run_ops_lookup _ _ _ _ _ Hrun) in HT.
  rewrite getComponentTypeID_eq.
  by destruct (register_type_known T w' _ HT) as [-> ->].
Qed.

Lemma component_type_id_is_stable_witness :
  getComponentTypeID "TransformComponent" world_after_types
  = Some (0, world_after_types).
Proof.
  apply (component_type_id_is_stable later_ops world_two
           (default world_two
              (exec (getComponentTypeID "TransformComponent") world_two))).
  - apply run_default. vm_compute. reflexivity.
  - apply run_ops_default. vm_compute. reflexivity.
Defined.

Lemma types_ok_empty : types_ok empty_world.
Proof. split; simpl; try done. Qed.

Lemma types_ok_step w w' :
  types_ok w →
  statics_step w w' →
  lastID w + 1 < size_t_modulus →
  types_ok w' ∧ lastID w' <= lastID w + 1.
Proof.
  intros [Hbelow Hinj Hcount] [[Hl Ht]|(T0 & HT0 & Hl & Ht)] Hsmall.
  - split; [|lia]. split; rewrite ?Hl, ?Ht; done.
  - rewrite N.mod_small in Hl by done. split; [|lia].
    split; rewrite ?Hl, ?Ht.
    + intros T id. rewrite lookup_insert.
      destruct (decide (T0 = T)); [intros [= <-]; lia|].
      intros HT%Hbelow. lia.
    + intros T1 T2 id. rewrite !lookup_insert.
      destruct (decide (T0 = T1)) as [<-|], (decide (T0 = T2)) as [<-|];
        try done.
      * intros [= <-] HT%Hbelow. lia.
      * intros HT%Hbelow [= <-]. lia.
      * apply Hinj.
    + rewrite map_size_insert_None by done. lia.
Qed.

Lemma register_type_cap T w :
  typeID_of T w < maxComponents →
  lastID w <= maxComponents →
  lastID (register_type T w) <= maxComponents.
Proof.
  unfold typeID_of, register_type.
  destruct (typeIDs w !! T); simpl; [done|]. intros Hlt _.
  assert (maxComponents + 1 < size_t_modulus) by (vm_compute; reflexivity).
  rewrite N.mod_small by lia. lia.
Qed.

Lemma run_op_lastID_cap (op : Op) (w w' : World) :
  run_op op w = Some w' →
  lastID w <= maxComponents → lastID w' <= maxComponents.
Proof.
  intros Hrun Hcap.
  assert (Hreg : ∀ T, typeID_of T w < maxComponents →
                      lastID (register_type T w) <= maxComponents)
    by (intros; by apply register_type_cap).
  destruct op; simpl in Hrun; apply exec_Some in Hrun as [r Hrun];
    try (match goal with u : unit |- _ => destruct u end).
  - apply Entity_update_statics in Hrun as [-> _]. done.
  - apply Entity_draw_statics in Hrun as [-> _]. done.
  - rewrite isActive_eq in Hrun.
    destruct (entity_heap w !! e); simplify_eq/=. done.
  - rewrite destroy_eq in Hrun.
    destruct (entity_heap w !! e); simplify_eq/=. done.
  - rewrite hasGroup_eq in Hrun.
    destruct (entity_heap w !! e); [|done].
    destruct (g <? maxGroups); simplify_eq/=. done.
  - rewrite addGroup_eq in Hrun.
    destruct (entity_heap w !! e); [|done].
    destruct (g <? maxGroups); simplify_eq/=. done.
  - rewrite delGroup_eq in Hrun.
    destruct (entity_heap w !! e); [|done].
    destruct (g <? maxGroups); simplify_eq/=. done.
  - rewrite hasComponent_eq in Hrun.
    destruct (entity_heap w !! e); [|done]. simpl in Hrun.
    destruct (_ <? maxComponents) eqn:Hid; simplify_eq/=.
    by apply Hreg, N.ltb_lt.
  - rewrite addComponent_eq in Hrun.
    destruct (entity_heap w !! e) as [en|]; [|done]. simpl in Hrun.
    destruct (_ <? maxComponents) eqn:Hid; [|done].
    destruct (init v); simplify_eq/=.
    by apply Hreg, N.ltb_lt.
  - rewrite getComponent_eq in Hrun.
    destruct (entity_heap w !! e) as [en|]; [|done]. simpl in Hrun.
    destruct (_ <? maxComponents) eqn:Hid; [|done].
    destruct (componentArray en !! _); simplify_eq/=.
    by apply Hreg, N.ltb_lt.
  - apply Manager_update_statics in Hrun as [-> _]. done.
  - apply Manager_draw_statics in Hrun as [-> _]. done.
  - apply refresh_statics in Hrun as [-> _]. done.
  - unfold addToGroup, set_group, set_manager in Hrun. revert Hrun. mrun.
    destruct (g <? maxGroups); simpl; [|done]. intros [= <-]. done.
  - unfold getGroup in Hrun. revert Hrun. mrun.
    destruct (g <? maxGroups); simpl; [|done]. intros [= _ <-]. done.
  - rewrite addEntity_eq in Hrun. simplify_eq/=. done.
Qed.

Lemma run_ops_types_ok (ops : list Op) : ∀ w w',
  types_ok w →
  lastID w <= maxComponents →
  run_ops ops w = Some w' →
  types_ok w' ∧ lastID w' <= maxComponents ∧
  lastID w' <= lastID w + N.of_nat (length ops).
Proof.
  assert (maxComponents + 1 < size_t_modulus) by (vm_compute; reflexivity).
  induction ops as [|op rest IH]; intros w w' Hok Hcap Hrun;
    simpl in Hrun.
  - injection Hrun as <-. split; [done|]. split; [done|lia].
  - destruct (run_op op w) as [w1|] eqn:Hop; [|done]. simpl in Hrun.
    simpl length in *.
    destruct (types_ok_step w w1 Hok (run_op_statics _ _ _ Hop))
      as [Hok1 Hl1]; [lia|].
    destruct (IH w1 w' Hok1) as (Hok' & Hcap' & Hl');
      [by eapply run_op_lastID_cap|done|].
    split; [done|]. split; [done|lia].
Qed.

(** X5. Component type identifiers are handed out consecutively from 0 in
    the order in which the types are first used, one per type: in every
    world reached from the empty one, two distinct types have distinct
    identifiers, every identifier is below the counter, the counter is
    the number of registered types, and it has grown by at most one per
    operation and never beyond [maxComponents], so it has not wrapped. *)
Theorem component_type_ids_distinct (ops : list Op) (w : World) :
  run_ops ops empty_world = Some w →
  (∀ T1 T2 id1 id2, typeIDs w !! T1 = Some id1 →
                    typeIDs w !! T2 = Some id2 → T1 ≠ T2 → id1 ≠ id2) ∧
  (∀ T id, typeIDs w !! T = Some id → id < lastID w) ∧
  N.of_nat (size (typeIDs w)) = lastID w ∧
  lastID w <= N.of_nat (length ops) ∧
  lastID w <= maxComponents.
Proof.
  intros Hrun.
  destruct (run_ops_types_ok ops empty_world w types_ok_empty)
    as ([Hbelow Hinj Hcount] & Hcap & Hl); [done|done|].
  split; [|done].
  intros T1 T2 id1 id2 H1 H2 Hne ->. by apply Hne, (Hinj T1 T2 id2).
Qed.

Lemma component_type_ids_distinct_witness :
  (∀ T1 T2 id1 id2, typeIDs world_three_types !! T1 = Some id1 →
                    typeIDs world_three_types !! T2 = Some id2 →
                    T1 ≠ T2 → id1 ≠ id2) ∧
  (∀ T id, typeIDs world_three_types !! T = Some id →
           id < lastID world_three_types) ∧
  N.of_nat (size (typeIDs world_three_types)) = lastID world_three_types ∧
  lastID world_three_types <= N.of_nat (length three_types) ∧
  lastID world_three_types <= maxComponents.
Proof.
  apply (component_type_ids_distinct three_types world_three_types).
  apply run_ops_default. vm_compute. reflexivity.
Defined.

(** ** Capacity *)

Lemma attached_entity {T} `{cls : ComponentClass T} (v' : T) E c id e w :
  entity_heap (attached v' E c id e w) !! E
  = Some (mkEntity (active e) (components e ++ [c])
                   (<[id := c]> (componentArray e))
                   (N.setbit (componentBitSet e) id) (groupBitSet e)).
Proof. unfold attached. simpl. by rewrite lookup_insert_eq. Qed.

Lemma attach_n_spec {T} `{cls : ComponentClass T} (v v' : T) (E : addr)
    (n : nat) : ∀ (e : Entity) (w : World),
  entity_heap w !! E = Some e →
  typeID_of type_name w < maxComponents →
  init v = Some v' →
  ∃ cs w' e',
    attach_n v E n w = Some (cs, w') ∧
    length cs = n ∧
    (∀ c, c ∈ cs → component_heap w !! c = None) ∧
    NoDup cs ∧
    (∀ c, c ∈ cs → component_heap w' !! c
                   = Some (mkComponent T cls v' (Some E))) ∧
    (∀ c, is_Some (component_heap w !! c) →
          component_heap w' !! c = component_heap w !! c) ∧
    entity_heap w' !! E = Some e' ∧
    components e' = components e ++ cs ∧
    typeID_of type_name w' = typeID_of type_name w ∧
    (n ≠ O → getComponent type_name E w' = (λ c, (c, w')) <$> last cs).
Proof.
  induction n as [|n IH]; intros e w HE Hid Hinit.
  - exists [], w, e. simpl. rewrite app_nil_r.
    repeat split; try done.
    + by intros c ?%elem_of_nil.
    + constructor.
    + by intros c ?%elem_of_nil.
  - simpl. rewrite bind_unfold.
    rewrite (addComponent_returns v v' E e w) by done.
    set (c := fresh (dom (component_heap w))).
    set (w1 := attached v' E c (typeID_of type_name w) e w).
    destruct (attached_known v' E c e w) as [Hreg Hsame].
    fold w1 in Hreg, Hsame.
    destruct (IH _ w1 (attached_entity v' E c _ e w))
      as (cs & w' & e' & Hrun & Hlen & Hfresh & Hnd & Hobj & Hold & HE'
            & Hcs & Hid' & Hget); [by rewrite Hsame|done|].
    rewrite bind_unfold, Hrun. simpl.
    assert (Hc1 : component_heap w1 !! c
                  = Some (mkComponent T cls v' (Some E))).
    { unfold w1, attached. simpl. by rewrite lookup_insert_eq. }
    assert (Hcnotin : c ∉ cs).
    { intros Hin. apply Hfresh in Hin. congruence. }
    exists (c :: cs), w', e'.
    split; [done|]. split; [simpl; by rewrite Hlen|].
    split.
    { intros c0 [->|Hc0]%elem_of_cons; [apply fresh_component_unused|].
      apply Hfresh in Hc0. unfold w1, attached in Hc0. simpl in Hc0.
      apply lookup_insert_None in Hc0. tauto. }
    split; [by constructor|].
    split.
    { intros c0 [->|Hc0]%elem_of_cons; [|by apply Hobj].
      rewrite Hold; [done|]. rewrite Hc1. eauto. }
    split.
    { intros c0 Hc0.
      assert (Hne : c ≠ c0).
      { intros <-. unfold c in Hc0.
        rewrite fresh_component_unused in Hc0. by destruct Hc0. }
      rewrite Hold.
      - unfold w1, attached. simpl. by rewrite lookup_insert_ne.
      - unfold w1, attached. simpl. by rewrite lookup_insert_ne. }
    split; [done|].
    split; [rewrite Hcs; simpl; by rewrite <- app_assoc|].
    split; [congruence|].
    intros _. destruct n as [|n].
    + simpl in Hrun. injection Hrun as <- <-. simpl.
      by apply attached_getComponent.
    + rewrite Hget by done. destruct cs as [|c0 cs0]; [done|]. done.
Qed.

(** X6. [maxComponents] does not bound how many components an entity
    owns: [addComponent<T>] can be called on the same entity any number
    [n] of times for one type [T].  The entity then owns [n] more
    objects, all distinct and live, in the order of the calls, and
    [getComponent<T>()] returns the last one. *)
Theorem attach_same_type_unbounded {T} `{cls : ComponentClass T} (v v' : T)
    (E : addr) (e : Entity) (w : World) (n : nat) :
  entity_heap w !! E = Some e →
  typeID_of type_name w < maxComponents →
  init v = Some v' →
  ∃ cs w' e',
    attach_n v E n w = Some (cs, w') ∧
    length cs = n ∧
    NoDup cs ∧
    (∀ c, c ∈ cs → component_heap w' !! c
                   = Some (mkComponent T cls v' (Some E))) ∧
    entity_heap w' !! E = Some e' ∧
    components e' = components e ++ cs ∧
    (n ≠ O → getComponent type_name E w' = (λ c, (c, w')) <$> last cs).
Proof.
  intros HE Hid Hinit.
  destruct (attach_n_spec v v' E n e w HE Hid Hinit)
    as (cs & w' & e' & Hrun & Hlen & _ & Hnd & Hobj & _ & HE' & Hcs & _
          & Hget).
  exists cs, w', e'. done.
Qed.

Lemma attach_same_type_unbounded_witness :
  ∃ cs w' e',
    attach_n (cls := Component_base) tt 0 40 world_one_entity
      = Some (cs, w') ∧
    length cs = 40%nat ∧
    NoDup cs ∧
    (∀ c, c ∈ cs → component_heap w' !! c
                   = Some (mkComponent unit Component_base tt (Some 0))) ∧
    entity_heap w' !! 0 = Some e' ∧
    components e' = components Entity_new ++ cs ∧
    (40%nat ≠ O → getComponent "Component" 0 w' = (λ c, (c, w')) <$> last cs).
Proof.
  apply (attach_same_type_unbounded (cls := Component_base) tt tt 0
           Entity_new world_one_entity 40); reflexivity.
Defined.

(** X7. The capacity that counts is the number of distinct component
    types of the whole program.  In every world reached from the empty
    one, a typed operation on a live entity is defined exactly when its
    type is already registered or fewer than [maxComponents] types are:
    with the 33rd type [hasComponent] and [addComponent] index the bit
    set and the array out of range, on any entity, also one that owns no
    component. *)
Theorem component_type_capacity {T} `{cls : ComponentClass T} (v : T)
    (ops : list Op) (w : World) (E : addr) (e : Entity) :
  run_ops ops empty_world = Some w →
  entity_heap w !! E = Some e →
  (is_Some (hasComponent type_name E w) ↔
   is_Some (typeIDs w !! type_name) ∨
   N.of_nat (size (typeIDs w)) < maxComponents) ∧
  (is_Some (addComponent v E w) ↔
   is_Some (init v) ∧
   (is_Some (typeIDs w !! type_name) ∨
    N.of_nat (size (typeIDs w)) < maxComponents)).
Proof.
  intros Hrun HE.
  destruct (run_ops_types_ok ops empty_world w types_ok_empty)
    as ([Hbelow _ Hcount] & Hcap & _); [done|done|].
  assert (Hid : typeID_of type_name w < maxComponents ↔
                is_Some (typeIDs w !! type_name) ∨
                N.of_nat (size (typeIDs w)) < maxComponents).
  { rewrite Hcount. unfold typeID_of.
    destruct (typeIDs w !! type_name) as [i|] eqn:HT; simpl.
    - apply Hbelow in HT. split; [eauto|]. intros _. lia.
    - split; [by right|]. intros [[? ?]|?]; done. }
  rewrite hasComponent_eq, addComponent_eq, HE. simpl.
  rewrite <- Hid.
  destruct (typeID_of type_name w <? maxComponents) eqn:Hlt.
  - apply N.ltb_lt in Hlt. split; [split; eauto|].
    destruct (init v); split.
    + eauto.
    + eauto.
    + by intros [? ?].
    + by intros [[? ?] _].
  - apply N.ltb_ge in Hlt. split; split.
    + by intros [? ?].
    + lia.
    + by intros [? ?].
    + lia.
Qed.

Lemma component_type_capacity_witness :
  (is_Some (hasComponent "TransformComponent" 0 world_types_used_up) ↔
   is_Some (typeIDs world_types_used_up !! "TransformComponent") ∨
   N.of_nat (size (typeIDs world_types_used_up)) < maxComponents) ∧
  (is_Some (addComponent transform_a 0 world_types_used_up) ↔
   is_Some (init (ComponentClass := TransformComponent_class) transform_a) ∧
   (is_Some (typeIDs world_types_used_up !! "TransformComponent") ∨
    N.of_nat (size (typeIDs world_types_used_up)) < maxComponents)).
Proof.
  apply (component_type_capacity (cls := TransformComponent_class)
           transform_a thirty_two_queries world_types_used_up 0 Entity_new).
  - apply run_ops_default. vm_compute. reflexivity.
  - vm_compute. reflexivity.
Defined.

(** ** The worlds the interface builds *)

Lemma same_info_refl w : same_info w w.
Proof. by intros c. Qed.

Lemma same_info_trans w1 w2 w3 :
  same_info w1 w2 → same_info w2 w3 → same_info w1 w3.
Proof. intros H1 H2 c. by rewrite H2, H1. Qed.

Lemma virtual_call_info method c w w' :
  virtual_call method c w = Some (tt, w') → same_info w w'.
Proof.
  unfold virtual_call, deref_component, store_component, set_component_heap.
  mrun. destruct (component_heap w !! c) as [[T cls s ent]|] eqn:Hc; [|done].
  simpl. destruct (method T cls s); simpl; [|done].
  intros [= <-] c'. unfold comp_info. simpl. rewrite lookup_insert.
  destruct (decide (c = c')) as [<-|]; [|done]. by rewrite Hc.
Qed.

Lemma component_loop_info ev method cs w w' :
  for_each (λ c, log (ev c);; virtual_call method c) cs w = Some (tt, w') →
  same_info w w'.
Proof.
  apply for_each_preserves; [apply same_info_refl|apply same_info_trans|].
  clear. intros c w w' Hrun. rewrite bind_unfold in Hrun. simpl in Hrun.
  apply virtual_call_info in Hrun. intros c'. by rewrite Hrun.
Qed.

Lemma Entity_update_info p w w' :
  Entity_update p w = Some (tt, w') → same_info w w'.
Proof.
  unfold Entity_update, deref_entity. rewrite !bind_unfold. simpl.
  destruct (entity_heap w !! p); simpl; [|done].
  apply component_loop_info.
Qed.

Lemma Entity_draw_info p w w' :
  Entity_draw p w = Some (tt, w') → same_info w w'.
Proof.
  unfold Entity_draw, deref_entity. rewrite !bind_unfold. simpl.
  destruct (entity_heap w !! p); simpl; [|done].
  apply component_loop_info.
Qed.

Lemma Manager_update_info w w' :
  Manager_update w = Some (tt, w') → same_info w w'.
Proof.
  unfold Manager_update. rewrite bind_unfold. simpl.
  apply for_each_preserves; [apply same_info_refl|apply same_info_trans|].
  clear. intros p w w' Hrun. rewrite bind_unfold in Hrun. simpl in Hrun.
  apply Entity_update_info in Hrun. intros c. by rewrite Hrun.
Qed.

Lemma Manager_draw_info w w' :
  Manager_draw w = Some (tt, w') → same_info w w'.
Proof.
  unfold Manager_draw. rewrite bind_unfold. simpl.
  apply for_each_preserves; [apply same_info_refl|apply same_info_trans|].
  clear. intros p w w' Hrun. rewrite bind_unfold in Hrun. simpl in Hrun.
  apply Entity_draw_info in Hrun. intros c. by rewrite Hrun.
Qed.

Lemma typed_at_transfer w w' p c id :
  (∀ T i, typeIDs w !! T = Some i → typeIDs w' !! T = Some i) →
  comp_info w' c = comp_info w c →
  typed_at w p c id → typed_at w' p c id.
Proof.
  intros Hty Hinfo (T & Hc & HT). exists T. rewrite Hinfo. auto.
Qed.

Lemma entity_ok_transfer w w' p e e' :
  entity_ok w p e →
  components e' = components e →
  componentArray e' = componentArray e →
  componentBitSet e' = componentBitSet e →
  (∀ T i, typeIDs w !! T = Some i → typeIDs w' !! T = Some i) →
  (∀ c, c ∈ components e → comp_info w' c = comp_info w c) →
  (∀ g, N.testbit (groupBitSet e') g = true →
        g < maxGroups ∧ p ∈ getGroupIndex (manager w') g) →
  entity_ok w' p e'.
Proof.
  intros [Hnd Hty Hsl Hbits Hgr] Hcs Harr Hbs Htypes Hinfo Hgroups.
  split; rewrite ?Hcs, ?Harr, ?Hbs; try done.
  - intros c Hc. destruct (Hty c Hc) as (id & Ht & Hid & Hbit).
    exists id. split; [|done].
    apply (typed_at_transfer w); [done|by apply Hinfo|done].
  - intros id c Hslot.
    destruct (Hsl id c Hslot) as (l1 & l2 & Hsplit & Ht & Hl2).
    exists l1, l2. split; [done|].
    assert (Hin : ∀ c', c' ∈ c :: l2 → c' ∈ components e).
    { intros c' Hc'. rewrite Hsplit. apply elem_of_app. by right. }
    split.
    + apply (typed_at_transfer w); [done| |done].
      apply Hinfo, Hin, list_elem_of_here.
    + intros c' Hc'. destruct (Hl2 c' Hc') as (id' & Ht' & Hne).
      exists id'. split; [|done].
      apply (typed_at_transfer w); [done| |done].
      by apply Hinfo, Hin, list_elem_of_further.
Qed.

Lemma world_ok_frame w w' :
  world_ok w → manager_ok w' → types_ok w' → lastID w' <= maxComponents →
  (∀ T i, typeIDs w !! T = Some i → typeIDs w' !! T = Some i) →
  (∀ c, is_Some (comp_info w c) → comp_info w' c = comp_info w c) →
  (∀ g p, p ∈ getGroupIndex (manager w) g →
          p ∈ getGroupIndex (manager w') g) →
  (∀ p, p ∈ entities (manager w) → p ∈ entities (manager w')) →
  (∀ p e', entity_heap w' !! p = Some e' →
           entity_heap w !! p = Some e' ∨
           (p ∈ entities (manager w') ∧ entity_ok w' p e')) →
  world_ok w'.
Proof.
  intros [Hm Ht Hcap Hown Hents] Hm' Ht' Hcap' Htypes Hinfo Hidx Hin Hheap.
  split; try done.
  - intros p [e' He']. destruct (Hheap p e' He') as [Hold|[? _]]; [|done].
    apply Hin, Hown. eauto.
  - intros p e' He'. destruct (Hheap p e' He') as [Hold|[_ ?]]; [|done].
    apply (entity_ok_transfer w w' p e' e'); try done.
    + by apply Hents.
    + intros c Hc. apply Hinfo.
      destruct (comps_typed _ _ _ (Hents p e' Hold) c Hc)
        as (id & (T & -> & _) & _). eauto.
    + intros g Hg.
      destruct (groups_indexed _ _ _ (Hents p e' Hold) g Hg).
      split; [done|]. by apply Hidx.
Qed.

Lemma world_ok_same w w' :
  world_ok w → manager_ok w' → types_ok w' → lastID w' <= maxComponents →
  (∀ T i, typeIDs w !! T = Some i → typeIDs w' !! T = Some i) →
  same_entities w w' → same_info w w' →
  world_ok w'.
Proof.
  intros Hok Hm' Ht' Hcap' Htypes [Hm Hh] Hinfo.
  apply (world_ok_frame w w' Hok Hm' Ht' Hcap' Htypes).
  - intros c _. apply Hinfo.
  - intros g p. by rewrite Hm.
  - intros p. by rewrite Hm.
  - intros p e'. rewrite Hh. by left.
Qed.

Lemma world_ok_store w w' E e e' :
  world_ok w → manager_ok w' → types_ok w' → lastID w' <= maxComponents →
  (∀ T i, typeIDs w !! T = Some i → typeIDs w' !! T = Some i) →
  entity_heap w !! E = Some e →
  entity_heap w' = <[E := e']> (entity_heap w) →
  component_heap w' = component_heap w →
  entities (manager w') = entities (manager w) →
  (∀ g p, p ∈ getGroupIndex (manager w) g →
          p ∈ getGroupIndex (manager w') g) →
  components e' = components e →
  componentArray e' = componentArray e →
  componentBitSet e' = componentBitSet e →
  (∀ g, N.testbit (groupBitSet e') g = true →
        N.testbit (groupBitSet e) g = true ∨
        (g < maxGroups ∧ E ∈ getGroupIndex (manager w') g)) →
  world_ok w'.
Proof.
  intros Hok Hm' Ht' Hcap' Htypes HE Hh Hc Hents Hidx Hcs Harr Hbs Hgr.
  assert (Hinfo : ∀ c, comp_info w' c = comp_info w c).
  { intros c. unfold comp_info. by rewrite Hc. }
  apply (world_ok_frame w w' Hok Hm' Ht' Hcap' Htypes).
  - intros c _. apply Hinfo.
  - exact Hidx.
  - intros p. by rewrite Hents.
  - intros p e0. rewrite Hh, lookup_insert.
    destruct (decide (E = p)) as [<-|]; [|by left].
    intros [= <-]. right. split.
    { rewrite Hents. apply (ok_owned _ Hok). eauto. }
    pose proof (ok_entities _ Hok E e HE) as HeOK.
    apply (entity_ok_transfer w w' E e e'); try done.
    intros g Hg. destruct (Hgr g Hg) as [Hold|?]; [|done].
    destruct (groups_indexed _ _ _ HeOK g Hold). split; [done|].
    by apply Hidx.
Qed.

Lemma comp_info_live w c :
  is_Some (comp_info w c) ↔ is_Some (component_heap w !! c).
Proof. unfold comp_info. by rewrite fmap_is_Some. Qed.

Lemma owned_live w p e c :
  entity_ok w p e → c ∈ components e → is_Some (component_heap w !! c).
Proof.
  intros Hok Hc. apply comp_info_live.
  destruct (comps_typed _ _ _ Hok c Hc) as (id & (T & -> & _) & _). eauto.
Qed.

Lemma entity_ok_attached {T} `{cls : ComponentClass T} (v' : T) E e w :
  entity_ok w E e →
  typeID_of type_name w < maxComponents →
  let c := fresh (dom (component_heap w)) in
  let id := typeID_of type_name w in
  entity_ok (attached v' E c id e w) E
    (mkEntity (active e) (components e ++ [c]) (<[id := c]> (componentArray e))
              (N.setbit (componentBitSet e) id) (groupBitSet e)).
Proof.
  intros HeOK Hid c id. set (w' := attached v' E c id e w).
  assert (Hfresh : c ∉ components e).
  { intros Hc. apply (owned_live w E e) in Hc; [|done].
    unfold c in Hc. rewrite fresh_component_unused in Hc. by destruct Hc. }
  assert (Htypes : ∀ T0 i, typeIDs w !! T0 = Some i →
                           typeIDs w' !! T0 = Some i).
  { intros T0 i. apply statics_step_lookup.
    destruct (register_type_step type_name w) as [[? ?]|(T1 & ? & ? & ?)];
      [by left|right; by exists T1]. }
  assert (Hinfo : ∀ c0, c0 ∈ components e → comp_info w' c0 = comp_info w c0).
  { intros c0 Hc0. unfold comp_info, w', attached. simpl.
    rewrite lookup_insert_ne; [done|]. by intros <-. }
  assert (Hnew : typed_at w' E c id).
  { exists type_name. split.
    - unfold comp_info, w', attached. simpl. by rewrite lookup_insert_eq.
    - apply register_type_lookup. }
  assert (Hold : ∀ c0 i, c0 ∈ components e → typed_at w E c0 i →
                         typed_at w' E c0 i).
  { intros c0 i Hc0. apply typed_at_transfer; [done|by apply Hinfo]. }
  destruct HeOK as [Hnd Hty Hsl Hbits Hgr].
  split; simpl.
  - apply NoDup_app. split; [done|]. split; [|apply NoDup_singleton].
    intros c0 Hc0 ->%list_elem_of_singleton. done.
  - intros c0 [Hc0| ->%list_elem_of_singleton]%elem_of_app.
    + destruct (Hty c0 Hc0) as (i & Ht & Hi & Hbit). exists i.
      split; [by apply Hold|]. split; [done|].
      rewrite N.setbit_eqb, Hbit. apply orb_true_r.
    + exists id. split; [done|]. split; [done|].
      rewrite N.setbit_eqb, N.eqb_refl. done.
  - intros i c0. rewrite lookup_insert.
    destruct (decide (id = i)) as [<-|Hne].
    + intros [= <-]. exists (components e), []. split; [done|].
      split; [done|]. by intros c' ?%elem_of_nil.
    + intros Hslot.
      destruct (Hsl i c0 Hslot) as (l1 & l2 & Hsplit & Ht & Hl2).
      exists l1, (l2 ++ [c]). split.
      { rewrite Hsplit. by rewrite <- app_assoc. }
      assert (Hin : ∀ c', c' ∈ c0 :: l2 → c' ∈ components e).
      { intros c' Hc'. rewrite Hsplit. apply elem_of_app. by right. }
      split; [apply Hold; [apply Hin, list_elem_of_here|done]|].
      intros c' [Hc'| ->%list_elem_of_singleton]%elem_of_app.
      * destruct (Hl2 c' Hc') as (i' & Ht' & Hne'). exists i'.
        split; [|done]. apply Hold; [|done].
        by apply Hin, list_elem_of_further.
      * exists id. done.
  - intros i. rewrite N.setbit_eqb, lookup_insert.
    destruct (decide (id = i)) as [<-|Hne].
    + rewrite N.eqb_refl. simpl. split; eauto.
    + apply N.eqb_neq in Hne. rewrite Hne. simpl. apply Hbits.
  - intros g Hg. apply (Hgr g Hg).
Qed.

Lemma foldr_delete_lookup (h : gmap addr Component) (l : list addr) c :
  foldr (λ c h, delete c h) h l !! c
  = if decide (c ∈ l) then None else h !! c.
Proof.
  induction l as [|x l IH]; cbn [foldr].
  - rewrite decide_False; [done|]. apply not_elem_of_nil.
  - destruct (decide (x = c)) as [->|Hne].
    + rewrite lookup_delete_eq, decide_True; [done|]. apply list_elem_of_here.
    + rewrite lookup_delete_ne by done. rewrite IH.
      destruct (decide (c ∈ l)) as [Hin|Hout].
      * rewrite decide_True; [done|]. by apply list_elem_of_further.
      * rewrite decide_False; [done|].
        intros [->|?]%elem_of_cons; done.
Qed.

Lemma delete_entities_released ds w w' c :
  for_each delete_entity ds w = Some (tt, w') →
  component_heap w !! c = None → component_heap w' !! c = None.
Proof.
  intros Hrun. revert c. revert w w' Hrun.
  apply (for_each_preserves
           (λ w w', ∀ c, component_heap w !! c = None →
                         component_heap w' !! c = None)).
  { done. }
  { intros w1 w2 w3 H1 H2 c Hc. by apply H2, H1. }
  intros p w w' Hrun c Hc. rewrite delete_entity_eq in Hrun.
  destruct (entity_heap w !! p) as [e|]; [|done]. injection Hrun as <-.
  simpl. rewrite foldr_delete_lookup. by case_decide.
Qed.

Lemma delete_entities_components ds : ∀ w w',
  for_each delete_entity ds w = Some (tt, w') →
  (∀ c, (∀ d e, d ∈ ds → entity_heap w !! d = Some e → c ∉ components e) →
        component_heap w' !! c = component_heap w !! c) ∧
  (∀ c d e, d ∈ ds → entity_heap w !! d = Some e → c ∈ components e →
            component_heap w' !! c = None).
Proof.
  induction ds as [|d0 r IH]; intros w w' Hrun; simpl in Hrun.
  - injection Hrun as <-. split; [done|]. by intros c d e ?%elem_of_nil.
  - unfold mbind, M_bind, bind in Hrun.
    destruct (delete_entity d0 w) as [[[] w1]|] eqn:Hdel; [|done].
    pose proof (λ c, delete_entities_released _ _ _ c Hrun) as Hrel.
    destruct (IH _ _ Hrun) as [Hkeep Hgone].
    rewrite delete_entity_eq in Hdel.
    destruct (entity_heap w !! d0) as [e0|] eqn:Hd0; [|done].
    injection Hdel as <-. simpl in *. split.
    + intros c Hc. rewrite Hkeep.
      * rewrite foldr_delete_lookup.
        case_decide as Hin; [|done].
        destruct (Hc d0 e0); [apply list_elem_of_here|done|done].
      * intros d e Hd He. apply lookup_delete_Some in He as [Hne He].
        apply (Hc d e); [by apply list_elem_of_further|done].
    + intros c d e Hd He Hc.
      destruct (decide (d = d0)) as [->|Hne].
      * apply Hrel. rewrite foldr_delete_lookup.
        rewrite Hd0 in He. injection He as <-.
        by case_decide.
      * apply elem_of_cons in Hd as [->|Hd]; [done|].
        apply (Hgone c d e); [done| |done].
        by rewrite lookup_delete_ne.
Qed.

Lemma refresh_components w w' :
  refresh w = Some (tt, w') →
  (∀ c, (∀ d e, d ∈ entities (manager w) → entity_heap w !! d = Some e →
                active e = false → c ∉ components e) →
        component_heap w' !! c = component_heap w !! c) ∧
  (∀ c d e, d ∈ entities (manager w) → entity_heap w !! d = Some e →
            active e = false → c ∈ components e →
            component_heap w' !! c = None).
Proof.
  rewrite refresh_unfold.
  destruct (refresh_groups _ _ _) as [gs|]; [|done]. simpl.
  destruct (forallb (live w) (entities (manager w))); [|done].
  intros [Hkeep Hgone]%delete_entities_components. simpl in *. split.
  - intros c Hc. apply Hkeep.
    intros d e [Hd Hdead]%filter_elem_of He. apply (Hc d e); [done..|].
    unfold dead in Hdead. rewrite He in Hdead. by destruct (active e).
  - intros c d e Hd He Hact Hc. apply (Hgone c d e); [|done..].
    apply filter_elem_of. split; [done|]. unfold dead. by rewrite He, Hact.
Qed.

(** What [refresh] does to the heaps of a well-formed world. *)
Lemma refresh_heaps w w' :
  world_ok w →
  refresh w = Some (tt, w') →
  entities (manager w')
  = List.filter (λ p, negb (dead w p)) (entities (manager w)) ∧
  (∀ g, g < maxGroups →
        getGroupIndex (manager w') g
        = List.filter (λ p, negb (stale w g p))
                      (getGroupIndex (manager w) g)) ∧
  (∀ p e, entity_heap w !! p = Some e → active e = true →
          entity_heap w' !! p = Some e ∧
          ∀ c, c ∈ components e →
               component_heap w' !! c = component_heap w !! c) ∧
  (∀ p e, entity_heap w !! p = Some e → active e = false →
          entity_heap w' !! p = None ∧
          ∀ c, c ∈ components e → component_heap w' !! c = None) ∧
  (∀ p, entity_heap w !! p = None → entity_heap w' !! p = None) ∧
  trace w' = trace w.
Proof.
  intros Hok Hrun.
  destruct (refresh_spec w (ok_manager _ Hok))
    as (w'' & Hrun' & Hents & Hgs & Hgone & Hkept & Htr).
  rewrite Hrun in Hrun'. injection Hrun' as <-.
  destruct (refresh_components w w' Hrun) as [Hckeep Hcgone].
  split; [done|]. split; [done|]. split; [|split; [|split; [|done]]].
  - intros p e Hp Hact. split.
    + rewrite Hkept; [done|]. intros [_ Hd]. unfold dead in Hd.
      rewrite Hp, Hact in Hd. done.
    + intros c Hc. apply Hckeep. intros d ed Hd Hed Hdead Hcd.
      destruct (comps_typed _ _ _ (ok_entities _ Hok p e Hp) c Hc)
        as (i & (T & Hi & _) & _).
      destruct (comps_typed _ _ _ (ok_entities _ Hok d ed Hed) c Hcd)
        as (i' & (T' & Hi' & _) & _).
      rewrite Hi in Hi'. injection Hi' as _ <-. congruence.
  - intros p e Hp Hact.
    assert (Hin : p ∈ entities (manager w)) by (apply (ok_owned _ Hok); eauto).
    split.
    + apply Hgone; [done|]. unfold dead. by rewrite Hp, Hact.
    + intros c Hc. by apply (Hcgone c p e).
  - intros p Hp. rewrite Hkept; [done|]. intros [Hin _].
    destruct (entities_live _ (ok_manager _ Hok) p Hin). congruence.
Qed.

Lemma world_ok_refresh w w' :
  world_ok w → refresh w = Some (tt, w') → world_ok w'.
Proof.
  intros Hok Hrun.
  destruct (refresh_heaps w w' Hok Hrun)
    as (Hents & Hgs & Hact & Hdead & Hnone & _).
  destruct (refresh_statics w w' Hrun) as [Hl Ht].
  assert (Hback : ∀ p e, entity_heap w' !! p = Some e →
                         entity_heap w !! p = Some e ∧ active e = true).
  { intros p e Hp. destruct (entity_heap w !! p) as [e0|] eqn:Hp0.
    - destruct (active e0) eqn:Ha.
      + destruct (Hact p e0 Hp0 Ha) as [Hp' _]. split; congruence.
      + destruct (Hdead p e0 Hp0 Ha) as [Hp' _]. congruence.
    - apply Hnone in Hp0. congruence. }
  split.
  - apply (manager_ok_refresh w w'); [apply Hok|done].
  - destruct (ok_types _ Hok) as [Hb Hi Hc]. split; rewrite ?Hl, ?Ht; done.
  - rewrite Hl. apply Hok.
  - intros p [e [Hp Ha]%Hback]. rewrite Hents. apply filter_elem_of.
    split; [apply (ok_owned _ Hok); eauto|].
    unfold dead. by rewrite Hp, Ha.
  - intros p e [Hp Ha]%Hback.
    apply (entity_ok_transfer w w' p e e); try done.
    + by apply Hok.
    + intros T i. by rewrite Ht.
    + intros c Hc. unfold comp_info.
      destruct (Hact p e Hp Ha) as [_ Hcs]. by rewrite Hcs.
    + intros g Hg.
      destruct (groups_indexed _ _ _ (ok_entities _ Hok p e Hp) g Hg)
        as [Hlt Hin].
      split; [done|]. rewrite Hgs by done. apply filter_elem_of.
      split; [done|]. unfold stale. by rewrite Hp, Ha, Hg.
Qed.

Lemma run_op_world_ok (op : Op) (w w' : World) :
  world_ok w →
  run_op op w = Some w' →
  (∀ e g, op = OpAddToGroup e g → is_Some (entity_heap w !! e)) →
  world_ok w'.
Proof.
  intros Hok Hrun Harg.
  assert (Hm' : manager_ok w')
    by (eapply run_op_manager_ok; [apply Hok|done..]).
  pose proof (run_op_statics op w w' Hrun) as Hst.
  pose proof (run_op_lastID_cap op w w' Hrun (ok_capacity _ Hok)) as Hcap'.
  assert (Ht' : types_ok w').
  { apply (types_ok_step w w' (ok_types _ Hok) Hst).
    pose proof (ok_capacity _ Hok).
    assert (maxComponents + 1 < size_t_modulus) by (vm_compute; reflexivity).
    lia. }
  pose proof (λ T i, statics_step_lookup w w' T i Hst) as Htypes.
  assert (Hreg : ∀ T, w' = register_type T w → world_ok w').
  { intros T Hw. apply (world_ok_same w); try done.
    - rewrite Hw. unfold register_type.
      by destruct (typeIDs w !! T).
    - intros c. rewrite Hw. unfold comp_info, register_type.
      by destruct (typeIDs w !! T). }
  destruct op; simpl in Hrun; apply exec_Some in Hrun as [r Hrun];
    try (match goal with u : unit |- _ => destruct u end).
  - apply (world_ok_same w); try done.
    + by eapply Entity_update_same_entities.
    + by eapply Entity_update_info.
  - apply (world_ok_same w); try done.
    + by eapply Entity_draw_same_entities.
    + by eapply Entity_draw_info.
  - rewrite isActive_eq in Hrun.
    destruct (entity_heap w !! e); simplify_eq/=. done.
  - rewrite destroy_eq in Hrun.
    destruct (entity_heap w !! e) as [en|] eqn:He; simplify_eq/=.
    eapply (world_ok_store w _ e en); try done. simpl. by left.
  - rewrite hasGroup_eq in Hrun.
    destruct (entity_heap w !! e); [|done].
    destruct (g <? maxGroups); simplify_eq/=. done.
  - rewrite addGroup_eq in Hrun.
    destruct (entity_heap w !! e) as [en|] eqn:He; [|done].
    destruct (g <? maxGroups) eqn:Hg; simplify_eq/=.
    apply N.ltb_lt in Hg.
    assert (Hidx : ∀ g0 p, p ∈ getGroupIndex (manager w) g0 →
              p ∈ getGroupIndex
                    (mkManager (entities (manager w))
                       (<[g := getGroupIndex (manager w) g ++ [e]]>
                          (groupedEntities (manager w)))) g0).
    { intros g0 p Hp. destruct (decide (g0 = g)) as [->|Hne].
      - rewrite getGroupIndex_insert. apply elem_of_app. by left.
      - by rewrite getGroupIndex_insert_ne. }
    eapply (world_ok_store w _ e en); try done. simpl.
    intros g0. rewrite N.setbit_eqb.
    destruct (g =? g0) eqn:Hgg; simpl; [|by left].
    apply N.eqb_eq in Hgg as <-. intros _. right. split; [done|].
    rewrite getGroupIndex_insert. apply elem_of_app. right.
    apply list_elem_of_here.
  - rewrite delGroup_eq in Hrun.
    destruct (entity_heap w !! e) as [en|] eqn:He; [|done].
    destruct (g <? maxGroups); simplify_eq/=.
    eapply (world_ok_store w _ e en); try done. simpl.
    intros g0. rewrite N.clearbit_eqb. intros [? _]%andb_true_iff.
    by left.
  - rewrite hasComponent_eq in Hrun.
    destruct (entity_heap w !! e); [|done]. simpl in Hrun.
    destruct (_ <? maxComponents); simplify_eq/=. by eapply Hreg.
  - rewrite addComponent_eq in Hrun.
    destruct (entity_heap w !! e) as [en|] eqn:He; [|done]. simpl in Hrun.
    destruct (_ <? maxComponents) eqn:Hid; [|done].
    apply N.ltb_lt in Hid.
    destruct (init v) as [v'|]; simplify_eq/=.
    apply (world_ok_frame w); try done.
    + intros c Hc. unfold comp_info, attached. simpl.
      rewrite lookup_insert_ne; [done|]. intros <-.
      apply comp_info_live in Hc.
      rewrite fresh_component_unused in Hc. by destruct Hc.
    + intros p e'. unfold attached at 1. simpl. rewrite lookup_insert.
      destruct (decide (e = p)) as [<-|]; [|by left].
      intros [= <-]. right. split.
      { apply (ok_owned _ Hok). eauto. }
      apply entity_ok_attached; [by apply Hok|done].
  - rewrite getComponent_eq in Hrun.
    destruct (entity_heap w !! e) as [en|]; [|done]. simpl in Hrun.
    destruct (_ <? maxComponents); [|done].
    destruct (componentArray en !! _); simplify_eq/=. by eapply Hreg.
  - apply (world_ok_same w); try done.
    + by eapply Manager_update_same_entities.
    + by eapply Manager_update_info.
  - apply (world_ok_same w); try done.
    + by eapply Manager_draw_same_entities.
    + by eapply Manager_draw_info.
  - by apply (world_ok_refresh w).
  - unfold addToGroup, set_group, set_manager in Hrun. revert Hrun. mrun.
    destruct (g <? maxGroups); simpl; [|done]. intros [= <-].
    apply (world_ok_frame w _ Hok Hm' Ht' Hcap' Htypes).
    + intros c _. reflexivity.
    + intros g0 p Hp. simpl. destruct (decide (g0 = g)) as [->|Hne].
      * rewrite getGroupIndex_insert. apply elem_of_app. by left.
      * rewrite getGroupIndex_insert_ne by done.
        by destruct (manager w).
    + intros p Hp. exact Hp.
    + intros p e' He'. left. exact He'.
  - unfold getGroup in Hrun. revert Hrun. mrun.
    destruct (g <? maxGroups); simpl; [|done]. intros [= _ <-]. done.
  - rewrite addEntity_eq in Hrun. simplify_eq/=.
    apply (world_ok_frame w _ Hok Hm' Ht' Hcap' Htypes).
    + intros c _. reflexivity.
    + intros g0 p Hp. exact Hp.
    + intros p Hp. simpl. apply elem_of_app. by left.
    + intros p e'. simpl. rewrite lookup_insert.
      case_decide as Heq; [subst p|by left].
      intros [= <-]. right. split.
      { apply elem_of_app. right. apply list_elem_of_here. }
      split; simpl.
      * constructor.
      * by intros c ?%elem_of_nil.
      * intros i c. by rewrite lookup_empty.
      * intros i. rewrite ?N.bits_0, lookup_empty. split; [done|].
        by intros [? ?].
      * intros g. rewrite ?N.bits_0. done.
Qed.

Lemma world_ok_empty : world_ok empty_world.
Proof.
  split.
  - apply manager_ok_empty.
  - apply types_ok_empty.
  - done.
  - intros p [e He]. simpl in He. by rewrite lookup_empty in He.
  - intros p e He. simpl in He. by rewrite lookup_empty in He.
Qed.

Lemma run_ops_world_ok (ops : list Op) : ∀ w w',
  world_ok w →
  run_ops ops w = Some w' →
  entity_ops ops = true →
  world_ok w'.
Proof.
  induction ops as [|op rest IH]; intros w w' Hok Hrun Hops;
    simpl in Hrun.
  - by injection Hrun as <-.
  - destruct (run_op op w) as [w1|] eqn:Hop; [|done]. simpl in Hrun.
    simpl in Hops. apply andb_true_iff in Hops as [Hop1 Hrest].
    apply (IH w1 w'); [|done..].
    apply (run_op_world_ok op w w1 Hok Hop).
    intros e g ->. done.
Qed.

Lemma comp_info_Some w c T p :
  comp_info w c = Some (T, p) ↔
  ∃ o, component_heap w !! c = Some o ∧ class_name o = T ∧ entity o = p.
Proof.
  unfold comp_info. destruct (component_heap w !! c) as [o|]; simpl.
  - split.
    + intros [= <- <-]. eauto.
    + by intros (o' & [= <-] & <- & <-).
  - split; [done|]. by intros (o' & ? & _).
Qed.

(** A registered identifier names one class, and the identifier a query
    for [T] computes is registered only if [T] is. *)
Lemma typeID_of_registered w T T0 :
  types_ok w →
  typeIDs w !! T0 = Some (typeID_of T w) →
  T0 = T ∧ register_type T w = w.
Proof.
  intros [Hbelow Hinj _] H0. unfold typeID_of, register_type in *.
  destruct (typeIDs w !! T) as [i|] eqn:HT; simpl in H0.
  - split; [|done]. by apply (Hinj T0 T i).
  - apply Hbelow in H0. lia.
Qed.

Lemma world_ok_getComponent w T E c w' :
  world_ok w →
  getComponent T E w = Some (c, w') →
  w' = w ∧
  ∃ e l1 l2,
    entity_heap w !! E = Some e ∧ components e = l1 ++ c :: l2 ∧
    comp_info w c = Some (T, Some E) ∧
    ∀ c', c' ∈ l2 → ∃ T', comp_info w c' = Some (T', Some E) ∧ T' ≠ T.
Proof.
  intros Hok. rewrite getComponent_eq.
  destruct (entity_heap w !! E) as [e|] eqn:HE; [|done]. simpl.
  destruct (_ <? maxComponents); [|done].
  destruct (componentArray e !! _) as [c0|] eqn:Hslot; [|done].
  simpl. intros [= <- <-].
  destruct (slots_latest _ _ _ (ok_entities _ Hok E e HE) _ _ Hslot)
    as (l1 & l2 & Hsplit & (T0 & Hinfo & HT0) & Hl2).
  destruct (typeID_of_registered w T T0 (ok_types _ Hok) HT0) as [-> Hreg].
  split; [done|]. exists e, l1, l2. split; [done|]. split; [done|].
  split; [done|].
  intros c' Hc'. destruct (Hl2 c' Hc') as (i' & (T' & Hinfo' & HT') & Hne).
  exists T'. split; [done|]. intros ->. congruence.
Qed.

Lemma world_ok_hasComponent w T E e b w' :
  world_ok w →
  entity_heap w !! E = Some e →
  hasComponent T E w = Some (b, w') →
  b = true ↔ ∃ c, c ∈ components e ∧ comp_info w c = Some (T, Some E).
Proof.
  intros Hok HE. rewrite hasComponent_eq, HE. simpl.
  destruct (_ <? maxComponents); [|done]. intros [= <- <-].
  pose proof (ok_entities _ Hok E e HE) as HeOK. split.
  - intros Hbit. apply (bits_slots _ _ _ HeOK) in Hbit as [c Hslot].
    destruct (slots_latest _ _ _ HeOK _ _ Hslot)
      as (l1 & l2 & Hsplit & (T0 & Hinfo & HT0) & _).
    destruct (typeID_of_registered w T T0 (ok_types _ Hok) HT0) as [-> _].
    exists c. split; [|done]. rewrite Hsplit. apply elem_of_app. right.
    apply list_elem_of_here.
  - intros (c & Hc & Hinfo).
    destruct (comps_typed _ _ _ HeOK c Hc)
      as (i & (T0 & Hinfo0 & HT0) & _ & Hbit).
    rewrite Hinfo in Hinfo0. injection Hinfo0 as <-.
    unfold typeID_of. by rewrite HT0.
Qed.

Lemma world_ok_exclusive w p q e e' c :
  world_ok w →
  entity_heap w !! p = Some e → entity_heap w !! q = Some e' →
  c ∈ components e → c ∈ components e' → p = q.
Proof.
  intros Hok Hp Hq Hc Hc'.
  destruct (comps_typed _ _ _ (ok_entities _ Hok p e Hp) c Hc)
    as (i & (T & Hi & _) & _).
  destruct (comps_typed _ _ _ (ok_entities _ Hok q e' Hq) c Hc')
    as (i' & (T' & Hi' & _) & _).
  rewrite Hi in Hi'. by injection Hi' as _ <-.
Qed.



(** ** Typed lookup *)

(** X8. [getComponent<T>()] is type safe in every world built through
    the interface: the pointer it returns refers to a live component of
    class [T] whose back pointer is the entity asked, it is one of the
    components the entity owns, and no component of class [T] was
    attached to the entity after it.  The call changes nothing. *)
Theorem getComponent_returns_latest_of_type (ops : list Op) (w w' : World)
    (T : string) (E c : addr) :
  run_ops ops empty_world = Some w →
  entity_ops ops = true →
  getComponent T E w = Some (c, w') →
  w' = w ∧
  ∃ e o l1 l2,
    entity_heap w !! E = Some e ∧ components e = l1 ++ c :: l2 ∧
    component_heap w !! c = Some o ∧ class_name o = T ∧
    entity o = Some E ∧
    ∀ c' o', c' ∈ l2 → component_heap w !! c' = Some o' →
             class_name o' ≠ T.
Proof.
  intros Hrun Hops Hget.
  pose proof (run_ops_world_ok ops _ _ world_ok_empty Hrun Hops) as Hok.
  destruct (world_ok_getComponent w T E c w' Hok Hget)
    as (-> & e & l1 & l2 & HE & Hsplit & Hinfo & Hl2).
  apply comp_info_Some in Hinfo as (o & Ho & Hcls & Hent).
  split; [done|]. exists e, o, l1, l2. repeat (split; [done|]).
  intros c' o' Hc' Ho'. destruct (Hl2 c' Hc') as (T' & Hinfo' & Hne).
  apply comp_info_Some in Hinfo' as (o2 & Ho2 & <- & _). congruence.
Qed.

Lemma getComponent_returns_latest_of_type_witness :
  default world_three_types
    (exec (getComponent "TransformComponent" 0) world_three_types)
  = world_three_types ∧
  ∃ e o l1 l2,
    entity_heap world_three_types !! 0 = Some e ∧
    components e = l1 ++ 2 :: l2 ∧
    component_heap world_three_types !! 2 = Some o ∧
    class_name o = "TransformComponent" ∧
    entity o = Some 0 ∧
    ∀ c' o', c' ∈ l2 → component_heap world_three_types !! c' = Some o' →
             class_name o' ≠ "TransformComponent".
Proof.
  apply (getComponent_returns_latest_of_type three_types
           world_three_types _ "TransformComponent" 0 2).
  - apply run_ops_default. vm_compute. reflexivity.
  - vm_compute. reflexivity.
  - apply run_default. vm_compute. reflexivity.
Defined.

(** X9. In every world built through the interface, [hasComponent<T>()]
    answers true exactly when the entity owns a live component of class
    [T] that points back to it. *)
Theorem hasComponent_iff_owned (ops : list Op) (w w' : World)
    (T : string) (E : addr) (e : Entity) (b : bool) :
  run_ops ops empty_world = Some w →
  entity_ops ops = true →
  entity_heap w !! E = Some e →
  hasComponent T E w = Some (b, w') →
  b = true ↔
  ∃ c o, c ∈ components e ∧ component_heap w !! c = Some o ∧
         class_name o = T ∧ entity o = Some E.
Proof.
  intros Hrun Hops HE Hhas.
  pose proof (run_ops_world_ok ops _ _ world_ok_empty Hrun Hops) as Hok.
  rewrite (world_ok_hasComponent w T E e b w' Hok HE Hhas).
  split.
  - intros (c & Hc & (o & ? & ? & ?)%comp_info_Some). by exists c, o.
  - intros (c & o & Hc & Ho & Hcls & Hent). exists c. split; [done|].
    apply comp_info_Some. by exists o.
Qed.

Lemma hasComponent_iff_owned_witness :
  true = true ↔
  ∃ c o, c ∈ [0; 1; 2] ∧ component_heap world_three_types !! c = Some o ∧
         class_name o = "Component" ∧ entity o = Some 0.
Proof.
  apply (hasComponent_iff_owned three_types world_three_types
           (default world_three_types
              (exec (hasComponent "Component" 0) world_three_types))
           "Component" 0
           (mkEntity true [0; 1; 2] (<[0 := 2]> (<[2 := 1]> (<[0 := 0]> ∅)))
                     5 0) true).
  - apply run_ops_default. vm_compute. reflexivity.
  - vm_compute. reflexivity.
  - vm_compute. reflexivity.
  - apply run_default. vm_compute. reflexivity.
Defined.

(** ** Ownership *)

Lemma no_leak_same w w' :
  no_leak w → same_entities w w' → same_info w w' → no_leak w'.
Proof.
  intros Hnl [_ Hh] Hinfo c o' Ho'.
  assert (Hi : comp_info w' c = Some (class_name o', entity o'))
    by (unfold comp_info; by rewrite Ho').
  rewrite Hinfo in Hi. apply comp_info_Some in Hi as (o & Ho & _ & Hent).
  destruct (Hnl c o Ho) as (p & e & Hp & He & Hc).
  exists p, e. rewrite Hh. split; [congruence|done].
Qed.

Lemma no_leak_store w w' E e e' :
  no_leak w →
  entity_heap w !! E = Some e →
  entity_heap w' = <[E := e']> (entity_heap w) →
  component_heap w' = component_heap w →
  (∀ c, c ∈ components e → c ∈ components e') →
  no_leak w'.
Proof.
  intros Hnl HE Hh Hc Hcs c o. rewrite Hc. intros Ho.
  destruct (Hnl c o Ho) as (p & e0 & Hp & He0 & Hin).
  rewrite Hh. destruct (decide (E = p)) as [<-|Hne].
  - exists E, e'. rewrite lookup_insert_eq. split; [done|]. split; [done|].
    apply Hcs. congruence.
  - exists p, e0. by rewrite lookup_insert_ne.
Qed.

Lemma delete_entities_no_alloc ds w w' c o :
  for_each delete_entity ds w = Some (tt, w') →
  component_heap w' !! c = Some o → component_heap w !! c = Some o.
Proof.
  intros Hrun. revert c o. revert w w' Hrun.
  apply (for_each_preserves
           (λ w w', ∀ c o, component_heap w' !! c = Some o →
                           component_heap w !! c = Some o)).
  { done. }
  { intros w1 w2 w3 H1 H2 c o Hc. by apply H1, H2. }
  intros p w w' Hrun c o. rewrite delete_entity_eq in Hrun.
  destruct (entity_heap w !! p) as [e|]; [|done]. injection Hrun as <-.
  simpl. rewrite foldr_delete_lookup. by case_decide.
Qed.

Lemma refresh_no_alloc w w' c o :
  refresh w = Some (tt, w') →
  component_heap w' !! c = Some o → component_heap w !! c = Some o.
Proof.
  rewrite refresh_unfold.
  destruct (refresh_groups _ _ _) as [gs|]; [|done]. simpl.
  destruct (forallb (live w) (entities (manager w))); [|done].
  intros Hrun Hc. by apply (delete_entities_no_alloc _ _ _ _ _ Hrun) in Hc.
Qed.

Lemma run_op_no_leak (op : Op) (w w' : World) :
  world_ok w → no_leak w →
  run_op op w = Some w' →
  no_leak w'.
Proof.
  intros Hok Hnl Hrun.
  assert (Hreg : ∀ T, w' = register_type T w → no_leak w').
  { intros T ->. unfold register_type.
    by destruct (typeIDs w !! T). }
  destruct op; simpl in Hrun; apply exec_Some in Hrun as [r Hrun];
    try (match goal with u : unit |- _ => destruct u end).
  - apply (no_leak_same w); [done| |].
    + by eapply Entity_update_same_entities.
    + by eapply Entity_update_info.
  - apply (no_leak_same w); [done| |].
    + by eapply Entity_draw_same_entities.
    + by eapply Entity_draw_info.
  - rewrite isActive_eq in Hrun.
    destruct (entity_heap w !! e); simplify_eq/=. done.
  - rewrite destroy_eq in Hrun.
    destruct (entity_heap w !! e) as [en|] eqn:He; simplify_eq/=.
    by eapply (no_leak_store w _ e en).
  - rewrite hasGroup_eq in Hrun.
    destruct (entity_heap w !! e); [|done].
    destruct (g <? maxGroups); simplify_eq/=. done.
  - rewrite addGroup_eq in Hrun.
    destruct (entity_heap w !! e) as [en|] eqn:He; [|done].
    destruct (g <? maxGroups) eqn:Hg; simplify_eq/=.
    by eapply (no_leak_store w _ e en).
  - rewrite delGroup_eq in Hrun.
    destruct (entity_heap w !! e) as [en|] eqn:He; [|done].
    destruct (g <? maxGroups); simplify_eq/=.
    by eapply (no_leak_store w _ e en).
  - rewrite hasComponent_eq in Hrun.
    destruct (entity_heap w !! e); [|done]. simpl in Hrun.
    destruct (_ <? maxComponents); simplify_eq/=. by eapply Hreg.
  - rewrite addComponent_eq in Hrun.
    destruct (entity_heap w !! e) as [en|] eqn:He; [|done]. simpl in Hrun.
    destruct (_ <? maxComponents) eqn:Hid; [|done].
    destruct (init v) as [v'|]; simplify_eq/=.
    intros c o. unfold attached. simpl. rewrite lookup_insert.
    case_decide as Hne; [subst c|].
    + intros [= <-]. simpl. eexists e, _. rewrite lookup_insert_eq.
      split; [done|]. split; [done|]. simpl. apply elem_of_app. right.
      apply list_elem_of_here.
    + intros Ho. destruct (Hnl c o Ho) as (p & e0 & Hp & He0 & Hin).
      destruct (decide (e = p)) as [<-|Hne'].
      * eexists e, _. rewrite lookup_insert_eq.
        split; [done|]. split; [done|]. simpl. apply elem_of_app. left.
        congruence.
      * exists p, e0. by rewrite lookup_insert_ne.
  - rewrite getComponent_eq in Hrun.
    destruct (entity_heap w !! e) as [en|]; [|done]. simpl in Hrun.
    destruct (_ <? maxComponents); [|done].
    destruct (componentArray en !! _); simplify_eq/=. by eapply Hreg.
  - apply (no_leak_same w); [done| |].
    + by eapply Manager_update_same_entities.
    + by eapply Manager_update_info.
  - apply (no_leak_same w); [done| |].
    + by eapply Manager_draw_same_entities.
    + by eapply Manager_draw_info.
  - destruct (refresh_heaps w w' Hok Hrun)
      as (_ & _ & Hact & Hdead & _ & _).
    intros c o Ho. pose proof (refresh_no_alloc _ _ _ _ Hrun Ho) as Ho0.
    destruct (Hnl c o Ho0) as (p & e0 & Hp & He0 & Hin).
    destruct (active e0) eqn:Ha.
    + destruct (Hact p e0 He0 Ha) as [Hp' _]. by exists p, e0.
    + destruct (Hdead p e0 He0 Ha) as [_ Hgone].
      rewrite (Hgone c Hin) in Ho. done.
  - unfold addToGroup, set_group, set_manager in Hrun. revert Hrun. mrun.
    destruct (g <? maxGroups); simpl; [|done]. intros [= <-]. done.
  - unfold getGroup in Hrun. revert Hrun. mrun.
    destruct (g <? maxGroups); simpl; [|done]. intros [= _ <-]. done.
  - rewrite addEntity_eq in Hrun. simplify_eq/=.
    intros c o Ho. simpl in Ho.
    destruct (Hnl c o Ho) as (p & e0 & Hp & He0 & Hin).
    exists p, e0. simpl. split; [done|]. split; [|done].
    rewrite lookup_insert_ne; [done|]. intros <-.
    pose proof (is_fresh (dom (entity_heap w))) as Hf.
    apply Hf, elem_of_dom. eauto.
Qed.

Lemma run_ops_no_leak (ops : list Op) : ∀ w w',
  world_ok w → no_leak w →
  run_ops ops w = Some w' →
  entity_ops ops = true →
  no_leak w'.
Proof.
  induction ops as [|op rest IH]; intros w w' Hok Hnl Hrun Hops;
    simpl in Hrun.
  - by injection Hrun as <-.
  - destruct (run_op op w) as [w1|] eqn:Hop; [|done]. simpl in Hrun.
    simpl in Hops. apply andb_true_iff in Hops as [Hop1 Hrest].
    apply (IH w1 w'); [| |done..].
    + apply (run_op_world_ok op w w1 Hok Hop). intros e g ->. done.
    + by apply (run_op_no_leak op w w1).
Qed.

Lemma no_leak_empty : no_leak empty_world.
Proof. intros c o Ho. simpl in Ho. by rewrite lookup_empty in Ho. Qed.

Lemma world_ok_owner w p e c :
  world_ok w → entity_heap w !! p = Some e → c ∈ components e →
  ∃ o, component_heap w !! c = Some o ∧ entity o = Some p.
Proof.
  intros Hok Hp Hc.
  destruct (comps_typed _ _ _ (ok_entities _ Hok p e Hp) c Hc)
    as (i & (T & (o & Ho & _ & Hent)%comp_info_Some & _) & _).
  by exists o.
Qed.

(** X10. The heaps hold what the Manager owns and nothing else.  In every
    world built through the interface the live entities are those of
    the primary collection; an entity owns distinct live components,
    each pointing back to it; and every live component is owned by the
    live entity it points back to, and by that one only. *)
Theorem heap_is_what_the_manager_owns (ops : list Op) (w : World) :
  run_ops ops empty_world = Some w →
  entity_ops ops = true →
  (∀ p, is_Some (entity_heap w !! p) ↔ p ∈ entities (manager w)) ∧
  NoDup (entities (manager w)) ∧
  (∀ p e, entity_heap w !! p = Some e →
     NoDup (components e) ∧
     ∀ c, c ∈ components e →
          ∃ o, component_heap w !! c = Some o ∧ entity o = Some p) ∧
  (∀ c o, component_heap w !! c = Some o →
     ∃ p e, entity o = Some p ∧ entity_heap w !! p = Some e ∧
            c ∈ components e ∧
            ∀ q e', entity_heap w !! q = Some e' → c ∈ components e' →
                    q = p).
Proof.
  intros Hrun Hops.
  pose proof (run_ops_world_ok ops _ _ world_ok_empty Hrun Hops) as Hok.
  pose proof (run_ops_no_leak ops _ _ world_ok_empty no_leak_empty Hrun Hops)
    as Hnl.
  split; [|split; [|split]].
  - intros p. split; [apply Hok|]. apply (entities_live _ (ok_manager _ Hok)).
  - apply (entities_nodup _ (ok_manager _ Hok)).
  - intros p e Hp. split.
    + apply (comps_nodup _ _ _ (ok_entities _ Hok p e Hp)).
    + intros c Hc. by apply (world_ok_owner w p e c).
  - intros c o Ho. destruct (Hnl c o Ho) as (p & e & Hent & Hp & Hc).
    exists p, e. repeat (split; [done|]).
    intros q e' Hq Hc'. by apply (world_ok_exclusive w q p e' e c).
Qed.

Lemma heap_is_what_the_manager_owns_witness :
  (∀ p, is_Some (entity_heap world_frame !! p) ↔
        p ∈ entities (manager world_frame)) ∧
  NoDup (entities (manager world_frame)) ∧
  (∀ p e, entity_heap world_frame !! p = Some e →
     NoDup (components e) ∧
     ∀ c, c ∈ components e →
          ∃ o, component_heap world_frame !! c = Some o ∧
               entity o = Some p) ∧
  (∀ c o, component_heap world_frame !! c = Some o →
     ∃ p e, entity o = Some p ∧ entity_heap world_frame !! p = Some e ∧
            c ∈ components e ∧
            ∀ q e', entity_heap world_frame !! q = Some e' →
                    c ∈ components e' → q = p).
Proof.
  apply (heap_is_what_the_manager_owns frame_ops world_frame).
  - apply run_ops_default. vm_compute. reflexivity.
  - vm_compute. reflexivity.
Defined.





(** ** Compaction *)

(** X12. In a world built through the interface [refresh()] always
    returns, and it releases exactly the inactive: an active entity
    keeps its fields and every component it owns, in place; an inactive
    entity is released with every component it owns; the primary
    collection keeps the active entities in their order; nothing is
    allocated, and the type identifiers and the trace stay as they
    were. *)
Theorem refresh_releases_the_inactive (ops : list Op) (w : World) :
  run_ops ops empty_world = Some w →
  entity_ops ops = true →
  ∃ w',
    refresh w = Some (tt, w') ∧
    entities (manager w')
    = List.filter (λ p, negb (dead w p)) (entities (manager w)) ∧
    (∀ p e, entity_heap w !! p = Some e → active e = true →
            entity_heap w' !! p = Some e ∧
            ∀ c, c ∈ components e →
                 component_heap w' !! c = component_heap w !! c) ∧
    (∀ p e, entity_heap w !! p = Some e → active e = false →
            entity_heap w' !! p = None ∧
            ∀ c, c ∈ components e → component_heap w' !! c = None) ∧
    (∀ p, entity_heap w !! p = None → entity_heap w' !! p = None) ∧
    (∀ c, component_heap w !! c = None → component_heap w' !! c = None) ∧
    lastID w' = lastID w ∧ typeIDs w' = typeIDs w ∧ trace w' = trace w.
Proof.
  intros Hrun Hops.
  pose proof (run_ops_world_ok ops _ _ world_ok_empty Hrun Hops) as Hok.
  destruct (refresh_spec w (ok_manager _ Hok)) as (w' & Hre & _).
  destruct (refresh_heaps w w' Hok Hre)
    as (Hents & _ & Hact & Hdead & Hnone & Htr).
  destruct (refresh_statics w w' Hre) as [Hl Ht].
  exists w'. repeat (split; [done|]). split; [|done].
  intros c Hc. destruct (component_heap w' !! c) as [o|] eqn:Ho; [|done].
  apply (refresh_no_alloc w w' c o Hre) in Ho. congruence.
Qed.

Lemma refresh_releases_the_inactive_witness :
  ∃ w',
    refresh world_frame = Some (tt, w') ∧
    entities (manager w')
    = List.filter (λ p, negb (dead world_frame p))
                  (entities (manager world_frame)) ∧
    (∀ p e, entity_heap world_frame !! p = Some e → active e = true →
            entity_heap w' !! p = Some e ∧
            ∀ c, c ∈ components e →
                 component_heap w' !! c = component_heap world_frame !! c) ∧
    (∀ p e, entity_heap world_frame !! p = Some e → active e = false →
            entity_heap w' !! p = None ∧
            ∀ c, c ∈ components e → component_heap w' !! c = None) ∧
    (∀ p, entity_heap world_frame !! p = None → entity_heap w' !! p = None) ∧
    (∀ c, component_heap world_frame !! c = None →
          component_heap w' !! c = None) ∧
    lastID w' = lastID world_frame ∧ typeIDs w' = typeIDs world_frame ∧
    trace w' = trace world_frame.
Proof.
  apply (refresh_releases_the_inactive frame_ops world_frame).
  - apply run_ops_default. vm_compute. reflexivity.
  - vm_compute. reflexivity.
Defined.

Lemma world_ok_group_index w w' g p :
  world_ok w → refresh w = Some (tt, w') → g < maxGroups →
  p ∈ getGroupIndex (manager w') g ↔
  ∃ e, entity_heap w' !! p = Some e ∧ active e = true ∧
       N.testbit (groupBitSet e) g = true.
Proof.
  intros Hok Hre Hg.
  destruct (refresh_heaps w w' Hok Hre)
    as (_ & Hgs & Hact & Hdead & Hnone & _).
  rewrite (Hgs g Hg), filter_elem_of. split.
  - intros [Hin Hst].
    destruct (groups_live _ (ok_manager _ Hok) g p Hg Hin) as [e He].
    unfold stale in Hst. rewrite He in Hst.
    apply negb_true_iff, orb_false_iff in Hst as [Ha Hb].
    apply negb_false_iff in Ha, Hb.
    exists e. split; [|done]. by apply (Hact p e He Ha).
  - intros (e & He' & Ha & Hb).
    assert (He : entity_heap w !! p = Some e).
    { destruct (entity_heap w !! p) as [e0|] eqn:Hp0.
      - destruct (active e0) eqn:Ha0.
        + destruct (Hact p e0 Hp0 Ha0) as [Hp' _]. congruence.
        + destruct (Hdead p e0 Hp0 Ha0) as [Hp' _]. congruence.
      - apply Hnone in Hp0. congruence. }
    split.
    + by apply (groups_indexed _ _ _ (ok_entities _ Hok p e He) g Hb).
    + unfold stale. by rewrite He, Ha, Hb.
Qed.

(** X13. After [refresh()] in a world built through the interface, the
    index of a group lists exactly the entities that are live, active
    and claim the group: [getGroup(g)] contains [p] if and only if
    [p->isActive()] and [p->hasGroup(g)] both answer true. *)
Theorem getGroup_after_refresh (ops : list Op) (w w' : World) (g : Group)
    (p : addr) :
  run_ops ops empty_world = Some w →
  entity_ops ops = true →
  refresh w = Some (tt, w') →
  g < maxGroups →
  ∃ l, getGroup g w' = Some (l, w') ∧
       (p ∈ l ↔ isActive p w' = Some (true, w') ∧
                hasGroup p g w' = Some (true, w')).
Proof.
  intros Hrun Hops Hre Hg.
  pose proof (run_ops_world_ok ops _ _ world_ok_empty Hrun Hops) as Hok.
  exists (getGroupIndex (manager w') g). split; [by apply getGroup_eq|].
  rewrite (world_ok_group_index w w' g p Hok Hre Hg).
  rewrite isActive_eq, hasGroup_eq.
  apply N.ltb_lt in Hg. split.
  - intros (e & He & Ha & Hb). rewrite He. simpl. by rewrite Hg, Ha, Hb.
  - destruct (entity_heap w' !! p) as [e|]; simpl; [|by intros [? _]].
    rewrite Hg. intros [[= Ha] [= Hb]]. by exists e.
Qed.

Lemma getGroup_after_refresh_witness :
  ∃ l, getGroup 3 (default world_frame (exec refresh world_frame))
       = Some (l, default world_frame (exec refresh world_frame)) ∧
       (0 ∈ l ↔
        isActive 0 (default world_frame (exec refresh world_frame))
        = Some (true, default world_frame (exec refresh world_frame)) ∧
        hasGroup 0 3 (default world_frame (exec refresh world_frame))
        = Some (true, default world_frame (exec refresh world_frame))).
Proof.
  apply (getGroup_after_refresh frame_ops world_frame
           (default world_frame (exec refresh world_frame)) 3 0).
  - apply run_ops_default. vm_compute. reflexivity.
  - vm_compute. reflexivity.
  - apply run_default. vm_compute. reflexivity.
  - vm_compute. reflexivity.
Defined.

Lemma refresh_groups_keys w idx : ∀ gs gs',
  refresh_groups w idx gs = Some gs' →
  ∀ i, i ∈ idx ∨ is_Some (gs !! i) → is_Some (gs' !! i).
Proof.
  induction idx as [|i rest IH]; intros gs gs' Hrun j Hj; simpl in Hrun.
  - injection Hrun as <-. destruct Hj as [?%elem_of_nil|?]; done.
  - destruct (forallb _ _); [|done].
    apply (IH _ _ Hrun j).
    destruct (decide (j = i)) as [->|Hne].
    + right. rewrite lookup_insert_eq. eauto.
    + destruct Hj as [[->|?]%elem_of_cons|?]; [done|by left|].
      right. by rewrite lookup_insert_ne.
Qed.

Lemma refresh_groups_fixed w idx : ∀ gs,
  (∀ i, i ∈ idx →
        ∃ v, gs !! i = Some v ∧ forallb (live w) v = true ∧
             List.filter (λ p, negb (stale w i p)) v = v) →
  refresh_groups w idx gs = Some gs.
Proof.
  induction idx as [|i rest IH]; intros gs Hfix; simpl; [done|].
  destruct (Hfix i) as (v & Hv & Hlive & Hkeep); [apply list_elem_of_here|].
  rewrite Hv. simpl. rewrite Hlive, Hkeep, insert_id by done.
  apply IH. intros j Hj. apply Hfix. by apply list_elem_of_further.
Qed.

Lemma filter_all {A} (f : A → bool) (l : list A) :
  (∀ x, x ∈ l → f x = true) → List.filter f l = l.
Proof.
  induction l as [|x l IH]; intros Hall; simpl; [done|].
  rewrite (Hall x) by apply list_elem_of_here.
  f_equal. apply IH. intros y Hy. by apply Hall, list_elem_of_further.
Qed.

Lemma filter_none {A} (f : A → bool) (l : list A) :
  (∀ x, x ∈ l → f x = false) → List.filter f l = [].
Proof.
  induction l as [|x l IH]; intros Hall; simpl; [done|].
  rewrite (Hall x) by apply list_elem_of_here.
  apply IH. intros y Hy. by apply Hall, list_elem_of_further.
Qed.

Lemma world_ok_refresh_twice w w' :
  world_ok w → refresh w = Some (tt, w') → refresh w' = Some (tt, w').
Proof.
  intros Hok Hre.
  pose proof (world_ok_refresh w w' Hok Hre) as Hok'.
  destruct (refresh_heaps w w' Hok Hre) as (Hents & _ & Hact & _ & _ & _).
  assert (Hkeys : ∀ i, i ∈ group_range →
                       is_Some (groupedEntities (manager w') !! i)).
  { revert Hre. rewrite refresh_unfold.
    destruct (refresh_groups _ _ _) as [gs|] eqn:Hgs; [|done]. simpl.
    destruct (forallb (live w) (entities (manager w))); [|done].
    intros (Hm & _)%delete_entities_frame. rewrite Hm. simpl.
    intros i Hi. apply (refresh_groups_keys _ _ _ _ Hgs). by left. }
  assert (Hactive : ∀ p, p ∈ entities (manager w') → dead w' p = false).
  { intros p. rewrite Hents. intros [Hin Hd]%filter_elem_of.
    destruct (entities_live _ (ok_manager _ Hok) p Hin) as [e He].
    unfold dead in Hd |- *. rewrite He in Hd.
    apply negb_true_iff, negb_false_iff in Hd.
    destruct (Hact p e He Hd) as [-> _]. by rewrite Hd. }
  rewrite refresh_unfold.
  rewrite (refresh_groups_fixed w' group_range).
  - simpl.
    assert (Hall : forallb (live w') (entities (manager w')) = true).
    { apply forallb_live, (entities_live _ (ok_manager _ Hok')). }
    rewrite Hall, filter_none, filter_all.
    + simpl. unfold ret. by destruct w' as [? ? ? ? [? ?] ?].
    + intros p Hp. by rewrite (Hactive p Hp).
    + intros p Hp. by apply Hactive.
  - intros i Hi. destruct (Hkeys i Hi) as [v Hv]. exists v.
    split; [done|].
    assert (Hidx : getGroupIndex (manager w') i = v)
      by (unfold getGroupIndex; by rewrite Hv).
    apply group_range_elem in Hi. split.
    + apply forallb_live. intros p Hp.
      apply (groups_live _ (ok_manager _ Hok') i p Hi). by rewrite Hidx.
    + apply filter_all. intros p Hp. rewrite <- Hidx in Hp.
      apply (world_ok_group_index w w' i p Hok Hre Hi) in Hp
        as (e & He & Ha & Hb).
      unfold stale. by rewrite He, Ha, Hb.
Qed.

(** X14. [refresh()] is idempotent on the worlds built through the
    interface: a second call right after the first returns and changes
    nothing, neither the collections nor the heaps. *)
Theorem refresh_is_idempotent (ops : list Op) (w w' : World) :
  run_ops ops empty_world = Some w →
  entity_ops ops = true →
  refresh w = Some (tt, w') →
  refresh w' = Some (tt, w').
Proof.
  intros Hrun Hops Hre.
  pose proof (run_ops_world_ok ops _ _ world_ok_empty Hrun Hops) as Hok.
  by apply (world_ok_refresh_twice w).
Qed.

Lemma refresh_is_idempotent_witness :
  refresh (default world_frame (exec refresh world_frame))
  = Some (tt, default world_frame (exec refresh world_frame)).
Proof.
  apply (refresh_is_idempotent frame_ops world_frame).
  - apply run_ops_default. vm_compute. reflexivity.
  - vm_compute. reflexivity.
  - apply run_default. vm_compute. reflexivity.
Defined.

(** ** Leaving a group *)

(** X15. [delGroup] is deferred.  For a live entity [E] it clears the
    membership bit at once, so that [hasGroup(g)] answers false, but
    leaves the Manager and hence the index of [g] alone.  The next
    [refresh()] returns and drops every reference to [E] from the index
    of [g]; the primary collection and the other indices come out as if
    [delGroup] had not been called, and an active [E] stays live with
    only that bit changed. *)
Theorem delGroup_takes_effect_at_refresh (w : World) (E : addr) (e : Entity)
    (g : Group) :
  manager_ok w →
  entity_heap w !! E = Some e →
  g < maxGroups →
  ∃ w1 w2,
    delGroup E g w = Some (tt, w1) ∧
    hasGroup E g w1 = Some (false, w1) ∧
    manager w1 = manager w ∧
    refresh w1 = Some (tt, w2) ∧
    entities (manager w2)
    = List.filter (λ p, negb (dead w p)) (entities (manager w)) ∧
    getGroupIndex (manager w2) g
    = List.filter (λ p, negb (stale w g p) && negb (p =? E))
                  (getGroupIndex (manager w) g) ∧
    (∀ g', g' < maxGroups → g' ≠ g →
           getGroupIndex (manager w2) g'
           = List.filter (λ p, negb (stale w g' p))
                         (getGroupIndex (manager w) g')) ∧
    (active e = true →
     entity_heap w2 !! E
     = Some (mkEntity true (components e) (componentArray e)
                      (componentBitSet e) (N.clearbit (groupBitSet e) g))).
Proof.
  intros Hok HE Hg. apply N.ltb_lt in Hg as Hgb.
  rewrite delGroup_eq, HE, Hgb.
  set (e1 := mkEntity _ _ _ _ _).
  set (w1 := with_entity_heap _ w).
  assert (HE1 : entity_heap w1 !! E = Some e1)
    by (unfold w1; simpl; by rewrite lookup_insert_eq).
  assert (Hother : ∀ p, p ≠ E → entity_heap w1 !! p = entity_heap w !! p)
    by (intros p Hp; unfold w1; simpl; by rewrite lookup_insert_ne).
  assert (Hdead : ∀ p, dead w1 p = dead w p).
  { intros p. unfold dead. destruct (decide (p = E)) as [->|Hne].
    - by rewrite HE1, HE.
    - by rewrite Hother. }
  assert (Hstale : ∀ g' p, stale w1 g' p
                    = if decide (g' = g ∧ p = E) then true
                      else stale w g' p).
  { intros g' p. unfold stale. destruct (decide (p = E)) as [->|Hne].
    - rewrite HE1, HE. simpl. rewrite N.clearbit_eqb.
      destruct (decide (g' = g)) as [->|Hneg].
      + rewrite decide_True by done. rewrite N.eqb_refl. simpl.
        by rewrite andb_false_r, orb_true_r.
      + rewrite decide_False by tauto.
        assert ((g =? g') = false) as -> by (apply N.eqb_neq; congruence).
        simpl. by rewrite andb_true_r.
    - rewrite Hother by done. rewrite decide_False by tauto. done. }
  assert (Hok1 : manager_ok w1)
    by (apply manager_ok_store; [eauto|done]).
  destruct (refresh_spec w1 Hok1)
    as (w2 & Hre & Hents & Hgs & _ & Hkept & _).
  exists w1, w2. split; [done|]. split.
  { rewrite hasGroup_eq, HE1, Hgb. simpl.
    by rewrite N.clearbit_eqb, N.eqb_refl, andb_false_r. }
  split; [done|]. split; [done|]. split.
  { rewrite Hents. apply filter_ext. intros p. by rewrite Hdead. }
  split.
  { rewrite (Hgs g Hg). apply filter_ext. intros p. rewrite Hstale.
    destruct (decide (p = E)) as [->|Hne].
    - rewrite decide_True by done. rewrite N.eqb_refl. simpl.
      by rewrite andb_false_r.
    - rewrite decide_False by tauto.
      assert ((p =? E) = false) as -> by by apply N.eqb_neq.
      simpl. by rewrite andb_true_r. }
  split.
  { intros g' Hg' Hne. rewrite (Hgs g' Hg'). apply filter_ext.
    intros p. rewrite Hstale. by rewrite decide_False by tauto. }
  intros Hact. rewrite Hkept.
  - rewrite HE1. unfold e1. by rewrite Hact.
  - intros [_ Hd]. rewrite Hdead in Hd. unfold dead in Hd.
    rewrite HE, Hact in Hd. done.
Qed.

Lemma delGroup_takes_effect_at_refresh_witness :
  ∃ w1 w2,
    delGroup 0 3 world_three = Some (tt, w1) ∧
    hasGroup 0 3 w1 = Some (false, w1) ∧
    manager w1 = manager world_three ∧
    refresh w1 = Some (tt, w2) ∧
    entities (manager w2)
    = List.filter (λ p, negb (dead world_three p))
                  (entities (manager world_three)) ∧
    getGroupIndex (manager w2) 3
    = List.filter (λ p, negb (stale world_three 3 p) && negb (p =? 0))
                  (getGroupIndex (manager world_three) 3) ∧
    (∀ g', g' < maxGroups → g' ≠ 3 →
           getGroupIndex (manager w2) g'
           = List.filter (λ p, negb (stale world_three g' p))
                         (getGroupIndex (manager world_three) g')) ∧
    (active (mkEntity true [] ∅ 0 8) = true →
     entity_heap w2 !! 0 = Some (mkEntity true [] ∅ 0 (N.clearbit 8 3))).
Proof.
  apply (delGroup_takes_effect_at_refresh world_three 0
           (mkEntity true [] ∅ 0 8) 3).
  - apply manager_okb_ok. vm_compute. reflexivity.
  - vm_compute. reflexivity.
  - vm_compute. reflexivity.
Defined.

(** ** A frame of the game *)




(** ** [TransformComponent] *)

Lemma add_nan_r (a : spec_float) : Float32.add a S754_nan = S754_nan.
Proof. by destruct a. Qed.

Lemma add_nan_l (a : spec_float) : Float32.add S754_nan a = S754_nan.
Proof. by destruct a. Qed.

Lemma mul_nan_l (a : spec_float) : Float32.mul S754_nan a = S754_nan.
Proof. by destruct a. Qed.

Lemma mul_nan_r (a : spec_float) : Float32.mul a S754_nan = S754_nan.
Proof. by destruct a. Qed.

Lemma div_nan_r (a : spec_float) : Float32.div a S754_nan = S754_nan.
Proof. by destruct a. Qed.

Lemma step_of_nan_norm v sp : step_of S754_nan v sp = None.
Proof. unfold step_of. simpl. by rewrite div_nan_r. Qed.

Lemma step_of_nan_speed norm v : step_of norm v S754_nan = None.
Proof.
  unfold step_of. rewrite mul_nan_r.
  destruct (Float32.neq _ _); [|done]. by destruct norm.
Qed.

(** X17. [TransformComponent::update] has no defined result when a
    coordinate of the velocity or the speed is not a number: the norm or
    the product is then a NaN, and the conversion of a NaN to [int] is
    undefined. *)
Theorem update_undefined_on_nan (t : TransformComponent) :
  x (velocity t) = S754_nan ∨ y (velocity t) = S754_nan ∨
  speed t = S754_nan →
  TransformComponent_update t = None.
Proof.
  unfold TransformComponent_update, Norm.
  intros [Hx|[Hy|Hs]].
  - rewrite Hx, mul_nan_l, add_nan_l.
    change (Float32.sqrt S754_nan) with S754_nan.
    by rewrite !step_of_nan_norm.
  - rewrite Hy, mul_nan_l, add_nan_r.
    change (Float32.sqrt S754_nan) with S754_nan.
    by rewrite !step_of_nan_norm.
  - rewrite Hs. by rewrite !step_of_nan_speed.
Qed.

Lemma update_undefined_on_nan_witness :
  TransformComponent_update transform_nan = None.
Proof.
  apply (update_undefined_on_nan transform_nan). left. reflexivity.
Defined.

Lemma same_number_trans (a b c : spec_float) :
  Float32.same_number a b → Float32.same_number b c →
  Float32.same_number a c.
Proof.
  intros [Hab|(s1 & s2 & Ha & Hb)] [Hbc|(s3 & s4 & Hb' & Hc)]; subst.
  - by left.
  - right. eauto.
  - right. eauto.
  - right. eauto.
Qed.

Lemma update_unit_velocity_step (t : TransformComponent) :
  velocity t = mkVector2D (Float32.of_int 1) (Float32.of_int 0) →
  speed t = Float32.of_int 3 →
  TransformComponent_update t
  = Some (set_position
            (mkVector2D (Float32.add (x (position t)) (Float32.of_int 3))
                        (Float32.add (y (position t)) (Float32.of_int 0)))
            t).
Proof.
  intros Hv Hs. unfold TransformComponent_update. rewrite Hv, Hs.
  cbn [x y]. rewrite step_of_unit_x, step_of_unit_y. done.
Qed.

(** X18. Movement along the x axis is exact over any number of frames
    while the position stays a binary32 integer: with velocity (1, 0)
    and speed 3, [k] calls of [update()] from the integer position
    [n0 > -2^24] all return and leave [position.x] at exactly
    [n0 + 3 k], as long as that is below [2^24]; [position.y] stays the
    same number, and velocity and speed are not touched. *)
Theorem update_frames_unit_velocity (k : nat) :
  ∀ (t : TransformComponent) (n0 : Z),
  velocity t = mkVector2D (Float32.of_int 1) (Float32.of_int 0) →
  speed t = Float32.of_int 3 →
  x (position t) = Float32.of_int n0 →
  (- 2 ^ 24 < n0)%Z →
  (n0 + 3 * Z.of_nat k < 2 ^ 24)%Z →
  ∃ t',
    update_frames k t = Some t' ∧
    x (position t') = Float32.of_int (n0 + 3 * Z.of_nat k) ∧
    Float32.represents (x (position t')) (n0 + 3 * Z.of_nat k) ∧
    Float32.same_number (y (position t')) (y (position t)) ∧
    velocity t' = velocity t ∧ speed t' = speed t.
Proof.
  induction k as [|k IH]; intros t n0 Hv Hs Hx Hlo Hhi.
  - exists t. cbn [update_frames].
    replace (n0 + 3 * Z.of_nat 0)%Z with n0 by lia.
    split; [done|]. split; [done|]. split.
    { rewrite Hx. apply represents_of_int. lia. }
    split; [by left|done].
  - cbn [update_frames]. rewrite (update_unit_velocity_step t Hv Hs).
    set (t1 := set_position _ t).
    destruct (IH t1 (n0 + 3)%Z) as (t' & Hrun & Hx' & Hrep & Hy' & Hv' & Hs').
    + done.
    + done.
    + unfold t1, set_position. cbn [position x]. rewrite Hx.
      apply add_three_exact. lia.
    + lia.
    + lia.
    + exists t'. simpl option_bind.
      replace (n0 + 3 * Z.of_nat (S k))%Z
        with (n0 + 3 + 3 * Z.of_nat k)%Z by lia.
      split; [done|]. split; [done|]. split; [done|]. split; [|done].
      apply (same_number_trans _ _ _ Hy').
      unfold t1, set_position. cbn [position y]. apply add_zero_same.
Qed.

Lemma update_frames_unit_velocity_witness :
  ∃ t',
    update_frames 5 (transform_at 10) = Some t' ∧
    x (position t') = Float32.of_int (10 + 3 * Z.of_nat 5) ∧
    Float32.represents (x (position t')) (10 + 3 * Z.of_nat 5) ∧
    Float32.same_number (y (position t')) (y (position (transform_at 10))) ∧
    velocity t' = velocity (transform_at 10) ∧
    speed t' = speed (transform_at 10).
Proof.
  apply (update_frames_unit_velocity 5 (transform_at 10) 10).
  - reflexivity.
  - reflexivity.
  - reflexivity.
  - lia.
  - lia.
Defined.

(** ** New entities *)

(** X19. In a world built through the interface [addEntity()] returns a
    pointer that nothing refers to yet: it was not live, it is in no
    group index and not in the primary collection, and no component
    points back to it, so no reference left from an earlier entity
    aliases the new one.  The new entity is
    active, owns no component, claims no group and is appended last;
    the other entities and all components are as before. *)
Theorem addEntity_is_not_aliased (ops : list Op) (w : World) :
  run_ops ops empty_world = Some w →
  entity_ops ops = true →
  ∃ p w',
    addEntity w = Some (p, w') ∧
    entity_heap w !! p = None ∧
    (p ∉ entities (manager w)) ∧
    (∀ g, g < maxGroups → p ∉ getGroupIndex (manager w') g) ∧
    (∀ c o, component_heap w !! c = Some o → entity o ≠ Some p) ∧
    entities (manager w') = entities (manager w) ++ [p] ∧
    isActive p w' = Some (true, w') ∧
    components_of w' p = [] ∧
    (∀ g, g < maxGroups → hasGroup p g w' = Some (false, w')) ∧
    (∀ q, q ≠ p → entity_heap w' !! q = entity_heap w !! q) ∧
    component_heap w' = component_heap w.
Proof.
  intros Hrun Hops.
  pose proof (run_ops_world_ok ops _ _ world_ok_empty Hrun Hops) as Hok.
  pose proof (run_ops_no_leak ops _ _ world_ok_empty no_leak_empty Hrun Hops)
    as Hnl.
  rewrite addEntity_eq. simpl.
  set (p := fresh (dom (entity_heap w))).
  assert (Hp : entity_heap w !! p = None).
  { apply not_elem_of_dom, is_fresh. }
  eexists p, _. split; [done|]. split; [done|]. simpl.
  split.
  { intros Hin. destruct (entities_live _ (ok_manager _ Hok) p Hin).
    congruence. }
  split.
  { intros g Hg Hin.
    destruct (groups_live _ (ok_manager _ Hok) g p Hg) as [e He];
      [|congruence].
    by destruct (manager w). }
  split.
  { intros c o Ho Hent.
    destruct (Hnl c o Ho) as (q & e & Hq & He & _). congruence. }
  split; [done|]. split.
  { rewrite isActive_eq. simpl. by rewrite lookup_insert_eq. }
  split.
  { unfold components_of. simpl. by rewrite lookup_insert_eq. }
  split.
  { intros g Hg%N.ltb_lt. rewrite hasGroup_eq. simpl.
    rewrite lookup_insert_eq, Hg. simpl. by rewrite ?N.bits_0. }
  split; [|done].
  intros q Hq. by rewrite lookup_insert_ne.
Qed.

Lemma addEntity_is_not_aliased_witness :
  ∃ p w',
    addEntity world_frame = Some (p, w') ∧
    entity_heap world_frame !! p = None ∧
    (p ∉ entities (manager world_frame)) ∧
    (∀ g, g < maxGroups → p ∉ getGroupIndex (manager w') g) ∧
    (∀ c o, component_heap world_frame !! c = Some o →
            entity o ≠ Some p) ∧
    entities (manager w') = entities (manager world_frame) ++ [p] ∧
    isActive p w' = Some (true, w') ∧
    components_of w' p = [] ∧
    (∀ g, g < maxGroups → hasGroup p g w' = Some (false, w')) ∧
    (∀ q, q ≠ p → entity_heap w' !! q = entity_heap world_frame !! q) ∧
    component_heap w' = component_heap world_frame.
Proof.
  apply (addEntity_is_not_aliased frame_ops world_frame).
  - apply run_ops_default. vm_compute. reflexivity.
  - vm_compute. reflexivity.
Defined.

(** ** Attaching leaves the other lookups alone *)

Lemma world_ok_slot_registered w p e i c :
  world_ok w → entity_heap w !! p = Some e →
  componentArray e !! i = Some c → i < lastID w.
Proof.
  intros Hok Hp Hslot.
  destruct (slots_latest _ _ _ (ok_entities _ Hok p e Hp) i c Hslot)
    as (_ & _ & _ & (T0 & _ & HT0) & _).
  by apply (ids_below _ (ok_types _ Hok) T0).
Qed.

Lemma world_ok_bit_registered w p e i :
  world_ok w → entity_heap w !! p = Some e →
  N.testbit (componentBitSet e) i = true → i < lastID w.
Proof.
  intros Hok Hp Hbit.
  apply (bits_slots _ _ _ (ok_entities _ Hok p e Hp)) in Hbit as [c Hslot].
  by apply (world_ok_slot_registered w p e i c).
Qed.

Lemma world_ok_unregistered_slot w p e i :
  world_ok w → entity_heap w !! p = Some e → lastID w <= i →
  N.testbit (componentBitSet e) i = false ∧ componentArray e !! i = None.
Proof.
  intros Hok Hp Hi. split.
  - destruct (N.testbit _ _) eqn:Hbit; [|done].
    apply (world_ok_bit_registered w p e i Hok Hp) in Hbit. lia.
  - destruct (componentArray e !! i) as [c|] eqn:Hslot; [|done].
    apply (world_ok_slot_registered w p e i c Hok Hp) in Hslot. lia.
Qed.

(** The identifier a query for [T'] computes after [T] was registered,
    against the one it computes before. *)
Lemma typeID_of_after_register w T T' :
  world_ok w →
  typeID_of T w < maxComponents →
  typeID_of T' (register_type T w) < maxComponents →
  typeID_of T' w < maxComponents ∧
  (T' ≠ T → typeID_of T' (register_type T w) ≠ typeID_of T w) ∧
  ∀ p e, entity_heap w !! p = Some e →
    N.testbit (componentBitSet e) (typeID_of T' (register_type T w))
    = N.testbit (componentBitSet e) (typeID_of T' w) ∧
    componentArray e !! typeID_of T' (register_type T w)
    = componentArray e !! typeID_of T' w.
Proof.
  intros Hok HT HT'.
  destruct (ok_types _ Hok) as [Hbelow Hinj _].
  unfold typeID_of, register_type in *.
  destruct (typeIDs w !! T') as [i'|] eqn:H'.
  - destruct (typeIDs w !! T) as [i|] eqn:H; simpl in *.
    + rewrite H' in *. simpl in *. split; [done|]. split; [|done].
      intros Hne ->. by apply Hne, (Hinj T' T i).
    + rewrite lookup_insert_ne in * by congruence.
      rewrite H' in *. simpl in *. split; [done|]. split; [|done].
      intros _ ->. apply Hbelow in H'. lia.
  - destruct (typeIDs w !! T) as [i|] eqn:H; simpl in *.
    + rewrite H' in *. simpl in *. split; [done|]. split; [|done].
      intros _ <-. apply Hbelow in H. lia.
    + destruct (decide (T' = T)) as [->|Hne].
      * rewrite lookup_insert_eq in *. simpl in *. done.
      * rewrite lookup_insert_ne in * by done. rewrite H' in *.
        simpl in *.
        assert (maxComponents + 1 < size_t_modulus)
          by (vm_compute; reflexivity).
        rewrite N.mod_small in * by lia.
        split; [lia|]. split; [lia|].
        intros p e Hp.
        destruct (world_ok_unregistered_slot w p e (lastID w) Hok Hp)
          as [-> ->]; [lia|].
        destruct (world_ok_unregistered_slot w p e (lastID w + 1) Hok Hp)
          as [-> ->]; [lia|]. done.
Qed.

(** X20. Attaching a component of type [T] to [E] does not change what
    the typed lookups answer for any other type or any other entity: in
    a world built through the interface, whatever [hasComponent<T'>()]
    or [getComponent<T'>()] returns on [E'] after the call, it returned
    before it, when [T'] is not [T] or [E'] is not [E]. *)
Theorem addComponent_leaves_other_lookups {T} `{cls : ComponentClass T}
    (v : T) (ops : list Op) (w w1 : World) (E c : addr) (T' : string)
    (E' : addr) :
  run_ops ops empty_world = Some w →
  entity_ops ops = true →
  addComponent v E w = Some (c, w1) →
  T' ≠ type_name ∨ E' ≠ E →
  (∀ b w2, hasComponent T' E' w1 = Some (b, w2) →
           result (hasComponent T' E') w = Some b) ∧
  (∀ c' w2, getComponent T' E' w1 = Some (c', w2) →
            result (getComponent T' E') w = Some c').
Proof.
  intros Hrun Hops Hadd Hother.
  pose proof (run_ops_world_ok ops _ _ world_ok_empty Hrun Hops) as Hok.
  revert Hadd. rewrite addComponent_eq.
  destruct (entity_heap w !! E) as [e|] eqn:HE; [|done]. simpl.
  destruct (_ <? maxComponents) eqn:Hid; [|done]. apply N.ltb_lt in Hid.
  destruct (init v) as [v'|]; [|done]. intros [= <- <-].
  set (id := typeID_of type_name w) in *.
  set (cn := fresh (dom (component_heap w))).
  assert (Hheap : ∀ q, entity_heap (attached v' E cn id e w) !! q
                       = if decide (E = q)
                         then Some (mkEntity (active e) (components e ++ [cn])
                                      (<[id := cn]> (componentArray e))
                                      (N.setbit (componentBitSet e) id)
                                      (groupBitSet e))
                         else entity_heap w !! q).
  { intros q. unfold attached. simpl. by rewrite lookup_insert. }
  split.
  - intros b w2. rewrite hasComponent_eq, Hheap.
    unfold result. rewrite hasComponent_eq.
    change (typeID_of T' (attached v' E cn id e w))
      with (typeID_of T' (register_type type_name w)).
    destruct (decide (E = E')) as [<-|Hne].
    + simpl. destruct (_ <? maxComponents) eqn:Hlt; [|done].
      apply N.ltb_lt in Hlt. intros [= <- _].
      destruct (typeID_of_after_register w type_name T' Hok Hid Hlt)
        as (Hlt0 & Hdiff & Hsame).
      destruct (Hsame E e HE) as [Hbit _].
      rewrite HE. simpl. apply N.ltb_lt in Hlt0. rewrite Hlt0. simpl.
      f_equal. rewrite N.setbit_eqb, <- Hbit.
      assert (Hn : T' ≠ type_name) by (destruct Hother; done).
      apply Hdiff in Hn. fold id in Hn.
      assert ((id =? typeID_of T' (register_type type_name w)) = false)
        as -> by (apply N.eqb_neq; congruence).
      done.
    + destruct (entity_heap w !! E') as [e'|] eqn:HE'; [|done]. simpl.
      destruct (_ <? maxComponents) eqn:Hlt; [|done].
      apply N.ltb_lt in Hlt. intros [= <- _].
      destruct (typeID_of_after_register w type_name T' Hok Hid Hlt)
        as (Hlt0 & _ & Hsame).
      destruct (Hsame E' e' HE') as [Hbit _].
      apply N.ltb_lt in Hlt0. rewrite Hlt0. simpl. by rewrite Hbit.
  - intros c' w2. rewrite getComponent_eq, Hheap.
    unfold result. rewrite getComponent_eq.
    change (typeID_of T' (attached v' E cn id e w))
      with (typeID_of T' (register_type type_name w)).
    destruct (decide (E = E')) as [<-|Hne].
    + simpl. destruct (_ <? maxComponents) eqn:Hlt; [|done].
      apply N.ltb_lt in Hlt.
      destruct (typeID_of_after_register w type_name T' Hok Hid Hlt)
        as (Hlt0 & Hdiff & Hsame).
      destruct (Hsame E e HE) as [_ Hslot].
      assert (Hn : T' ≠ type_name) by (destruct Hother; done).
      apply Hdiff in Hn. fold id in Hn.
      rewrite lookup_insert_ne by congruence.
      rewrite HE. simpl. apply N.ltb_lt in Hlt0. rewrite Hlt0.
      rewrite Hslot.
      destruct (componentArray e !! typeID_of T' w); [|done].
      simpl. by intros [= <- _].
    + destruct (entity_heap w !! E') as [e'|] eqn:HE'; [|done]. simpl.
      destruct (_ <? maxComponents) eqn:Hlt; [|done].
      apply N.ltb_lt in Hlt.
      destruct (typeID_of_after_register w type_name T' Hok Hid Hlt)
        as (Hlt0 & _ & Hsame).
      destruct (Hsame E' e' HE') as [_ Hslot].
      apply N.ltb_lt in Hlt0. rewrite Hlt0. rewrite Hslot.
      destruct (componentArray e' !! typeID_of T' w); [|done].
      simpl. by intros [= <- _].
Qed.

Lemma addComponent_leaves_other_lookups_witness :
  (∀ b w2,
     hasComponent "TransformComponent" 0
       (default world_three_types
          (exec (addComponent (cls := Component_base) tt 0)
                world_three_types))
     = Some (b, w2) →
     result (hasComponent "TransformComponent" 0) world_three_types
     = Some b) ∧
  (∀ c' w2,
     getComponent "TransformComponent" 0
       (default world_three_types
          (exec (addComponent (cls := Component_base) tt 0)
                world_three_types))
     = Some (c', w2) →
     result (getComponent "TransformComponent" 0) world_three_types
     = Some c').
Proof.
  apply (addComponent_leaves_other_lookups (cls := Component_base) tt
           three_types world_three_types _ 0 3 "TransformComponent" 0).
  - apply run_ops_default. vm_compute. reflexivity.
  - vm_compute. reflexivity.
  - apply run_default. vm_compute. reflexivity.
  - left. discriminate.
Defined.
